(** * ParTI: the chunk-splitting engine over sorted COO tensors

    A shallow embedding of [src/vector/vector.c] (growable sequences),
    [src/sptensor/split.c] (the split engine) and [src/base.c], followed by
    the properties the specification states about them and by further
    properties of the code.

    Conventions of the embedding.
    - [size_t] values are integers of [Z] in [0, 2^64); every [+] and [-]
      of the source on [size_t] is written with its wrap-around
      ([size_add], [size_sub]).
    - A vector is the C struct: its [len], its [cap] and the [cap] cells
      of its buffer.  A write [data[i] = v] replaces cell [i]; outside the
      buffer the C program has no defined behaviour and the embedding
      leaves the buffer as it is, so such a write shows up as [len]
      exceeding [cap].
    - [malloc] and [realloc] ask an oracle: a list with one entry per
      request, [None] for a refused request and [Some fill] for a granted
      one whose fresh cells hold [fill].  The empty oracle grants what is
      asked for.
    - [spt_CheckError] and [spt_CheckOSError] return from the enclosing
      function with the error code; the embedding returns [Err]. *)

From Stdlib Require Import ZArith List Lia Bool.
From stdpp Require Import base option list gmap.
Import ListNotations.
Local Open Scope Z_scope.

(** ** Machine integers *)

Definition size_t_modulus : Z := 2 ^ 64.
Definition SIZE_MAX : Z := size_t_modulus - 1.

Definition size_wrap (x : Z) : Z := x mod size_t_modulus.
Definition size_add (a b : Z) : Z := size_wrap (a + b).
Definition size_sub (a b : Z) : Z := size_wrap (a - b).

Definition is_size_t (x : Z) : Prop := 0 <= x <= SIZE_MAX.

(** ** Error codes and results *)

(** Modelled from the spec: the error codes, declared in a header that is
    not among the sources.  The spec lists NoMore, ValueError and
    OutOfMemory; [SPTERR_NO_MORE] and [SPTERR_VALUE_ERROR] are the names
    [split.c] uses, and [SPTERR_OS_ERROR] stands for the code that
    [spt_CheckOSError] returns when an allocation is refused. *)
Inductive spt_error : Type :=
| SPTERR_NO_MORE
| SPTERR_VALUE_ERROR
| SPTERR_OS_ERROR.

Inductive result (A : Type) : Type :=
| Ok (a : A)
| Err (e : spt_error).
Arguments Ok {A} a.
Arguments Err {A} e.

(** ** The allocator *)

Definition heap : Type := list (option Z).

(** One request: the answer and the oracle that remains. *)
Definition request (h : heap) : option Z * heap :=
  match h with
  | [] => (Some 0, [])
  | answer :: h' => (answer, h')
  end.

(** Every request of the oracle is granted. *)
Definition grants_all (h : heap) : Prop := Forall is_Some h.

(** ** Cells of a buffer, indexed by [size_t] *)

Section Cells.
Context {A : Type}.

(** [data[i]] with [d] standing for what lies outside the buffer. *)
Definition cell (d : A) (l : list A) (i : Z) : A := nth (Z.to_nat i) l d.

(** [data[i] = v] *)
Definition store (l : list A) (i : Z) (v : A) : list A :=
  if (0 <=? i) && (i <? Z.of_nat (length l)) then <[Z.to_nat i := v]> l else l.

(** [memcpy(dst, src + off, n * sizeof)] on cells *)
Definition memcpy (dst src : list A) (off n : Z) : list A :=
  let moved := firstn (Z.to_nat n) (skipn (Z.to_nat off) src) in
  firstn (length dst) (moved ++ skipn (length moved) dst).

(** [malloc(n * sizeof)]: [n] fresh cells, or [None]. *)
Definition malloc (mk : Z -> A) (n : Z) (h : heap) : option (list A) * heap :=
  match request h with
  | (Some fill, h') => (Some (repeat (mk fill) (Z.to_nat n)), h')
  | (None, h') => (None, h')
  end.

(** [realloc(old, n * sizeof)]: the first [n] cells of [old], then fresh
    cells up to [n]; or [None], and [old] stays valid. *)
Definition realloc (mk : Z -> A) (old : list A) (n : Z) (h : heap)
  : option (list A) * heap :=
  match request h with
  | (Some fill, h') =>
      (Some (firstn (Z.to_nat n) old
               ++ repeat (mk fill) (Z.to_nat n - length old)), h')
  | (None, h') => (None, h')
  end.
End Cells.

(** ** Vectors: [src/vector/vector.c] *)

Record vec (A : Type) : Type := Vec { len : Z; cap : Z; data : list A }.
Arguments Vec {A} len cap data.
Arguments len {A} v.
Arguments cap {A} v.
Arguments data {A} v.

(** [sptScalar] is a floating-point type; the code below only moves
    scalars, so a scalar is represented by its bit pattern. *)
Inductive sptScalar : Type := scalar_bits (bits : Z).

Definition sptVector : Type := vec sptScalar.
Definition sptSizeVector : Type := vec Z.

Definition scalar_cell := cell (scalar_bits 0).
Definition size_cell := cell 0.

(** *** Value vectors *)

Definition sptNewVector (len cap : Z) (h : heap) : result sptVector * heap :=
  let cap := if cap <? len then len else cap in
  let cap := if cap <? 2 then 2 else cap in
  match malloc scalar_bits cap h with
  | (Some cells, h') => (Ok (Vec len cap cells), h')
  | (None, h') => (Err SPTERR_OS_ERROR, h')
  end.

Definition sptCopyVector (src : sptVector) (h : heap) : result sptVector * heap :=
  match sptNewVector (len src) (len src) h with
  | (Ok dest, h') =>
      (Ok (Vec (len dest) (cap dest) (memcpy (data dest) (data src) 0 (len src))), h')
  | (Err e, h') => (Err e, h')
  end.

(** The branch compiled without [MEMCHECK_MODE]. *)
Definition sptAppendVector (vec : sptVector) (value : sptScalar) (h : heap)
  : result sptVector * heap :=
  if cap vec <=? len vec then
    let newcap := size_add (cap vec) (cap vec / 2) in
    match realloc scalar_bits (data vec) newcap h with
    | (Some newdata, h') =>
        (Ok (Vec (size_add (len vec) 1) newcap (store newdata (len vec) value)), h')
    | (None, h') => (Err SPTERR_OS_ERROR, h')
    end
  else
    (Ok (Vec (size_add (len vec) 1) (cap vec) (store (data vec) (len vec) value)), h).

(** The loop of [sptAppendVectorWithVector]: each turn writes
    [vec->data[vec->len + i]] and then increments [vec->len] as well as [i]. *)
Fixpoint append_values_loop (fuel : nat) (i : Z) (vec append_vec : sptVector)
  : sptVector :=
  match fuel with
  | O => vec
  | S fuel' =>
      if i <? len append_vec then
        let written :=
          store (data vec) (size_add (len vec) i) (scalar_cell (data append_vec) i) in
        append_values_loop fuel' (size_add i 1)
          (Vec (size_add (len vec) 1) (cap vec) written) append_vec
      else vec
  end.

Definition sptAppendVectorWithVector (vec append_vec : sptVector) (h : heap)
  : result sptVector * heap :=
  if cap vec <=? len vec then
    let newcap := size_add (cap vec) (cap append_vec) in
    match realloc scalar_bits (data vec) newcap h with
    | (Some newdata, h') =>
        (Ok (append_values_loop (Z.to_nat (len append_vec)) 0
               (Vec (len vec) newcap newdata) append_vec), h')
    | (None, h') => (Err SPTERR_OS_ERROR, h')
    end
  else
    (Ok (append_values_loop (Z.to_nat (len append_vec)) 0 vec append_vec), h).

Definition sptResizeVector (vec : sptVector) (size : Z) (h : heap)
  : result sptVector * heap :=
  let newcap := if size <? 2 then 2 else size in
  if negb (newcap =? cap vec) then
    match realloc scalar_bits (data vec) newcap h with
    | (Some newdata, h') => (Ok (Vec size newcap newdata), h')
    | (None, h') => (Err SPTERR_OS_ERROR, h')
    end
  else (Ok (Vec size (cap vec) (data vec)), h).

(** *** Size vectors *)

Definition sptNewSizeVector (len cap : Z) (h : heap) : result sptSizeVector * heap :=
  let cap := if cap <? len then len else cap in
  let cap := if cap <? 2 then 2 else cap in
  match malloc id cap h with
  | (Some cells, h') => (Ok (Vec len cap cells), h')
  | (None, h') => (Err SPTERR_OS_ERROR, h')
  end.

Definition sptCopySizeVector (src : sptSizeVector) (h : heap)
  : result sptSizeVector * heap :=
  match sptNewSizeVector (len src) (len src) h with
  | (Ok dest, h') =>
      (Ok (Vec (len dest) (cap dest) (memcpy (data dest) (data src) 0 (len src))), h')
  | (Err e, h') => (Err e, h')
  end.

(** The branch compiled without [MEMCHECK_MODE]. *)
Definition sptAppendSizeVector (vec : sptSizeVector) (value : Z) (h : heap)
  : result sptSizeVector * heap :=
  if cap vec <=? len vec then
    let newcap := size_add (cap vec) (cap vec / 2) in
    match realloc id (data vec) newcap h with
    | (Some newdata, h') =>
        (Ok (Vec (size_add (len vec) 1) newcap (store newdata (len vec) value)), h')
    | (None, h') => (Err SPTERR_OS_ERROR, h')
    end
  else
    (Ok (Vec (size_add (len vec) 1) (cap vec) (store (data vec) (len vec) value)), h).

(** The loop of [sptAppendSizeVectorWithVector]: [vec->len] is fixed while
    the cells [vec->len + i] are written. *)
Fixpoint append_sizes_loop (fuel : nat) (i : Z) (cells : list Z) (at_len : Z)
    (append_vec : sptSizeVector) : list Z :=
  match fuel with
  | O => cells
  | S fuel' =>
      if i <? len append_vec then
        append_sizes_loop fuel' (size_add i 1)
          (store cells (size_add at_len i) (size_cell (data append_vec) i))
          at_len append_vec
      else cells
  end.

Definition sptAppendSizeVectorWithVector (vec append_vec : sptSizeVector) (h : heap)
  : result sptSizeVector * heap :=
  let newlen := size_add (len vec) (len append_vec) in
  if cap vec <=? newlen then
    let newcap := size_add (cap vec) (cap append_vec) in
    match realloc id (data vec) newcap h with
    | (Some newdata, h') =>
        (Ok (Vec newlen newcap
               (append_sizes_loop (Z.to_nat (len append_vec)) 0 newdata (len vec)
                  append_vec)), h')
    | (None, h') => (Err SPTERR_OS_ERROR, h')
    end
  else
    (Ok (Vec newlen (cap vec)
           (append_sizes_loop (Z.to_nat (len append_vec)) 0 (data vec) (len vec)
              append_vec)), h).

Definition sptResizeSizeVector (vec : sptSizeVector) (size : Z) (h : heap)
  : result sptSizeVector * heap :=
  let newcap := if size <? 2 then 2 else size in
  if negb (newcap =? cap vec) then
    match realloc id (data vec) newcap h with
    | (Some newdata, h') => (Ok (Vec size newcap newdata), h')
    | (None, h') => (Err SPTERR_OS_ERROR, h')
    end
  else (Ok (Vec size (cap vec) (data vec)), h).

(** The invariant of a vector: the buffer has [cap] cells, of which the
    first [len] are in use, and [cap] is at least 2. *)
Definition vec_ok {A : Type} (v : vec A) : Prop :=
  0 <= len v <= cap v /\ 2 <= cap v /\ Z.of_nat (length (data v)) = cap v.

Definition vec_okb {A : Type} (v : vec A) : bool :=
  (0 <=? len v) && (len v <=? cap v) && (2 <=? cap v)
  && (Z.of_nat (length (data v)) =? cap v).

(** ** Sparse tensors *)

(** Modelled from the spec: the struct [sptSparseTensor], declared in a
    header that is not among the sources.  The data model lists: the number
    of modes, the per-mode dimension sizes, the recorded sort-key marker,
    the count of stored nonzeros, one index array per mode and one value
    array; the index arrays are size vectors and the value array is a value
    vector, as [split.c] uses them. *)
Record sptSparseTensor : Type := SpTns {
  nmodes : Z;
  sortkey : Z;
  ndims : list Z;
  nnz : Z;
  inds : list sptSizeVector;
  values : sptVector
}.

(** [tsr->inds[mode]] *)
Definition inds_at (tsr : sptSparseTensor) (mode : Z) : sptSizeVector :=
  nth (Z.to_nat mode) (inds tsr) (Vec 0 0 []).

(** [tsr->inds[mode].data[i]] *)
Definition index_at (tsr : sptSparseTensor) (mode i : Z) : Z :=
  size_cell (data (inds_at tsr mode)) i.

(** Modelled from the spec: the index vectors of a new tensor, one empty
    size vector per mode (part of [sptNewSparseTensor], below). *)
Fixpoint new_index_vectors (n : nat) (h : heap) : result (list sptSizeVector) * heap :=
  match n with
  | O => (Ok [], h)
  | S n' =>
      match sptNewSizeVector 0 0 h with
      | (Ok v, h1) =>
          match new_index_vectors n' h1 with
          | (Ok vs, h2) => (Ok (v :: vs), h2)
          | (Err e, h2) => (Err e, h2)
          end
      | (Err e, h1) => (Err e, h1)
      end
  end.

(** Modelled from the spec: [sptNewSparseTensor], which [split.c] calls and
    whose source is not among the sources.  The spec says of it: allocate a
    new tensor with the same mode count and dimensions.  The tensor it
    leaves in [dest] has the mode count and the dimension sizes it is given,
    no nonzeros, one empty index vector per mode and an empty value vector;
    nothing is said of the sort-key marker, which stays what [dest] held.
    It allocates the dimension array, the index vectors and the value
    vector. *)
Definition sptNewSparseTensor (dest : sptSparseTensor) (nmodes : Z) (ndims : list Z)
    (h : heap) : result sptSparseTensor * heap :=
  match request h with
  | (None, h0) => (Err SPTERR_OS_ERROR, h0)
  | (Some _, h0) =>
      match new_index_vectors (Z.to_nat nmodes) h0 with
      | (Err e, h1) => (Err e, h1)
      | (Ok vs, h1) =>
          match sptNewVector 0 0 h1 with
          | (Err e, h2) => (Err e, h2)
          | (Ok vals, h2) =>
              (Ok (SpTns nmodes (sortkey dest) (firstn (Z.to_nat nmodes) ndims) 0 vs vals),
               h2)
          end
      end
  end.

(** ** The split engine: [src/sptensor/split.c] *)

Record spt_SplitStatus : Type := SplitStatus {
  tsr : sptSparseTensor;
  cuts_by_mode : sptSizeVector;
  partial_low : sptSizeVector;
  partial_high : sptSizeVector;
  index_step : sptSizeVector;
  no_more : Z
}.

Definition with_partial_low (status : spt_SplitStatus) (v : sptSizeVector) :=
  SplitStatus (tsr status) (cuts_by_mode status) v (partial_high status)
    (index_step status) (no_more status).
Definition with_partial_high (status : spt_SplitStatus) (v : sptSizeVector) :=
  SplitStatus (tsr status) (cuts_by_mode status) (partial_low status) v
    (index_step status) (no_more status).
Definition with_index_step (status : spt_SplitStatus) (v : sptSizeVector) :=
  SplitStatus (tsr status) (cuts_by_mode status) (partial_low status)
    (partial_high status) v (no_more status).
Definition with_no_more (status : spt_SplitStatus) (flag : Z) :=
  SplitStatus (tsr status) (cuts_by_mode status) (partial_low status)
    (partial_high status) (index_step status) flag.

(** The ways the program can end inside a call. *)
Inductive abort : Type :=
| AssertionFailed
| DivisionByZero
| NullDereference.

(** What a call leaves behind: a value, an error code, or the end of the
    program. *)
Inductive outcome (A : Type) : Type :=
| Done (a : A)
| Failed (e : spt_error)
| Aborted (why : abort).
Arguments Done {A} a.
Arguments Failed {A} e.
Arguments Aborted {A} why.

Definition spt_StartSplitSparseTensor (tsr : sptSparseTensor) (cuts : list Z) (h : heap)
  : outcome spt_SplitStatus * heap :=
  if nnz tsr =? 0 then (Failed SPTERR_NO_MORE, h)
  else if negb (sortkey tsr =? size_sub (nmodes tsr) 1) then (Failed SPTERR_VALUE_ERROR, h)
  else
    (* [*status = malloc(...)] is not checked: a refusal is a null dereference *)
    match request h with
    | (None, h0) => (Aborted NullDereference, h0)
    | (Some _, h0) =>
        match sptNewSizeVector (nmodes tsr) (nmodes tsr) h0 with
        | (Err e, h1) => (Failed e, h1)
        | (Ok cbm, h1) =>
            let cbm := Vec (len cbm) (cap cbm) (memcpy (data cbm) cuts 0 (nmodes tsr)) in
            match sptNewSizeVector 1 (size_add (nmodes tsr) 1) h1 with
            | (Err e, h2) => (Failed e, h2)
            | (Ok lows, h2) =>
                match sptNewSizeVector 1 (size_add (nmodes tsr) 1) h2 with
                | (Err e, h3) => (Failed e, h3)
                | (Ok highs, h3) =>
                    match sptNewSizeVector 0 (nmodes tsr) h3 with
                    | (Err e, h4) => (Failed e, h4)
                    | (Ok steps, h4) =>
                        let lows := Vec (len lows) (cap lows) (store (data lows) 0 0) in
                        let highs :=
                          Vec (len highs) (cap highs) (store (data highs) 0 (nnz tsr)) in
                        (Done (SplitStatus tsr cbm lows highs steps 0), h4)
                    end
                end
            end
        end
    end.

(** The counting loop: [index_counts] becomes one more than the number of
    positions of [low, high) whose index differs from the last one seen. *)
Fixpoint count_loop (fuel : nat) (d : list Z) (i high last_index index_counts : Z) : Z :=
  match fuel with
  | O => index_counts
  | S fuel' =>
      if i <? high then
        if negb (size_cell d i =? last_index) then
          count_loop fuel' d (size_add i 1) high (size_cell d i) (size_add index_counts 1)
        else count_loop fuel' d (size_add i 1) high last_index index_counts
      else index_counts
  end.

Definition count_index_values (d : list Z) (low high : Z) : Z :=
  count_loop (Z.to_nat (high - low)) d low high (size_cell d low) 1.

(** The cutting loop: the value of [i] when the loop is left, at the change
    of index met when [index_counts] has reached [step], or at [high]. *)
Fixpoint cut_loop (fuel : nat) (d : list Z) (i high last_index index_counts step : Z) : Z :=
  match fuel with
  | O => i
  | S fuel' =>
      if i <? high then
        if negb (size_cell d i =? last_index) then
          if index_counts =? step then i
          else cut_loop fuel' d (size_add i 1) high (size_cell d i)
                 (size_add index_counts 1) step
        else cut_loop fuel' d (size_add i 1) high last_index index_counts step
      else i
  end.

Definition find_cut (d : list Z) (low high step : Z) : Z :=
  cut_loop (Z.to_nat (high - low)) d low high (size_cell d low) 1 step.

(** [index_step = (index_counts-1) / cuts_by_mode[mode] + 1], or 1 *)
Definition step_of (index_counts cuts : Z) : Z :=
  if negb (index_counts =? 0) then size_add (size_sub index_counts 1 / cuts) 1 else 1.

(** One turn of the first loop, for [mode < nmodes]. *)
Definition descend_step (mode : Z) (status : spt_SplitStatus) (h : heap)
  : outcome unit * spt_SplitStatus * heap :=
  let low := size_cell (data (partial_low status)) mode in
  let high := size_cell (data (partial_high status)) mode in
  if negb (low <? high) then (Aborted AssertionFailed, status, h)
  else
    let d := data (inds_at (tsr status) mode) in
    let index_counts := count_index_values d low high in
    let cuts := size_cell (data (cuts_by_mode status)) mode in
    if negb (index_counts =? 0) && (cuts =? 0) then (Aborted DivisionByZero, status, h)
    else
      match sptAppendSizeVector (index_step status) (step_of index_counts cuts) h with
      | (Err e, h1) => (Failed e, status, h1)
      | (Ok steps, h1) =>
          let status := with_index_step status steps in
          let i := find_cut d low high (size_cell (data (index_step status)) mode) in
          match sptAppendSizeVector (partial_low status) low h1 with
          | (Err e, h2) => (Failed e, status, h2)
          | (Ok lows, h2) =>
              let status := with_partial_low status lows in
              match sptAppendSizeVector (partial_high status) i h2 with
              | (Err e, h3) => (Failed e, status, h3)
              | (Ok highs, h3) => (Done tt, with_partial_high status highs, h3)
              end
          end
      end.

Fixpoint descend (fuel : nat) (mode : Z) (status : spt_SplitStatus) (h : heap)
  : outcome unit * spt_SplitStatus * heap :=
  match fuel with
  | O => (Done tt, status, h)
  | S fuel' =>
      if mode <? nmodes (tsr status) then
        match descend_step mode status h with
        | (Done _, status1, h1) => descend fuel' (size_add mode 1) status1 h1
        | stopped => stopped
        end
      else (Done tt, status, h)
  end.

(** The copy of [low, high) into [dest]: one index vector per turn. *)
Fixpoint copy_indices (fuel : nat) (mode : Z) (dest src : sptSparseTensor)
    (cut_low cut_high : Z) (h : heap) : result sptSparseTensor * heap :=
  match fuel with
  | O => (Ok dest, h)
  | S fuel' =>
      if mode <? nmodes src then
        match sptResizeSizeVector (inds_at dest mode) (size_sub cut_high cut_low) h with
        | (Err e, h1) => (Err e, h1)
        | (Ok v, h1) =>
            let v :=
              Vec (len v) (cap v)
                (memcpy (data v) (data (inds_at src mode)) cut_low
                   (size_sub cut_high cut_low)) in
            let dest :=
              SpTns (nmodes dest) (sortkey dest) (ndims dest) (nnz dest)
                (<[Z.to_nat mode := v]> (inds dest)) (values dest) in
            copy_indices fuel' (size_add mode 1) dest src cut_low cut_high h1
        end
      else (Ok dest, h)
  end.

Definition materialize (dest src : sptSparseTensor) (cut_low cut_high : Z) (h : heap)
  : result sptSparseTensor * heap :=
  match sptNewSparseTensor dest (nmodes src) (ndims src) h with
  | (Err e, h1) => (Err e, h1)
  | (Ok dest, h1) =>
      match copy_indices (Z.to_nat (nmodes src)) 0 dest src cut_low cut_high h1 with
      | (Err e, h2) => (Err e, h2)
      | (Ok dest, h2) =>
          match sptResizeVector (values dest) (size_sub cut_high cut_low) h2 with
          | (Err e, h3) => (Err e, h3)
          | (Ok v, h3) =>
              let v :=
                Vec (len v) (cap v)
                  (memcpy (data v) (data (values src)) cut_low
                     (size_sub cut_high cut_low)) in
              (Ok (SpTns (nmodes dest) (sortkey dest) (ndims dest)
                     (size_sub cut_high cut_low) (inds dest) v), h3)
          end
      end
  end.

(** [--vec.len] *)
Definition drop_last {A : Type} (v : vec A) : vec A :=
  Vec (size_sub (len v) 1) (cap v) (data v).

(** The last loop, [while(mode-- > 0)]: [mode] is the value tested.  A
    level whose range is used up is dropped; otherwise the next sibling
    range is written at [mode+1] and the function returns.  When the loop
    runs out, [no_more] is set. *)
Fixpoint backtrack (fuel : nat) (mode : Z) (status : spt_SplitStatus) : spt_SplitStatus :=
  match fuel with
  | O => status
  | S fuel' =>
      if 0 <? mode then
        let mode := size_sub mode 1 in
        let low := size_cell (data (partial_high status)) (size_add mode 1) in
        let high := size_cell (data (partial_high status)) mode in
        if high <=? low then
          backtrack fuel' mode
            (SplitStatus (tsr status) (cuts_by_mode status)
               (drop_last (partial_low status)) (drop_last (partial_high status))
               (drop_last (index_step status)) (no_more status))
        else
          let i :=
            find_cut (data (inds_at (tsr status) mode)) low high
              (size_cell (data (index_step status)) mode) in
          let lows := partial_low status in
          let highs := partial_high status in
          with_partial_high
            (with_partial_low status
               (Vec (len lows) (cap lows) (store (data lows) (size_add mode 1) low)))
            (Vec (len highs) (cap highs) (store (data highs) (size_add mode 1) i))
      else with_no_more status 1
  end.

(** A chunk: the tensor left in [dest], and the range of the source it was
    copied from (the locals [cut_low] and [cut_high] of the function). *)
Record chunk : Type := Chunk {
  chunk_tensor : sptSparseTensor;
  cut_low : Z;
  cut_high : Z
}.

Definition spt_SplitSparseTensor (dest : sptSparseTensor) (status : spt_SplitStatus)
    (h : heap) : outcome chunk * spt_SplitStatus * heap :=
  let mode := size_sub (len (partial_low status)) 1 in
  if negb (no_more status =? 0) then (Failed SPTERR_NO_MORE, status, h)
  else
    let n := nmodes (tsr status) in
    match descend (Z.to_nat (n - mode)) mode status h with
    | (Done _, status, h1) =>
        let cut_low := size_cell (data (partial_low status)) n in
        let cut_high := size_cell (data (partial_high status)) n in
        match materialize dest (tsr status) cut_low cut_high h1 with
        | (Err e, h2) => (Failed e, status, h2)
        | (Ok dest, h2) =>
            (Done (Chunk dest cut_low cut_high), backtrack (S (Z.to_nat n)) n status, h2)
        end
    | (Failed e, status, h1) => (Failed e, status, h1)
    | (Aborted why, status, h1) => (Aborted why, status, h1)
    end.

(** The caller's loop: [produce] until [SPTERR_NO_MORE]; any other failure
    ends it.  [dest] is the struct each call fills. *)
Inductive driven : Type :=
| Exhausted (chunks : list chunk)
| Broken (chunks : list chunk)
| Unfinished (chunks : list chunk).

Definition add_chunk (c : chunk) (d : driven) : driven :=
  match d with
  | Exhausted cs => Exhausted (c :: cs)
  | Broken cs => Broken (c :: cs)
  | Unfinished cs => Unfinished (c :: cs)
  end.

Fixpoint drive (fuel : nat) (dest : sptSparseTensor) (status : spt_SplitStatus) (h : heap)
  : driven :=
  match fuel with
  | O => Unfinished []
  | S fuel' =>
      match spt_SplitSparseTensor dest status h with
      | (Done c, status1, h1) => add_chunk c (drive fuel' dest status1 h1)
      | (Failed SPTERR_NO_MORE, _, _) => Exhausted []
      | (Failed _, _, _) => Broken []
      | (Aborted _, _, _) => Broken []
      end
  end.

(** [start], then [produce] to exhaustion. *)
Definition split_all (fuel : nat) (dest tsr : sptSparseTensor) (cuts : list Z) (h : heap)
  : driven :=
  match spt_StartSplitSparseTensor tsr cuts h with
  | (Done status, h1) => drive fuel dest status h1
  | _ => Broken []
  end.

Definition chunk_range (c : chunk) : Z * Z := (cut_low c, cut_high c).

(** ** Example tensors *)

Definition size_vector_of (l : list Z) : sptSizeVector :=
  Vec (Z.of_nat (length l)) (Z.max 2 (Z.of_nat (length l))) (l ++ repeat 0 (2 - length l)).

Definition value_vector_of (l : list Z) : sptVector :=
  Vec (Z.of_nat (length l)) (Z.max 2 (Z.of_nat (length l)))
    (map scalar_bits l ++ repeat (scalar_bits 0) (2 - length l)).

(** Scenario A: two modes, six nonzeros, whatever the dimension sizes and
    the values. *)
Definition scenario_A (dims : list Z) (vals : sptVector) : sptSparseTensor :=
  SpTns 2 1 dims 6
    [size_vector_of [0; 0; 1; 1; 2; 2]; size_vector_of [0; 1; 0; 1; 0; 1]] vals.

Definition tensor_A : sptSparseTensor :=
  scenario_A [3; 2] (value_vector_of [10; 11; 12; 13; 14; 15]).

(** Four nonzeros filling a 2 x 2 index space, sorted. *)
Definition tensor_B : sptSparseTensor :=
  SpTns 2 1 [2; 2] 4
    [size_vector_of [0; 0; 1; 1]; size_vector_of [0; 1; 0; 1]]
    (value_vector_of [20; 21; 22; 23]).

Definition blank : sptSparseTensor := SpTns 0 0 [] 0 [] (Vec 0 0 []).

(** ** Well-formed tensors and statuses *)

(** What the type of a tensor promises: the counts are [size_t] values, the
    array of index vectors can be allocated, and every array holds [nnz]
    entries. *)
Definition tensor_wf (t : sptSparseTensor) : Prop :=
  0 <= nmodes t < SIZE_MAX /\ 0 <= nnz t <= SIZE_MAX /\ 0 <= sortkey t <= SIZE_MAX
  /\ length (ndims t) = Z.to_nat (nmodes t)
  /\ length (inds t) = Z.to_nat (nmodes t)
  /\ Forall (fun v => len v = nnz t /\ nnz t <= Z.of_nat (length (data v))) (inds t)
  /\ len (values t) = nnz t /\ nnz t <= Z.of_nat (length (data (values t))).

(** The index tuple of nonzero [i], and the lexicographic order on tuples. *)
Definition entry (t : sptSparseTensor) (i : Z) : list Z :=
  map (fun v => size_cell (data v) i) (inds t).

Fixpoint lex_le (a b : list Z) : Prop :=
  match a, b with
  | x :: a', y :: b' => x < y \/ (x = y /\ lex_le a' b')
  | _, _ => True
  end.

Definition lex_sorted (t : sptSparseTensor) : Prop :=
  forall i j, 0 <= i -> i <= j -> j < nnz t -> lex_le (entry t i) (entry t j).

(** Level [k] of the range stack. *)
Definition low_at (status : spt_SplitStatus) (k : Z) : Z :=
  size_cell (data (partial_low status)) k.
Definition high_at (status : spt_SplitStatus) (k : Z) : Z :=
  size_cell (data (partial_high status)) k.
Definition step_at (status : spt_SplitStatus) (k : Z) : Z :=
  size_cell (data (index_step status)) k.
Definition cuts_at (status : spt_SplitStatus) (k : Z) : Z :=
  size_cell (data (cuts_by_mode status)) k.

(** The range stack as a list of levels, bottom first. *)
Definition range_stack (status : spt_SplitStatus) : list (Z * Z) :=
  map (fun k => (low_at status (Z.of_nat k), high_at status (Z.of_nat k)))
    (seq 0 (Z.to_nat (len (partial_low status)))).

(** The low end of the top level: where the next chunk starts. *)
Definition top_low (status : spt_SplitStatus) : Z :=
  low_at status (len (partial_low status) - 1).

(** The invariant of a status between two calls. *)
Record stack_inv (status : spt_SplitStatus) : Prop := StackInv {
  inv_modes : 0 <= nmodes (tsr status) < SIZE_MAX;
  inv_nnz : 0 <= nnz (tsr status) <= SIZE_MAX;
  inv_depth : 1 <= len (partial_low status) <= nmodes (tsr status) + 1;
  inv_high_len : len (partial_high status) = len (partial_low status);
  inv_step_len : len (index_step status) = len (partial_low status) - 1;
  inv_low_cap : nmodes (tsr status) + 1 <= cap (partial_low status);
  inv_high_cap : nmodes (tsr status) + 1 <= cap (partial_high status);
  inv_step_cap : nmodes (tsr status) <= cap (index_step status);
  inv_low_cells :
    nmodes (tsr status) + 1 <= Z.of_nat (length (data (partial_low status)));
  inv_high_cells :
    nmodes (tsr status) + 1 <= Z.of_nat (length (data (partial_high status)));
  inv_step_cells :
    nmodes (tsr status) <= Z.of_nat (length (data (index_step status)));
  inv_levels :
    forall k, 0 <= k < len (partial_low status) ->
      0 <= low_at status k /\ low_at status k < high_at status k
      /\ high_at status k <= nnz (tsr status);
  inv_nested :
    forall k, 0 <= k -> k + 1 < len (partial_low status) ->
      high_at status (k + 1) <= high_at status k;
  inv_whole : high_at status 0 = nnz (tsr status)
}.

(** The statuses a caller can hold: what [start] returned, and what any
    call of [produce] left, whatever that call returned. *)
Inductive reachable (t : sptSparseTensor) (cuts : list Z) : spt_SplitStatus -> Prop :=
| reach_start h status h' :
    spt_StartSplitSparseTensor t cuts h = (Done status, h') ->
    reachable t cuts status
| reach_produce status dest h r status' h' :
    reachable t cuts status ->
    spt_SplitSparseTensor dest status h = (r, status', h') ->
    reachable t cuts status'.

(** Ranges that follow one another from [from] to [to], none empty. *)
Fixpoint consecutive (from to : Z) (ranges : list (Z * Z)) : Prop :=
  match ranges with
  | [] => from = to
  | (low, high) :: rest => low = from /\ low < high /\ consecutive high to rest
  end.

(** [n] calls of [produce] in a row: what each returned, and the status and
    the allocator after the last. *)
Fixpoint produce_times (n : nat) (dest : sptSparseTensor) (status : spt_SplitStatus)
    (h : heap) : list (outcome chunk) * spt_SplitStatus * heap :=
  match n with
  | O => ([], status, h)
  | S n' =>
      match spt_SplitSparseTensor dest status h with
      | (r, status1, h1) =>
          match produce_times n' dest status1 h1 with
          | (rs, status2, h2) => (r :: rs, status2, h2)
          end
      end
  end.

(** How many different values a list holds. *)
Definition distinct_count (l : list Z) : Z :=
  Z.of_nat (length (nodup Z.eq_dec l)).

(** Where a status stands in the source: the low end of its top level, or
    [nnz] once the exhaustion flag is set. *)
Definition position (status : spt_SplitStatus) : Z :=
  if no_more status =? 0 then top_low status else nnz (tsr status).

(** The status [start] returns for a tensor and its cuts when memory is
    granted, and the status left after [n] calls of [produce]. *)
Definition started (t : sptSparseTensor) (cuts : list Z) : spt_SplitStatus :=
  match spt_StartSplitSparseTensor t cuts [] with
  | (Done status, _) => status
  | _ => SplitStatus t (Vec 0 0 []) (Vec 0 0 []) (Vec 0 0 []) (Vec 0 0 []) 1
  end.

Definition status_after (n : nat) (t : sptSparseTensor) (cuts : list Z) : spt_SplitStatus :=
  snd (fst (produce_times n blank (started t cuts) [])).

(** The number of positions of a list whose value differs from the one
    before it, [last] standing before the first; and lists that never go
    down. *)
Fixpoint value_changes (last : Z) (l : list Z) : Z :=
  match l with
  | [] => 0
  | x :: l' => (if x =? last then 0 else 1) + value_changes x l'
  end.

Fixpoint ascending_from (last : Z) (l : list Z) : Prop :=
  match l with
  | [] => True
  | x :: l' => last <= x /\ ascending_from x l'
  end.

Definition ascending (l : list Z) : Prop :=
  match l with
  | [] => True
  | x :: l' => ascending_from x l'
  end.

(** The cells [low .. high-1] of a buffer. *)
Definition slice (d : list Z) (low high : Z) : list Z :=
  firstn (Z.to_nat (high - low)) (skipn (Z.to_nat low) d).

(** The index values of one mode over [low, high). *)
Definition mode_slice (t : sptSparseTensor) (mode low high : Z) : list Z :=
  slice (data (inds_at t mode)) low high.

(** Mode [m] of [d] holds the entries [lo .. hi-1] of mode [m] of [src]. *)
Definition mode_copied (d src : sptSparseTensor) (lo hi m : Z) : Prop :=
  len (inds_at d m) = hi - lo
  /\ forall k, 0 <= k < hi - lo -> index_at d m k = index_at src m (lo + k).

(** ** The status in memory: [finish]

    [spt_FinishSplitSparseTensor] reads nothing of the stacks; it releases
    blocks.  Its embedding works on a memory of blocks at addresses, where
    the status struct holds a pointer to the tensor struct and the data
    pointers of its four vectors, and the tensor struct holds the pointers
    to its own arrays.  [None] stands for a call with no defined behaviour:
    a [free] of an address that holds no block, or a status pointer that
    does not point to a status. *)

Abbreviation addr := positive.

Record vec_ref : Type := VecRef { ref_len : Z; ref_cap : Z; ref_data : addr }.

Record tensor_struct : Type := TensorStruct {
  ts_nmodes : Z;
  ts_sortkey : Z;
  ts_ndims : addr;
  ts_nnz : Z;
  ts_inds : addr;
  ts_values : vec_ref
}.

Record status_struct : Type := StatusStruct {
  st_tsr : option addr;
  st_cuts_by_mode : vec_ref;
  st_partial_low : vec_ref;
  st_partial_high : vec_ref;
  st_index_step : vec_ref;
  st_no_more : Z
}.

Inductive block : Type :=
| SizeCells (cells : list Z)
| ScalarCells (cells : list sptScalar)
| VectorStructs (refs : list vec_ref)
| TensorBlock (ts : tensor_struct)
| StatusBlock (s : status_struct).

Abbreviation memory := (gmap positive block).

(** [free(p)] *)
Definition free (m : memory) (a : addr) : option memory :=
  match m !! a with
  | Some _ => Some (delete a m)
  | None => None
  end.

(** [sptFreeSizeVector]: [free(vec->data)] *)
Definition sptFreeSizeVector (m : memory) (vec : vec_ref) : option memory :=
  free m (ref_data vec).

Definition spt_FinishSplitSparseTensor (m : memory) (status : addr) : option memory :=
  match m !! status with
  | Some (StatusBlock s) =>
      let cleared :=
        StatusStruct None (st_cuts_by_mode s) (st_partial_low s) (st_partial_high s)
          (st_index_step s) (st_no_more s) in
      let m0 : memory := <[status := StatusBlock cleared]> m in
      m1 ← sptFreeSizeVector m0 (st_cuts_by_mode s);
      m2 ← sptFreeSizeVector m1 (st_partial_low s);
      m3 ← sptFreeSizeVector m2 (st_partial_high s);
      m4 ← sptFreeSizeVector m3 (st_index_step s);
      free m4 status
  | _ => None
  end.

(** What memory holds, read back as the values of the engine. *)
Definition load_size_vector (m : memory) (r : vec_ref) : option sptSizeVector :=
  match m !! ref_data r with
  | Some (SizeCells cells) => Some (Vec (ref_len r) (ref_cap r) cells)
  | _ => None
  end.

Definition load_value_vector (m : memory) (r : vec_ref) : option sptVector :=
  match m !! ref_data r with
  | Some (ScalarCells cells) => Some (Vec (ref_len r) (ref_cap r) cells)
  | _ => None
  end.

Definition load_tensor (m : memory) (q : addr) : option sptSparseTensor :=
  match m !! q with
  | Some (TensorBlock ts) =>
      match m !! ts_ndims ts, m !! ts_inds ts with
      | Some (SizeCells dims), Some (VectorStructs refs) =>
          vs ← mapM (load_size_vector m) refs;
          vals ← load_value_vector m (ts_values ts);
          Some (SpTns (ts_nmodes ts) (ts_sortkey ts) dims (ts_nnz ts) vs vals)
      | _, _ => None
      end
  | _ => None
  end.

Definition load_status (m : memory) (p : addr) : option spt_SplitStatus :=
  match m !! p with
  | Some (StatusBlock s) =>
      q ← st_tsr s;
      t ← load_tensor m q;
      cbm ← load_size_vector m (st_cuts_by_mode s);
      lows ← load_size_vector m (st_partial_low s);
      highs ← load_size_vector m (st_partial_high s);
      steps ← load_size_vector m (st_index_step s);
      Some (SplitStatus t cbm lows highs steps (st_no_more s))
  | _ => None
  end.

(** The addresses a tensor is read from, and the blocks of a status. *)
Definition tensor_footprint (m : memory) (q : addr) : list addr :=
  match m !! q with
  | Some (TensorBlock ts) =>
      q :: ts_ndims ts :: ts_inds ts :: ref_data (ts_values ts)
        :: match m !! ts_inds ts with
           | Some (VectorStructs refs) => map ref_data refs
           | _ => []
           end
  | _ => [q]
  end.

Definition status_blocks (s : status_struct) (p : addr) : list addr :=
  [p; ref_data (st_cuts_by_mode s); ref_data (st_partial_low s);
   ref_data (st_partial_high s); ref_data (st_index_step s)].

(** The layout [start] gives a status: the buffers of its four vectors and
    the struct itself in five blocks of their own, at addresses nothing else
    uses. *)
Definition alloc_block (m : memory) (b : block) : memory * addr :=
  let a := fresh (dom m) in (<[a := b]> m, a).

Definition place_status (m : memory) (q : addr) (status : spt_SplitStatus)
  : memory * addr :=
  let place (m : memory) (v : sptSizeVector) : memory * vec_ref :=
    let (m', a) := alloc_block m (SizeCells (data v)) in
    (m', VecRef (len v) (cap v) a) in
  let (m0, p) :=
    alloc_block m
      (StatusBlock (StatusStruct (Some q) (VecRef 0 0 1%positive) (VecRef 0 0 1%positive)
                      (VecRef 0 0 1%positive) (VecRef 0 0 1%positive) 0)) in
  let (m1, cbm) := place m0 (cuts_by_mode status) in
  let (m2, lows) := place m1 (partial_low status) in
  let (m3, highs) := place m2 (partial_high status) in
  let (m4, steps) := place m3 (index_step status) in
  (<[p := StatusBlock (StatusStruct (Some q) cbm lows highs steps (no_more status))]> m4,
   p).

(** A memory that holds tensor A at address 1, and the same memory after
    [start] has laid out its status. *)
Definition memory_A : memory :=
  list_to_map
    [(1%positive,
      TensorBlock (TensorStruct 2 1 2%positive 6 3%positive (VecRef 6 6 6%positive)));
     (2%positive, SizeCells [3; 2]);
     (3%positive, VectorStructs [VecRef 6 6 4%positive; VecRef 6 6 5%positive]);
     (4%positive, SizeCells [0; 0; 1; 1; 2; 2]);
     (5%positive, SizeCells [0; 1; 0; 1; 0; 1]);
     (6%positive, ScalarCells (map scalar_bits [10; 11; 12; 13; 14; 15]))].

Definition memory_A_started : memory * addr :=
  place_status memory_A 1%positive (started tensor_A [3; 1]).

(** ** The rest of [src/vector/vector.c] and [src/base.c] *)

Section Fill.
Context {A : Type}.

(** The loop of the [Constant] functions:
    [for(i = 0; i < vec->len; ++i) vec->data[i] = val]. *)
Fixpoint constant_loop (fuel : nat) (i len : Z) (cells : list A) (val : A) : list A :=
  match fuel with
  | O => cells
  | S fuel' =>
      if i <? len then constant_loop fuel' (size_add i 1) len (store cells i val) val
      else cells
  end.


(** The elements of a vector: its cells [0 .. len-1], [d] standing for a
    cell outside the buffer. *)
Definition elements (d : A) (v : vec A) : list A :=
  map (fun k => cell d (data v) (Z.of_nat k)) (seq 0 (Z.to_nat (len v))).
End Fill.


Definition sptConstantSizeVector (vec : sptSizeVector) (num : Z) : sptSizeVector :=
  Vec (len vec) (cap vec) (constant_loop (Z.to_nat (len vec)) 0 (len vec) (data vec) num).

(** A caller that appends the values of a list one after the other, and
    stops at the first error. *)
Fixpoint append_sizes (vec : sptSizeVector) (values : list Z) (h : heap)
  : result sptSizeVector * heap :=
  match values with
  | [] => (Ok vec, h)
  | value :: rest =>
      match sptAppendSizeVector vec value h with
      | (Ok vec', h') => append_sizes vec' rest h'
      | (Err e, h') => (Err e, h')
      end
  end.

(** The loop of [sptMaxSizeArray], [i] running from 1. *)
Fixpoint max_loop (fuel : nat) (indices : list Z) (i size max : Z) : Z :=
  match fuel with
  | O => max
  | S fuel' =>
      if i <? size then
        let max := if max <? size_cell indices i then size_cell indices i else max in
        max_loop fuel' indices (size_add i 1) size max
      else max
  end.

(** [indices[0]] is read before [size] is looked at. *)
Definition sptMaxSizeArray (indices : list Z) (size : Z) : Z :=
  max_loop (Z.to_nat (size - 1)) indices 1 size (size_cell indices 0).

(** *** The vectors added for HiCOO

    [sptElementIndexVector], [sptBlockIndexVector], [sptIndexVector],
    [sptNnzIndexVector] and [sptValueVector] have the same three functions,
    character for character but for the type of the elements and the order
    of the three statements of [Free].  Their structs are declared in a
    header that is not among the sources; [len] and [cap] are taken to hold
    the [uint64_t] arguments of [New] as they are, and an element is
    represented by its bit pattern.  The functions are written once, over
    the type of the elements. *)

Section HiCOO.
Context {A : Type} (mk : Z -> A).


(** [Append], the branch compiled without [MEMCHECK_MODE]. *)
Definition hicoo_append : vec A -> A -> heap -> result (vec A) * heap :=
  fun vec value h =>
  if cap vec <=? len vec then
    let newcap := size_add (cap vec) (cap vec / 2) in
    match realloc mk (data vec) newcap h with
    | (Some newdata, h') =>
        (Ok (Vec (size_add (len vec) 1) newcap (store newdata (len vec) value)), h')
    | (None, h') => (Err SPTERR_OS_ERROR, h')
    end
  else
    (Ok (Vec (size_add (len vec) 1) (cap vec) (store (data vec) (len vec) value)), h).
End HiCOO.

Definition sptElementIndexVector : Type := vec Z.
Definition sptBlockIndexVector : Type := vec Z.
Definition sptIndexVector : Type := vec Z.
Definition sptNnzIndexVector : Type := vec Z.
Definition sptValueVector : Type := vec sptScalar.


Definition sptAppendElementIndexVector
  : sptElementIndexVector -> Z -> heap -> result sptElementIndexVector * heap :=
  hicoo_append id.
Definition sptAppendBlockIndexVector
  : sptBlockIndexVector -> Z -> heap -> result sptBlockIndexVector * heap :=
  hicoo_append id.
Definition sptAppendIndexVector
  : sptIndexVector -> Z -> heap -> result sptIndexVector * heap :=
  hicoo_append id.
Definition sptAppendNnzIndexVector
  : sptNnzIndexVector -> Z -> heap -> result sptNnzIndexVector * heap :=
  hicoo_append id.
Definition sptAppendValueVector
  : sptValueVector -> sptScalar -> heap -> result sptValueVector * heap :=
  hicoo_append scalar_bits.

(** *** Releasing a vector, on the memory of blocks *)

(** [sptFreeVector]: [free(vec->data)]; the struct keeps its three fields. *)
Definition sptFreeVector (m : memory) (vec : vec_ref) : option memory :=
  free m (ref_data vec).

(** [Free] of the HiCOO vectors: [free(vec->data)], [vec->len = 0] and
    [vec->cap = 0]; [vec->data] keeps the address it held.  The struct
    after the call is returned with the memory. *)
Definition hicoo_free (m : memory) (vec : vec_ref) : option (memory * vec_ref) :=
  m' ← free m (ref_data vec);
  Some (m', VecRef 0 0 (ref_data vec)).

Definition sptFreeElementIndexVector := hicoo_free.
Definition sptFreeBlockIndexVector := hicoo_free.
Definition sptFreeIndexVector := hicoo_free.
Definition sptFreeNnzIndexVector := hicoo_free.

(** [sptFreeValueVector] clears [len] and [cap] first and frees last. *)
Definition sptFreeValueVector (m : memory) (vec : vec_ref) : option (memory * vec_ref) :=
  let cleared := VecRef 0 0 (ref_data vec) in
  m' ← free m (ref_data cleared);
  Some (m', cleared).

(** ** Where a chunk may end *)

(** A position of the source at which the index changes in some mode, or
    the end of the source. *)
Definition boundary (t : sptSparseTensor) (x : Z) : Prop :=
  x = nnz t
  \/ exists m, 0 <= m < nmodes t /\ index_at t m x <> index_at t m (x - 1).

(** Every level of the range stack ends at such a position. *)
Definition ends_on_boundaries (status : spt_SplitStatus) : Prop :=
  forall k, 0 <= k < len (partial_low status) ->
    boundary (tsr status) (high_at status k).

(** ** Tactics for concrete inputs *)

(** Case analysis on the first answers of the allocator, going on only
    where the answer was a grant. *)
Ltac heap_cases h n :=
  match n with
  | O => idtac
  | S ?n' => destruct h as [|[?|] h]; [ | heap_cases h n' | ]
  end.

(** Well-formedness of a tensor given by its contents. *)
Ltac concrete_wf :=
  unfold tensor_wf;
  repeat match goal with
         | |- _ /\ _ => split
         | |- Forall _ _ => constructor
         end;
  vm_compute; congruence.

(** Lexicographic order of a tensor of four nonzeros given by its contents. *)
Ltac concrete_sorted4 :=
  let i := fresh "i" in
  let j := fresh "j" in
  let Hi := fresh "Hi" in
  let Hij := fresh "Hij" in
  let Hj := fresh "Hj" in
  let Hcases := fresh "Hcases" in
  intros i j Hi Hij Hj; simpl in Hj;
  assert (Hcases : (i = 0 \/ i = 1 \/ i = 2 \/ i = 3)
                   /\ (j = 0 \/ j = 1 \/ j = 2 \/ j = 3)) by lia;
  destruct Hcases as [[-> | [-> | [-> | ->]]] [-> | [-> | [-> | ->]]]];
  try (exfalso; clear - Hij; lia); vm_compute; intuition congruence.

(** * Properties *)

(** ** Arithmetic on [size_t] *)

Lemma size_wrap_small (x : Z) : 0 <= x <= SIZE_MAX -> size_wrap x = x.
Proof.
  unfold size_wrap, SIZE_MAX. intros Hx. apply Z.mod_small. lia.
Qed.

Lemma size_add_small (a b : Z) : 0 <= a + b <= SIZE_MAX -> size_add a b = a + b.
Proof. apply size_wrap_small. Qed.

Lemma size_sub_small (a b : Z) : 0 <= a - b <= SIZE_MAX -> size_sub a b = a - b.
Proof. apply size_wrap_small. Qed.

Lemma size_wrap_range (x : Z) : 0 <= size_wrap x <= SIZE_MAX.
Proof.
  unfold size_wrap, SIZE_MAX.
  assert (0 <= x mod size_t_modulus < size_t_modulus)
    by (apply Z.mod_pos_bound; reflexivity).
  lia.
Qed.

Lemma SIZE_MAX_value : SIZE_MAX = 18446744073709551615.
Proof. reflexivity. Qed.

(** ** Cells *)

Section CellFacts.
Context {A : Type}.
Implicit Types (l : list A) (d v : A) (i j : Z).

Lemma length_store l i v : length (store l i v) = length l.
Proof.
  unfold store. destruct (_ && _); [apply length_insert | reflexivity].
Qed.

Lemma cell_store_same d l i v :
  0 <= i < Z.of_nat (length l) -> cell d (store l i v) i = v.
Proof.
  intros Hi. unfold store, cell.
  replace ((0 <=? i) && (i <? Z.of_nat (length l))) with true
    by (symmetry; apply andb_true_iff; split; [apply Z.leb_le | apply Z.ltb_lt]; lia).
  rewrite nth_lookup, list_lookup_insert_eq by lia. reflexivity.
Qed.

Lemma cell_store_other d l i j v :
  0 <= j -> i <> j -> cell d (store l i v) j = cell d l j.
Proof.
  intros Hj Hne. unfold store, cell.
  destruct ((0 <=? i) && (i <? Z.of_nat (length l))) eqn:Hin; [|reflexivity].
  apply andb_true_iff in Hin as [H0 _]. apply Z.leb_le in H0.
  rewrite !nth_lookup, list_lookup_insert_ne by lia. reflexivity.
Qed.

Lemma length_malloc (mk : Z -> A) n h cells h' :
  malloc mk n h = (Some cells, h') -> length cells = Z.to_nat n.
Proof.
  unfold malloc. destruct (request h) as [[fill|] h0]; intros [= <- _].
  apply repeat_length.
Qed.

Lemma length_realloc (mk : Z -> A) old n h cells h' :
  realloc mk old n h = (Some cells, h') -> length cells = Z.to_nat n.
Proof.
  unfold realloc. destruct (request h) as [[fill|] h0]; intros [= <- _].
  rewrite length_app, length_take, repeat_length. lia.
Qed.

Lemma length_memcpy (dst src : list A) off n : length (memcpy dst src off n) = length dst.
Proof.
  unfold memcpy. rewrite length_take, length_app, length_drop. lia.
Qed.

(** The cells a copy brings: cell [k] of the destination is cell [off + k]
    of the source. *)
Lemma cell_memcpy d (dst src : list A) off n k :
  0 <= off -> 0 <= k < n -> n <= Z.of_nat (length dst) ->
  off + n <= Z.of_nat (length src) ->
  cell d (memcpy dst src off n) k = cell d src (off + k).
Proof.
  intros Hoff Hk Hdst Hsrc. unfold memcpy, cell.
  set (moved := firstn (Z.to_nat n) (skipn (Z.to_nat off) src)).
  assert (Hmoved : length moved = Z.to_nat n).
  { unfold moved. rewrite length_take, length_drop. lia. }
  rewrite !nth_lookup.
  rewrite lookup_take_lt by lia.
  rewrite lookup_app_l by lia.
  unfold moved. rewrite lookup_take_lt by lia. rewrite lookup_drop.
  replace (Z.to_nat off + Z.to_nat k)%nat with (Z.to_nat (off + k)) by lia.
  reflexivity.
Qed.
End CellFacts.

(** ** The allocator *)

Lemma request_grants (h : heap) :
  grants_all h -> exists fill h', request h = (Some fill, h') /\ grants_all h'.
Proof.
  intros Hall. destruct h as [|answer h'].
  - exists 0, []. split; [reflexivity | constructor].
  - inversion Hall as [|? ? [fill ->] Hrest]; subst.
    exists fill, h'. split; [reflexivity | assumption].
Qed.

(** ** Vectors keep their invariant, one operation excepted *)

Lemma vec_okb_spec {A : Type} (v : vec A) : vec_okb v = true <-> vec_ok v.
Proof.
  unfold vec_okb, vec_ok. rewrite !andb_true_iff, !Z.leb_le, Z.eqb_eq. tauto.
Qed.

Lemma sptNewSizeVector_ok (len0 cap0 : Z) (h h' : heap) (v : sptSizeVector) :
  0 <= len0 -> sptNewSizeVector len0 cap0 h = (Ok v, h') ->
  vec_ok v /\ len v = len0 /\ cap0 <= cap v.
Proof.
  intros Hlen. unfold sptNewSizeVector.
  destruct (malloc _ _ h) as [[cells|] h0] eqn:Hm; intros [= <- _].
  apply length_malloc in Hm. unfold vec_ok. simpl.
  destruct (cap0 <? len0) eqn:H1;
    [apply Z.ltb_lt in H1 | apply Z.ltb_ge in H1];
    match goal with |- context [?c <? 2] => destruct (c <? 2) eqn:H2 end;
    first [apply Z.ltb_lt in H2 | apply Z.ltb_ge in H2]; rewrite ?H2 in *; lia.
Qed.

Lemma sptNewVector_ok (len0 cap0 : Z) (h h' : heap) (v : sptVector) :
  0 <= len0 -> sptNewVector len0 cap0 h = (Ok v, h') ->
  vec_ok v /\ len v = len0 /\ cap0 <= cap v.
Proof.
  intros Hlen. unfold sptNewVector.
  destruct (malloc _ _ h) as [[cells|] h0] eqn:Hm; intros [= <- _].
  apply length_malloc in Hm. unfold vec_ok. simpl.
  destruct (cap0 <? len0) eqn:H1;
    [apply Z.ltb_lt in H1 | apply Z.ltb_ge in H1];
    match goal with |- context [?c <? 2] => destruct (c <? 2) eqn:H2 end;
    first [apply Z.ltb_lt in H2 | apply Z.ltb_ge in H2]; rewrite ?H2 in *; lia.
Qed.

Lemma sptCopySizeVector_ok (src : sptSizeVector) (h h' : heap) (v : sptSizeVector) :
  0 <= len src -> sptCopySizeVector src h = (Ok v, h') -> vec_ok v /\ len v = len src.
Proof.
  intros Hlen. unfold sptCopySizeVector.
  destruct (sptNewSizeVector _ _ h) as [[dest|e] h0] eqn:Hn; intros [= <- _].
  apply sptNewSizeVector_ok in Hn as ((Hl & Hc & Hd) & Hlen' & _); [|assumption].
  unfold vec_ok. simpl. rewrite length_memcpy. lia.
Qed.

Lemma sptCopyVector_ok (src : sptVector) (h h' : heap) (v : sptVector) :
  0 <= len src -> sptCopyVector src h = (Ok v, h') -> vec_ok v /\ len v = len src.
Proof.
  intros Hlen. unfold sptCopyVector.
  destruct (sptNewVector _ _ h) as [[dest|e] h0] eqn:Hn; intros [= <- _].
  apply sptNewVector_ok in Hn as ((Hl & Hc & Hd) & Hlen' & _); [|assumption].
  unfold vec_ok. simpl. rewrite length_memcpy. lia.
Qed.

(** Appending one element: the capacity grows by half when it is used up. *)
Lemma sptAppendSizeVector_ok (vec : sptSizeVector) (value : Z) (h h' : heap)
    (v : sptSizeVector) :
  vec_ok vec -> cap vec + cap vec / 2 <= SIZE_MAX ->
  sptAppendSizeVector vec value h = (Ok v, h') ->
  vec_ok v /\ len v = len vec + 1 /\ size_cell (data v) (len vec) = value.
Proof.
  intros (Hl & Hc & Hd) Hmax. unfold sptAppendSizeVector.
  assert (Hhalf : 1 <= cap vec / 2) by (apply Z.div_le_lower_bound; lia).
  assert (Hhalf' : cap vec / 2 <= cap vec) by (apply Z.div_le_upper_bound; lia).
  destruct (cap vec <=? len vec) eqn:Hfull;
    [apply Z.leb_le in Hfull | apply Z.leb_gt in Hfull].
  - destruct (realloc _ _ _ h) as [[newdata|] h0] eqn:Hr; intros [= <- _].
    apply length_realloc in Hr.
    rewrite size_add_small in Hr |- * by lia.
    rewrite size_add_small by lia.
    unfold vec_ok, size_cell. simpl. rewrite length_store.
    split; [lia|]. split; [lia|]. apply cell_store_same. lia.
  - intros [= <- _]. rewrite size_add_small by lia.
    unfold vec_ok, size_cell. simpl. rewrite length_store.
    split; [lia|]. split; [lia|]. apply cell_store_same. lia.
Qed.

Lemma sptAppendVector_ok (vec : sptVector) (value : sptScalar) (h h' : heap)
    (v : sptVector) :
  vec_ok vec -> cap vec + cap vec / 2 <= SIZE_MAX ->
  sptAppendVector vec value h = (Ok v, h') ->
  vec_ok v /\ len v = len vec + 1 /\ scalar_cell (data v) (len vec) = value.
Proof.
  intros (Hl & Hc & Hd) Hmax. unfold sptAppendVector.
  assert (Hhalf : 1 <= cap vec / 2) by (apply Z.div_le_lower_bound; lia).
  assert (Hhalf' : cap vec / 2 <= cap vec) by (apply Z.div_le_upper_bound; lia).
  destruct (cap vec <=? len vec) eqn:Hfull;
    [apply Z.leb_le in Hfull | apply Z.leb_gt in Hfull].
  - destruct (realloc _ _ _ h) as [[newdata|] h0] eqn:Hr; intros [= <- _].
    apply length_realloc in Hr.
    rewrite size_add_small in Hr |- * by lia.
    rewrite size_add_small by lia.
    unfold vec_ok, scalar_cell. simpl. rewrite length_store.
    split; [lia|]. split; [lia|]. apply cell_store_same. lia.
  - intros [= <- _]. rewrite size_add_small by lia.
    unfold vec_ok, scalar_cell. simpl. rewrite length_store.
    split; [lia|]. split; [lia|]. apply cell_store_same. lia.
Qed.

Lemma sptResizeSizeVector_ok (vec : sptSizeVector) (size : Z) (h h' : heap)
    (v : sptSizeVector) :
  vec_ok vec -> 0 <= size ->
  sptResizeSizeVector vec size h = (Ok v, h') -> vec_ok v /\ len v = size.
Proof.
  intros (Hl & Hc & Hd) Hsize. unfold sptResizeSizeVector.
  destruct (size <? 2) eqn:Hsmall;
    [apply Z.ltb_lt in Hsmall | apply Z.ltb_ge in Hsmall];
    match goal with |- context [negb (?c =? cap vec)] =>
      destruct (c =? cap vec) eqn:Hsame end;
    first [apply Z.eqb_eq in Hsame | apply Z.eqb_neq in Hsame]; simpl;
    try (intros [= <- _]; unfold vec_ok; simpl; lia);
    destruct (realloc _ _ _ h) as [[newdata|] h0] eqn:Hr; intros [= <- _];
    apply length_realloc in Hr; unfold vec_ok; simpl; lia.
Qed.

Lemma sptResizeVector_ok (vec : sptVector) (size : Z) (h h' : heap) (v : sptVector) :
  vec_ok vec -> 0 <= size ->
  sptResizeVector vec size h = (Ok v, h') -> vec_ok v /\ len v = size.
Proof.
  intros (Hl & Hc & Hd) Hsize. unfold sptResizeVector.
  destruct (size <? 2) eqn:Hsmall;
    [apply Z.ltb_lt in Hsmall | apply Z.ltb_ge in Hsmall];
    match goal with |- context [negb (?c =? cap vec)] =>
      destruct (c =? cap vec) eqn:Hsame end;
    first [apply Z.eqb_eq in Hsame | apply Z.eqb_neq in Hsame]; simpl;
    try (intros [= <- _]; unfold vec_ok; simpl; lia);
    destruct (realloc _ _ _ h) as [[newdata|] h0] eqn:Hr; intros [= <- _];
    apply length_realloc in Hr; unfold vec_ok; simpl; lia.
Qed.

Lemma length_append_sizes_loop (fuel : nat) (i : Z) (cells : list Z) (at_len : Z)
    (append_vec : sptSizeVector) :
  length (append_sizes_loop fuel i cells at_len append_vec) = length cells.
Proof.
  revert i cells. induction fuel as [|fuel IH]; intros i cells; simpl; [reflexivity|].
  destruct (i <? len append_vec); [|reflexivity].
  rewrite IH. apply length_store.
Qed.

(** Appending a range to a size vector: the new length is computed first
    and the capacity is compared with it. *)
Lemma sptAppendSizeVectorWithVector_ok (vec append_vec : sptSizeVector) (h h' : heap)
    (v : sptSizeVector) :
  vec_ok vec -> vec_ok append_vec -> cap vec + cap append_vec <= SIZE_MAX ->
  sptAppendSizeVectorWithVector vec append_vec h = (Ok v, h') ->
  vec_ok v /\ len v = len vec + len append_vec.
Proof.
  intros (Hl & Hc & Hd) (Hl' & Hc' & Hd') Hmax. unfold sptAppendSizeVectorWithVector.
  rewrite (size_add_small (len vec)) by lia.
  destruct (cap vec <=? len vec + len append_vec) eqn:Hfull;
    [apply Z.leb_le in Hfull | apply Z.leb_gt in Hfull].
  - destruct (realloc _ _ _ h) as [[newdata|] h0] eqn:Hr; intros [= <- _].
    apply length_realloc in Hr. rewrite size_add_small in Hr |- * by lia.
    unfold vec_ok. simpl. rewrite length_append_sizes_loop. lia.
  - intros [= <- _]. unfold vec_ok. simpl. rewrite length_append_sizes_loop. lia.
Qed.

(** What the loop of the value-vector range append leaves in [len]. *)
Lemma len_append_values_loop (fuel : nat) (i : Z) (vec append_vec : sptVector) :
  0 <= i -> 0 <= len vec -> len vec + (len append_vec - i) <= SIZE_MAX ->
  len append_vec <= SIZE_MAX ->
  (Z.to_nat (len append_vec - i) <= fuel)%nat ->
  len (append_values_loop fuel i vec append_vec)
  = len vec + Z.max 0 (len append_vec - i)
  /\ cap (append_values_loop fuel i vec append_vec) = cap vec.
Proof.
  revert i vec. induction fuel as [|fuel IH]; intros i vec Hi Hl Hmax Hmax' Hfuel; simpl.
  - split; [lia | reflexivity].
  - destruct (i <? len append_vec) eqn:Hlt;
      [apply Z.ltb_lt in Hlt | apply Z.ltb_ge in Hlt; split; [lia | reflexivity]].
    rewrite (size_add_small i 1) by lia.
    assert (Hone : size_add (len vec) 1 = len vec + 1) by (apply size_add_small; lia).
    edestruct (IH (i + 1)) as [Hlen Hcap]; [..|rewrite Hlen, Hcap]; simpl;
      rewrite ?Hone; lia.
Qed.

(** ** The scanning loops *)

Lemma cut_loop_bounds (fuel : nat) (d : list Z) (i high last_index index_counts step : Z) :
  0 <= i <= high -> high <= SIZE_MAX ->
  i <= cut_loop fuel d i high last_index index_counts step <= high.
Proof.
  revert i last_index index_counts.
  induction fuel as [|fuel IH]; intros i last_index index_counts Hi Hmax; simpl; [lia|].
  destruct (i <? high) eqn:Hlt; [apply Z.ltb_lt in Hlt | lia].
  assert (Hnext : size_add i 1 = i + 1) by (apply size_add_small; lia).
  rewrite Hnext.
  destruct (negb _).
  - destruct (index_counts =? step); [lia|].
    specialize (IH (i + 1) (size_cell d i) (size_add index_counts 1)). lia.
  - specialize (IH (i + 1) last_index index_counts). lia.
Qed.

(** A cut of a non-empty range lies strictly above its low end: the first
    turn of the loop compares [data[low]] with itself. *)
Lemma find_cut_bounds (d : list Z) (low high step : Z) :
  0 <= low < high -> high <= SIZE_MAX -> low < find_cut d low high step <= high.
Proof.
  intros Hlow Hmax. unfold find_cut.
  destruct (Z.to_nat (high - low)) as [|fuel] eqn:Hfuel; [lia|]. simpl.
  replace (low <? high) with true by (symmetry; apply Z.ltb_lt; lia).
  rewrite Z.eqb_refl. simpl.
  assert (Hnext : size_add low 1 = low + 1) by (apply size_add_small; lia).
  rewrite Hnext.
  pose proof (cut_loop_bounds fuel d (low + 1) high (size_cell d low) 1 step). lia.
Qed.

Lemma count_loop_bounds (fuel : nat) (d : list Z) (i high last_index index_counts : Z) :
  0 <= i <= high -> high <= SIZE_MAX -> 0 <= index_counts ->
  index_counts + (high - i) <= SIZE_MAX ->
  index_counts <= count_loop fuel d i high last_index index_counts
               <= index_counts + (high - i).
Proof.
  revert i last_index index_counts.
  induction fuel as [|fuel IH]; intros i last_index index_counts Hi Hmax Hc Hsum; simpl;
    [lia|].
  destruct (i <? high) eqn:Hlt; [apply Z.ltb_lt in Hlt | lia].
  assert (Hnext : size_add i 1 = i + 1) by (apply size_add_small; lia).
  assert (Hmore : size_add index_counts 1 = index_counts + 1)
    by (apply size_add_small; lia).
  rewrite Hnext, Hmore.
  destruct (negb _).
  - specialize (IH (i + 1) (size_cell d i) (index_counts + 1)). lia.
  - specialize (IH (i + 1) last_index index_counts). lia.
Qed.

(** The count over a non-empty range is at least 1 and at most its size. *)
Lemma count_index_values_bounds (d : list Z) (low high : Z) :
  0 <= low < high -> high <= SIZE_MAX ->
  1 <= count_index_values d low high <= high - low.
Proof.
  intros Hlow Hmax. unfold count_index_values.
  destruct (Z.to_nat (high - low)) as [|fuel] eqn:Hfuel; [lia|]. simpl.
  replace (low <? high) with true by (symmetry; apply Z.ltb_lt; lia).
  rewrite Z.eqb_refl. simpl.
  assert (Hnext : size_add low 1 = low + 1) by (apply size_add_small; lia).
  rewrite Hnext.
  pose proof (count_loop_bounds fuel d (low + 1) high (size_cell d low) 1). lia.
Qed.

(** The step computed from a count and a positive number of cuts: no
    operation wraps, and the step is between 1 and the count. *)
Lemma step_of_value (index_counts cuts : Z) :
  1 <= index_counts <= SIZE_MAX -> 0 < cuts ->
  step_of index_counts cuts = (index_counts - 1) / cuts + 1
  /\ 1 <= step_of index_counts cuts <= index_counts.
Proof.
  intros Hc Hcuts. unfold step_of.
  replace (index_counts =? 0) with false by (symmetry; apply Z.eqb_neq; lia). simpl.
  rewrite size_sub_small by lia.
  assert (0 <= (index_counts - 1) / cuts) by (apply Z.div_pos; lia).
  assert ((index_counts - 1) / cuts <= index_counts - 1).
  { apply Z.div_le_upper_bound; [lia|]. nia. }
  rewrite size_add_small by lia. lia.
Qed.

(** ** [start] *)

Lemma sptNewSizeVector_error (len0 cap0 : Z) (h h' : heap) (e : spt_error) :
  sptNewSizeVector len0 cap0 h = (Err e, h') -> e = SPTERR_OS_ERROR.
Proof.
  unfold sptNewSizeVector. destruct (malloc _ _ h) as [[cells|] h0]; congruence.
Qed.

Lemma sptNewSizeVector_grants (len0 cap0 : Z) (h : heap) :
  grants_all h ->
  exists v h', sptNewSizeVector len0 cap0 h = (Ok v, h') /\ grants_all h'.
Proof.
  intros Hall. unfold sptNewSizeVector, malloc.
  destruct (request_grants h Hall) as (fill & h' & -> & Hall'). eauto.
Qed.

(** The first two tests of [start] decide between its two error codes. *)
Lemma start_no_more (t : sptSparseTensor) (cuts : list Z) (h : heap) :
  nnz t = 0 -> spt_StartSplitSparseTensor t cuts h = (Failed SPTERR_NO_MORE, h).
Proof.
  intros Hz. unfold spt_StartSplitSparseTensor. rewrite Hz. reflexivity.
Qed.

Lemma start_value_error (t : sptSparseTensor) (cuts : list Z) (h : heap) :
  nnz t <> 0 -> sortkey t <> size_sub (nmodes t) 1 ->
  spt_StartSplitSparseTensor t cuts h = (Failed SPTERR_VALUE_ERROR, h).
Proof.
  intros Hz Hk. unfold spt_StartSplitSparseTensor.
  apply Z.eqb_neq in Hz, Hk. rewrite Hz, Hk. reflexivity.
Qed.

(** What [start] has built when it returns a status. *)
Lemma start_done (t : sptSparseTensor) (cuts : list Z) (h h' : heap)
    (status : spt_SplitStatus) :
  0 <= nmodes t < SIZE_MAX -> 0 <= nnz t <= SIZE_MAX ->
  spt_StartSplitSparseTensor t cuts h = (Done status, h') ->
  nnz t <> 0 /\ sortkey t = size_sub (nmodes t) 1
  /\ stack_inv status /\ tsr status = t /\ no_more status = 0
  /\ len (partial_low status) = 1 /\ low_at status 0 = 0 /\ high_at status 0 = nnz t
  /\ (nmodes t <= Z.of_nat (length cuts) ->
      forall m, 0 <= m < nmodes t -> cuts_at status m = size_cell cuts m).
Proof.
  intros Hn Hnnz. unfold spt_StartSplitSparseTensor.
  destruct (nnz t =? 0) eqn:Hz; [discriminate|]. apply Z.eqb_neq in Hz.
  destruct (sortkey t =? size_sub (nmodes t) 1) eqn:Hk; [|discriminate].
  apply Z.eqb_eq in Hk. simpl.
  destruct (request h) as [[fill|] h0]; [|discriminate].
  destruct (sptNewSizeVector (nmodes t) (nmodes t) h0) as [[cbm|e] h1] eqn:Hcbm;
    [|discriminate].
  rewrite (size_add_small (nmodes t) 1) by lia.
  destruct (sptNewSizeVector 1 (nmodes t + 1) h1) as [[lows|e] h2] eqn:Hlows;
    [|discriminate].
  destruct (sptNewSizeVector 1 (nmodes t + 1) h2) as [[highs|e] h3] eqn:Hhighs;
    [|discriminate].
  destruct (sptNewSizeVector 0 (nmodes t) h3) as [[steps|e] h4] eqn:Hsteps;
    [|discriminate].
  intros [= <- _].
  apply sptNewSizeVector_ok in Hcbm as ((Hc1 & Hc2 & Hc3) & Hc4 & Hc5); [|lia].
  apply sptNewSizeVector_ok in Hlows as ((Hl1 & Hl2 & Hl3) & Hl4 & Hl5); [|lia].
  apply sptNewSizeVector_ok in Hhighs as ((Hh1 & Hh2 & Hh3) & Hh4 & Hh5); [|lia].
  apply sptNewSizeVector_ok in Hsteps as ((Hs1 & Hs2 & Hs3) & Hs4 & Hs5); [|lia].
  assert (Hlow0 : size_cell (store (data lows) 0 0) 0 = 0)
    by (apply cell_store_same; lia).
  assert (Hhigh0 : size_cell (store (data highs) 0 (nnz t)) 0 = nnz t)
    by (apply cell_store_same; lia).
  split; [assumption|]. split; [assumption|].
  split.
  { constructor; unfold low_at, high_at; simpl; rewrite ?length_store; try lia.
    intros k Hk'. assert (k = 0) as -> by lia. rewrite Hlow0, Hhigh0. lia. }
  unfold low_at, high_at.
  repeat split; try assumption.
  intros Hcuts m Hm. unfold cuts_at. simpl.
  unfold size_cell. rewrite cell_memcpy by lia. reflexivity.
Qed.

Lemma start_grants (t : sptSparseTensor) (cuts : list Z) (h : heap) :
  grants_all h -> nnz t <> 0 -> sortkey t = size_sub (nmodes t) 1 ->
  exists status h',
    spt_StartSplitSparseTensor t cuts h = (Done status, h') /\ grants_all h'.
Proof.
  intros Hall Hz Hk. unfold spt_StartSplitSparseTensor.
  apply Z.eqb_neq in Hz. apply Z.eqb_eq in Hk. rewrite Hz, Hk. simpl.
  destruct (request_grants h Hall) as (fill & h0 & -> & Hall0).
  destruct (sptNewSizeVector_grants (nmodes t) (nmodes t) h0 Hall0)
    as (cbm & h1 & -> & Hall1).
  destruct (sptNewSizeVector_grants 1 (size_add (nmodes t) 1) h1 Hall1)
    as (lows & h2 & -> & Hall2).
  destruct (sptNewSizeVector_grants 1 (size_add (nmodes t) 1) h2 Hall2)
    as (highs & h3 & -> & Hall3).
  destruct (sptNewSizeVector_grants 0 (nmodes t) h3 Hall3)
    as (steps & h4 & -> & Hall4).
  eauto.
Qed.

(** The error codes of [start], and when each is returned. *)
Lemma start_failed (t : sptSparseTensor) (cuts : list Z) (h h' : heap) (e : spt_error) :
  spt_StartSplitSparseTensor t cuts h = (Failed e, h') ->
  (e = SPTERR_NO_MORE /\ nnz t = 0)
  \/ (e = SPTERR_VALUE_ERROR /\ nnz t <> 0 /\ sortkey t <> size_sub (nmodes t) 1)
  \/ (e = SPTERR_OS_ERROR /\ nnz t <> 0 /\ sortkey t = size_sub (nmodes t) 1).
Proof.
  unfold spt_StartSplitSparseTensor.
  destruct (nnz t =? 0) eqn:Hz;
    [apply Z.eqb_eq in Hz; intros [= <- _]; left; auto | apply Z.eqb_neq in Hz].
  destruct (sortkey t =? size_sub (nmodes t) 1) eqn:Hk; simpl;
    [apply Z.eqb_eq in Hk
    | apply Z.eqb_neq in Hk; intros [= <- _]; right; left; auto].
  intros Hstart. right. right. split; [|auto].
  destruct (request h) as [[fill|] h0]; [|discriminate].
  repeat match type of Hstart with
         | context [sptNewSizeVector ?a ?b ?c] =>
             let E := fresh "E" in
             destruct (sptNewSizeVector a b c) as [[?|?] ?] eqn:E;
             [|apply sptNewSizeVector_error in E; congruence]
         end.
  discriminate.
Qed.

(** ** The descent *)

(** An append into a vector that has room touches neither the capacity nor
    the allocator. *)
Lemma sptAppendSizeVector_room (vec : sptSizeVector) (value : Z) (h : heap) :
  0 <= len vec < cap vec -> len vec < SIZE_MAX ->
  sptAppendSizeVector vec value h
  = (Ok (Vec (len vec + 1) (cap vec) (store (data vec) (len vec) value)), h).
Proof.
  intros Hroom Hmax. unfold sptAppendSizeVector.
  replace (cap vec <=? len vec) with false by (symmetry; apply Z.leb_gt; lia).
  rewrite size_add_small by lia. reflexivity.
Qed.

(** One turn of the descent pushes a level: the low end of its parent and
    the first cut of the parent range. *)
Lemma descend_step_done (mode : Z) (status : spt_SplitStatus) (h : heap) :
  stack_inv status -> len (partial_low status) = mode + 1 ->
  mode < nmodes (tsr status) -> cuts_at status mode <> 0 ->
  exists status',
    descend_step mode status h = (Done tt, status', h)
    /\ stack_inv status' /\ len (partial_low status') = mode + 2
    /\ tsr status' = tsr status /\ cuts_by_mode status' = cuts_by_mode status
    /\ no_more status' = no_more status
    /\ low_at status' (mode + 1) = low_at status mode
    /\ step_at status' mode
       = step_of (count_index_values (data (inds_at (tsr status) mode))
                    (low_at status mode) (high_at status mode))
           (cuts_at status mode)
    /\ high_at status' (mode + 1)
       = find_cut (data (inds_at (tsr status) mode)) (low_at status mode)
           (high_at status mode) (step_at status' mode)
    /\ (forall k, 0 <= k <= mode ->
          low_at status' k = low_at status k /\ high_at status' k = high_at status k)
    /\ (forall k, 0 <= k < mode -> step_at status' k = step_at status k).
Proof.
  intros Hinv Hdepth Hmode Hcuts.
  destruct Hinv as [Hn Hnnz Hd Hhl Hsl Hlc Hhc Hsc Hlcells Hhcells Hscells Hlev Hnest Hwhole].
  destruct (Hlev mode ltac:(lia)) as (Hlow0 & Hlt & Hhigh).
  unfold low_at, high_at, step_at, cuts_at in *.
  unfold descend_step.
  set (low := size_cell (data (partial_low status)) mode) in *.
  set (high := size_cell (data (partial_high status)) mode) in *.
  set (d := data (inds_at (tsr status) mode)).
  set (step := step_of (count_index_values d low high)
                 (size_cell (data (cuts_by_mode status)) mode)).
  replace (low <? high) with true by (symmetry; apply Z.ltb_lt; lia).
  replace (size_cell (data (cuts_by_mode status)) mode =? 0) with false
    by (symmetry; apply Z.eqb_neq; lia).
  rewrite andb_false_r. simpl negb. cbv iota.
  rewrite sptAppendSizeVector_room by lia.
  unfold with_index_step.
  cbn [tsr cuts_by_mode partial_low partial_high index_step no_more len cap data].
  rewrite sptAppendSizeVector_room by lia.
  unfold with_partial_low.
  cbn [tsr cuts_by_mode partial_low partial_high index_step no_more len cap data].
  rewrite sptAppendSizeVector_room by lia.
  unfold with_partial_high.
  cbn [tsr cuts_by_mode partial_low partial_high index_step no_more len cap data].
  eexists. split; [reflexivity|].
  cbn [tsr cuts_by_mode partial_low partial_high index_step no_more len cap data].
  rewrite Hhl, Hsl, Hdepth. replace (mode + 1 - 1) with mode by lia.
  assert (Hstep : size_cell (store (data (index_step status)) mode step) mode = step)
    by (apply cell_store_same; lia).
  rewrite Hstep.
  pose proof (find_cut_bounds d low high step ltac:(lia) ltac:(lia)) as Hcut.
  set (i := find_cut d low high step) in *.
  assert (Hnewlow : size_cell (store (data (partial_low status)) (mode + 1) low)
                      (mode + 1) = low)
    by (apply cell_store_same; lia).
  assert (Hnewhigh : size_cell (store (data (partial_high status)) (mode + 1) i)
                       (mode + 1) = i)
    by (apply cell_store_same; lia).
  assert (Holdlow : forall k, 0 <= k <= mode ->
            size_cell (store (data (partial_low status)) (mode + 1) low) k
            = size_cell (data (partial_low status)) k)
    by (intros k Hk; apply cell_store_other; lia).
  assert (Holdhigh : forall k, 0 <= k <= mode ->
            size_cell (store (data (partial_high status)) (mode + 1) i) k
            = size_cell (data (partial_high status)) k)
    by (intros k Hk; apply cell_store_other; lia).
  split.
  { constructor; unfold low_at, high_at;
      cbn [tsr cuts_by_mode partial_low partial_high index_step no_more len cap data];
      rewrite ?length_store; try lia.
    - intros k Hk. destruct (Z.eq_dec k (mode + 1)) as [->|Hne].
      + rewrite Hnewlow, Hnewhigh. lia.
      + rewrite Holdlow, Holdhigh by lia. apply Hlev. lia.
    - intros k Hk0 Hk. destruct (Z.eq_dec k mode) as [->|Hne].
      + rewrite Hnewhigh, Holdhigh by lia. fold high. lia.
      + rewrite !Holdhigh by lia. apply Hnest; lia.
    - rewrite Holdhigh by lia. assumption. }
  split; [lia|]. repeat split; try reflexivity; try assumption.
  - apply Holdlow; lia.
  - apply Holdhigh; lia.
  - intros k Hk. apply cell_store_other; lia.
Qed.

(** With no cut asked for at [mode], the turn ends in a division by zero
    before anything is written. *)
Lemma descend_step_zero (mode : Z) (status : spt_SplitStatus) (h : heap) :
  stack_inv status -> len (partial_low status) = mode + 1 ->
  mode < nmodes (tsr status) -> cuts_at status mode = 0 ->
  descend_step mode status h = (Aborted DivisionByZero, status, h).
Proof.
  intros Hinv Hdepth Hmode Hcuts.
  pose proof (inv_depth _ Hinv) as Hd.
  destruct (inv_levels _ Hinv mode ltac:(lia)) as (Hlow0 & Hlt & Hhigh).
  pose proof (inv_nnz _ Hinv) as Hnnz.
  unfold low_at, high_at, cuts_at in *. unfold descend_step.
  set (low := size_cell (data (partial_low status)) mode) in *.
  set (high := size_cell (data (partial_high status)) mode) in *.
  replace (low <? high) with true by (symmetry; apply Z.ltb_lt; lia).
  pose proof (count_index_values_bounds (data (inds_at (tsr status) mode))
                low high ltac:(lia) ltac:(lia)) as Hc.
  replace (count_index_values _ _ _ =? 0) with false
    by (symmetry; apply Z.eqb_neq; lia).
  rewrite Hcuts. reflexivity.
Qed.

(** The descent as a whole: from depth [mode + 1] it reaches depth
    [nmodes + 1] without a word to the allocator, unless a mode has no cut
    asked for; the next chunk starts where the top level started. *)
Lemma descend_cases (fuel : nat) (mode : Z) (status : spt_SplitStatus) (h : heap) :
  stack_inv status -> len (partial_low status) = mode + 1 ->
  mode <= nmodes (tsr status) -> fuel = Z.to_nat (nmodes (tsr status) - mode) ->
  exists status',
    stack_inv status' /\ tsr status' = tsr status
    /\ cuts_by_mode status' = cuts_by_mode status /\ no_more status' = no_more status
    /\ top_low status' = top_low status
    /\ ((descend fuel mode status h = (Done tt, status', h)
         /\ len (partial_low status') = nmodes (tsr status) + 1)
        \/ (descend fuel mode status h = (Aborted DivisionByZero, status', h)
            /\ exists m, mode <= m < nmodes (tsr status) /\ cuts_at status m = 0)).
Proof.
  revert mode status.
  induction fuel as [|fuel IH]; intros mode status Hinv Hdepth Hmode Hfuel.
  - exists status. do 5 (split; [assumption || reflexivity|]).
    left. simpl. split; [reflexivity | lia].
  - simpl.
    replace (mode <? nmodes (tsr status)) with true by (symmetry; apply Z.ltb_lt; lia).
    destruct (Z.eq_dec (cuts_at status mode) 0) as [Hzero|Hcuts].
    + rewrite descend_step_zero by (assumption || lia).
      exists status. do 5 (split; [assumption || reflexivity|]). right.
      split; [reflexivity|]. exists mode.
      pose proof (inv_depth _ Hinv). split; [lia | assumption].
    + destruct (descend_step_done mode status h Hinv Hdepth ltac:(lia) Hcuts)
        as (status1 & -> & Hinv1 & Hdepth1 & Htsr & Hcbm & Hflag & Hlow & _).
      pose proof (inv_modes _ Hinv) as Hn. pose proof (inv_depth _ Hinv) as Hd.
      rewrite size_add_small by lia.
      destruct (IH (mode + 1) status1 Hinv1 ltac:(lia) ltac:(rewrite Htsr; lia)
                  ltac:(rewrite Htsr; lia))
        as (status' & Hinv' & Htsr' & Hcbm' & Hflag' & Htop & Hend).
      exists status'. rewrite Htsr in *.
      split; [assumption|]. split; [congruence|]. split; [congruence|].
      split; [congruence|]. split.
      { rewrite Htop. unfold top_low. rewrite Hdepth1, Hdepth.
        replace (mode + 2 - 1) with (mode + 1) by lia.
        replace (mode + 1 - 1) with mode by lia. assumption. }
      destruct Hend as [[Hrun Hfull]|[Hrun (m & Hm & Hz)]].
      * left. split; assumption.
      * right. split; [assumption|]. exists m. split; [lia|].
        unfold cuts_at in *. rewrite <- Hcbm. assumption.
Qed.

(** ** The way back *)

Lemma backtrack_spec (fuel : nat) (m : Z) (status : spt_SplitStatus) :
  stack_inv status -> len (partial_low status) = m + 1 -> (Z.to_nat m < fuel)%nat ->
  let status' := backtrack fuel m status in
  stack_inv status' /\ tsr status' = tsr status
  /\ cuts_by_mode status' = cuts_by_mode status
  /\ ((no_more status' = 1 /\ high_at status m = nnz (tsr status)
       /\ len (partial_low status') = 1)
      \/ (no_more status' = no_more status /\ top_low status' = high_at status m)).
Proof.
  revert m status.
  induction fuel as [|fuel IH]; intros m status Hinv Hdepth Hfuel; [lia|].
  pose proof Hinv as
    [Hn Hnnz Hd Hhl Hsl Hlc Hhc Hsc Hlcells Hhcells Hscells Hlev Hnest Hwhole].
  simpl.
  destruct (0 <? m) eqn:Hpos; [apply Z.ltb_lt in Hpos | apply Z.ltb_ge in Hpos].
  - rewrite (size_sub_small m 1) by lia.
    rewrite (size_add_small (m - 1) 1) by lia.
    replace (m - 1 + 1) with m by lia.
    fold (high_at status m) (high_at status (m - 1)).
    pose proof (Hnest (m - 1) ltac:(lia) ltac:(lia)) as Hle.
    replace (m - 1 + 1) with m in Hle by lia.
    destruct (high_at status (m - 1) <=? high_at status m) eqn:Hused;
      [apply Z.leb_le in Hused | apply Z.leb_gt in Hused].
    + (* the level is used up: drop it and go on with the parent *)
      set (status1 := SplitStatus _ _ _ _ _ _).
      assert (Hinv1 : stack_inv status1).
      { constructor; unfold status1, drop_last, low_at, high_at in *;
          cbn [tsr cuts_by_mode partial_low partial_high index_step no_more len cap data];
          rewrite ?size_sub_small by lia; try lia.
        - intros k Hk. apply Hlev. lia.
        - intros k Hk0 Hk. apply Hnest; lia. }
      destruct (IH (m - 1) status1 Hinv1) as (Hinv' & Htsr & Hcbm & Hend).
      { unfold status1, drop_last.
        cbn [tsr cuts_by_mode partial_low partial_high index_step no_more len cap data].
        rewrite size_sub_small by lia. lia. }
      { lia. }
      split; [assumption|]. split; [assumption|]. split; [assumption|].
      assert (Hsame : high_at status1 (m - 1) = high_at status m).
      { change (high_at status (m - 1) = high_at status m). lia. }
      rewrite Hsame in Hend. exact Hend.
    + (* the parent range goes on: write the next sibling *)
      destruct (Hlev m ltac:(lia)) as (_ & _ & Htop).
      destruct (Hlev (m - 1) ltac:(lia)) as (_ & _ & Hparent).
      destruct (Hlev m ltac:(lia)) as (Hlow0 & Hlowhigh & _).
      pose proof (find_cut_bounds (data (inds_at (tsr status) (m - 1)))
                    (high_at status m) (high_at status (m - 1))
                    (size_cell (data (index_step status)) (m - 1))
                    ltac:(lia) ltac:(lia)) as Hcut.
      set (i := find_cut _ _ _ _) in *.
      unfold with_partial_high, with_partial_low.
      cbn [tsr cuts_by_mode partial_low partial_high index_step no_more len cap data].
      assert (Hnewlow : size_cell (store (data (partial_low status)) m (high_at status m)) m
                        = high_at status m)
        by (apply cell_store_same; lia).
      assert (Hnewhigh : size_cell (store (data (partial_high status)) m i) m = i)
        by (apply cell_store_same; lia).
      assert (Holdlow : forall k, 0 <= k < m ->
                size_cell (store (data (partial_low status)) m (high_at status m)) k
                = low_at status k)
        by (intros k Hk; apply cell_store_other; lia).
      assert (Holdhigh : forall k, 0 <= k < m ->
                size_cell (store (data (partial_high status)) m i) k = high_at status k)
        by (intros k Hk; apply cell_store_other; lia).
      split.
      { constructor; unfold low_at, high_at in *;
          cbn [tsr cuts_by_mode partial_low partial_high index_step no_more len cap data];
          rewrite ?length_store; try lia.
        - intros k Hk. destruct (Z.eq_dec k m) as [->|Hne].
          + rewrite Hnewlow, Hnewhigh. lia.
          + rewrite Holdlow, Holdhigh by lia. apply Hlev. lia.
        - intros k Hk0 Hk. assert (k + 1 = m \/ k + 1 < m) as [Hkm|Hkm] by lia.
          + rewrite Hkm, Hnewhigh, Holdhigh by lia.
            replace k with (m - 1) by lia. lia.
          + rewrite !Holdhigh by lia. apply Hnest; lia.
        - rewrite Holdhigh by lia. assumption. }
      split; [reflexivity|]. split; [reflexivity|]. right.
      split; [reflexivity|]. unfold top_low, low_at.
      cbn [tsr cuts_by_mode partial_low partial_high index_step no_more len cap data].
      rewrite Hdepth. replace (m + 1 - 1) with m by lia. assumption.
  - (* no level is left *)
    assert (m = 0) as -> by lia.
    split; [destruct Hinv; constructor; assumption|].
    split; [reflexivity|]. split; [reflexivity|]. left.
    split; [reflexivity|]. split; [assumption|]. exact Hdepth.
Qed.

(** ** The copy *)

Lemma malloc_grants {A : Type} (mk : Z -> A) (n : Z) (h : heap) :
  grants_all h -> exists cells h', malloc mk n h = (Some cells, h') /\ grants_all h'.
Proof.
  intros Hall. unfold malloc.
  destruct (request_grants h Hall) as (fill & h' & -> & Hall'). eauto.
Qed.

Lemma realloc_grants {A : Type} (mk : Z -> A) (old : list A) (n : Z) (h : heap) :
  grants_all h -> exists cells h', realloc mk old n h = (Some cells, h') /\ grants_all h'.
Proof.
  intros Hall. unfold realloc.
  destruct (request_grants h Hall) as (fill & h' & -> & Hall'). eauto.
Qed.

Lemma sptNewVector_error (len0 cap0 : Z) (h h' : heap) (e : spt_error) :
  sptNewVector len0 cap0 h = (Err e, h') -> e = SPTERR_OS_ERROR.
Proof.
  unfold sptNewVector. destruct (malloc _ _ h) as [[cells|] h0]; congruence.
Qed.

Lemma sptNewVector_grants (len0 cap0 : Z) (h : heap) :
  grants_all h -> exists v h', sptNewVector len0 cap0 h = (Ok v, h') /\ grants_all h'.
Proof.
  intros Hall. unfold sptNewVector.
  destruct (malloc_grants scalar_bits
              (if (if cap0 <? len0 then len0 else cap0) <? 2 then 2
               else if cap0 <? len0 then len0 else cap0) h Hall)
    as (cells & h' & -> & Hall').
  eauto.
Qed.

Lemma sptResizeSizeVector_error (vec : sptSizeVector) (size : Z) (h h' : heap)
    (e : spt_error) :
  sptResizeSizeVector vec size h = (Err e, h') -> e = SPTERR_OS_ERROR.
Proof.
  unfold sptResizeSizeVector. destruct (negb _); [|discriminate].
  destruct (realloc _ _ _ h) as [[cells|] h0]; congruence.
Qed.

Lemma sptResizeSizeVector_grants (vec : sptSizeVector) (size : Z) (h : heap) :
  grants_all h ->
  exists v h', sptResizeSizeVector vec size h = (Ok v, h') /\ grants_all h'.
Proof.
  intros Hall. unfold sptResizeSizeVector. destruct (negb _); [|eauto].
  destruct (realloc_grants id (data vec) (if size <? 2 then 2 else size) h Hall)
    as (cells & h' & -> & Hall').
  eauto.
Qed.

Lemma sptResizeVector_error (vec : sptVector) (size : Z) (h h' : heap) (e : spt_error) :
  sptResizeVector vec size h = (Err e, h') -> e = SPTERR_OS_ERROR.
Proof.
  unfold sptResizeVector. destruct (negb _); [|discriminate].
  destruct (realloc _ _ _ h) as [[cells|] h0]; congruence.
Qed.

Lemma sptResizeVector_grants (vec : sptVector) (size : Z) (h : heap) :
  grants_all h ->
  exists v h', sptResizeVector vec size h = (Ok v, h') /\ grants_all h'.
Proof.
  intros Hall. unfold sptResizeVector. destruct (negb _); [|eauto].
  destruct (realloc_grants scalar_bits (data vec) (if size <? 2 then 2 else size) h Hall)
    as (cells & h' & -> & Hall').
  eauto.
Qed.

Lemma new_index_vectors_error (n : nat) (h h' : heap) (e : spt_error) :
  new_index_vectors n h = (Err e, h') -> e = SPTERR_OS_ERROR.
Proof.
  revert h. induction n as [|n IH]; intros h; simpl; [discriminate|].
  destruct (sptNewSizeVector 0 0 h) as [[v|e1] h1] eqn:Hv.
  - destruct (new_index_vectors n h1) as [[vs|e2] h2] eqn:Hvs; [discriminate|].
    intros [= <- <-]. eapply IH, Hvs.
  - intros [= <- _]. eapply sptNewSizeVector_error, Hv.
Qed.

Lemma new_index_vectors_grants (n : nat) (h : heap) :
  grants_all h -> exists vs h', new_index_vectors n h = (Ok vs, h') /\ grants_all h'.
Proof.
  revert h. induction n as [|n IH]; intros h Hall; simpl; [eauto|].
  destruct (sptNewSizeVector_grants 0 0 h Hall) as (v & h1 & -> & Hall1).
  destruct (IH h1 Hall1) as (vs & h2 & -> & Hall2). eauto.
Qed.

Lemma sptNewSparseTensor_error (dest : sptSparseTensor) (n : Z) (dims : list Z)
    (h h' : heap) (e : spt_error) :
  sptNewSparseTensor dest n dims h = (Err e, h') -> e = SPTERR_OS_ERROR.
Proof.
  unfold sptNewSparseTensor. destruct (request h) as [[fill|] h0]; [|congruence].
  destruct (new_index_vectors _ h0) as [[vs|e1] h1] eqn:Hvs.
  - destruct (sptNewVector 0 0 h1) as [[vals|e2] h2] eqn:Hvals; [discriminate|].
    intros [= <- _]. eapply sptNewVector_error, Hvals.
  - intros [= <- _]. eapply new_index_vectors_error, Hvs.
Qed.

Lemma sptNewSparseTensor_grants (dest : sptSparseTensor) (n : Z) (dims : list Z)
    (h : heap) :
  grants_all h ->
  exists t h', sptNewSparseTensor dest n dims h = (Ok t, h') /\ grants_all h'.
Proof.
  intros Hall. unfold sptNewSparseTensor.
  destruct (request_grants h Hall) as (fill & h0 & -> & Hall0).
  destruct (new_index_vectors_grants (Z.to_nat n) h0 Hall0) as (vs & h1 & -> & Hall1).
  destruct (sptNewVector_grants 0 0 h1 Hall1) as (vals & h2 & -> & Hall2).
  eauto.
Qed.

Lemma copy_indices_error (fuel : nat) (mode : Z) (dest src : sptSparseTensor)
    (lo hi : Z) (h h' : heap) (e : spt_error) :
  copy_indices fuel mode dest src lo hi h = (Err e, h') -> e = SPTERR_OS_ERROR.
Proof.
  revert mode dest h. induction fuel as [|fuel IH]; intros mode dest h; simpl;
    [discriminate|].
  destruct (mode <? nmodes src); [|discriminate].
  destruct (sptResizeSizeVector _ _ h) as [[v|e1] h1] eqn:Hv.
  - apply IH.
  - intros [= <- _]. eapply sptResizeSizeVector_error, Hv.
Qed.

Lemma copy_indices_grants (fuel : nat) (mode : Z) (dest src : sptSparseTensor)
    (lo hi : Z) (h : heap) :
  grants_all h ->
  exists t h', copy_indices fuel mode dest src lo hi h = (Ok t, h') /\ grants_all h'.
Proof.
  revert mode dest h. induction fuel as [|fuel IH]; intros mode dest h Hall; simpl;
    [eauto|].
  destruct (mode <? nmodes src); [|eauto].
  destruct (sptResizeSizeVector_grants (inds_at dest mode) (size_sub hi lo) h Hall)
    as (v & h1 & -> & Hall1).
  apply IH, Hall1.
Qed.

Lemma materialize_error (dest src : sptSparseTensor) (lo hi : Z) (h h' : heap)
    (e : spt_error) :
  materialize dest src lo hi h = (Err e, h') -> e = SPTERR_OS_ERROR.
Proof.
  unfold materialize.
  destruct (sptNewSparseTensor _ _ _ h) as [[d1|e1] h1] eqn:Hnew;
    [|intros [= <- _]; eapply sptNewSparseTensor_error, Hnew].
  destruct (copy_indices _ _ _ _ _ _ h1) as [[d2|e2] h2] eqn:Hcopy;
    [|intros [= <- _]; eapply copy_indices_error, Hcopy].
  destruct (sptResizeVector _ _ h2) as [[v|e3] h3] eqn:Hres;
    [discriminate | intros [= <- _]; eapply sptResizeVector_error, Hres].
Qed.

Lemma materialize_grants (dest src : sptSparseTensor) (lo hi : Z) (h : heap) :
  grants_all h ->
  exists t h', materialize dest src lo hi h = (Ok t, h') /\ grants_all h'.
Proof.
  intros Hall. unfold materialize.
  destruct (sptNewSparseTensor_grants dest (nmodes src) (ndims src) h Hall)
    as (d1 & h1 & -> & Hall1).
  destruct (copy_indices_grants (Z.to_nat (nmodes src)) 0 d1 src lo hi h1 Hall1)
    as (d2 & h2 & -> & Hall2).
  destruct (sptResizeVector_grants (values d2) (size_sub hi lo) h2 Hall2)
    as (v & h3 & -> & Hall3).
  eauto.
Qed.

Lemma materialize_nnz (dest src : sptSparseTensor) (lo hi : Z) (h h' : heap)
    (t : sptSparseTensor) :
  materialize dest src lo hi h = (Ok t, h') -> nnz t = size_sub hi lo.
Proof.
  unfold materialize.
  destruct (sptNewSparseTensor _ _ _ h) as [[d1|e1] h1]; [|discriminate].
  destruct (copy_indices _ _ _ _ _ _ h1) as [[d2|e2] h2]; [|discriminate].
  destruct (sptResizeVector _ _ h2) as [[v|e3] h3]; [|discriminate].
  intros [= <- _]. reflexivity.
Qed.

(** ** [produce] *)

(** A call on a status that is not exhausted: the descent completes the
    stack (or meets a mode with no cut asked for), the copy succeeds or is
    refused memory, and only after a successful copy is the way back
    taken. *)
Lemma produce_cases (dest : sptSparseTensor) (status : spt_SplitStatus) (h : heap) :
  stack_inv status -> no_more status = 0 ->
  let n := nmodes (tsr status) in
  exists status1,
    stack_inv status1 /\ tsr status1 = tsr status
    /\ cuts_by_mode status1 = cuts_by_mode status /\ no_more status1 = 0
    /\ top_low status1 = top_low status
    /\ ((spt_SplitSparseTensor dest status h = (Aborted DivisionByZero, status1, h)
         /\ exists m, 0 <= m < n /\ cuts_at status m = 0)
        \/ (len (partial_low status1) = n + 1
            /\ ((exists h',
                    spt_SplitSparseTensor dest status h
                    = (Failed SPTERR_OS_ERROR, status1, h')
                    /\ materialize dest (tsr status) (low_at status1 n)
                         (high_at status1 n) h = (Err SPTERR_OS_ERROR, h'))
                \/ (exists t h',
                      spt_SplitSparseTensor dest status h
                      = (Done (Chunk t (low_at status1 n) (high_at status1 n)),
                         backtrack (S (Z.to_nat n)) n status1, h')
                      /\ materialize dest (tsr status) (low_at status1 n)
                           (high_at status1 n) h = (Ok t, h'))))).
Proof.
  intros Hinv Hflag n.
  pose proof (inv_depth _ Hinv) as Hd. pose proof (inv_modes _ Hinv) as Hn.
  unfold spt_SplitSparseTensor. rewrite Hflag. simpl negb. cbv iota.
  rewrite size_sub_small by lia. fold n.
  destruct (descend_cases (Z.to_nat (n - (len (partial_low status) - 1)))
              (len (partial_low status) - 1) status h Hinv ltac:(lia)
              ltac:(fold n; lia) ltac:(reflexivity))
    as (status1 & Hinv1 & Htsr & Hcbm & Hflag1 & Htop & Hend).
  exists status1. rewrite Htsr.
  do 5 (split; [assumption || congruence|]).
  destruct Hend as [[-> Hfull]|[-> (m & Hm & Hz)]].
  - right. split; [assumption|].
    unfold low_at, high_at. rewrite ?Htsr. fold n.
    destruct (materialize dest (tsr status) _ _ h) as [[t|e] h'] eqn:Hcopy.
    + right. exists t, h'. split; reflexivity.
    + left. exists h'. apply materialize_error in Hcopy as Hos. subst e.
      split; reflexivity.
  - left. split; [reflexivity|]. exists m. split; [fold n in Hm; lia | assumption].
Qed.

(** A call never leaves the invariant, whatever it returns. *)
Lemma produce_keeps_inv (dest : sptSparseTensor) (status status' : spt_SplitStatus)
    (h h' : heap) (r : outcome chunk) :
  stack_inv status ->
  spt_SplitSparseTensor dest status h = (r, status', h') ->
  stack_inv status' /\ tsr status' = tsr status
  /\ cuts_by_mode status' = cuts_by_mode status.
Proof.
  intros Hinv Hcall.
  destruct (Z.eq_dec (no_more status) 0) as [Hflag|Hflag].
  - destruct (produce_cases dest status h Hinv Hflag)
      as (status1 & Hinv1 & Htsr & Hcbm & _ & _ & Hend).
    destruct Hend as [[Hrun _]|[Hfull [(h1 & Hrun & _)|(t & h1 & Hrun & _)]]];
      rewrite Hrun in Hcall.
    1, 2: injection Hcall as <- <- <-; auto.
    pose proof (inv_modes _ Hinv) as Hn.
    pose proof (backtrack_spec (S (Z.to_nat (nmodes (tsr status))))
                  (nmodes (tsr status)) status1 Hinv1 Hfull ltac:(lia)) as Hback.
    cbv zeta in Hback.
    set (status2 := backtrack _ _ status1) in *.
    destruct Hback as (Hinv2 & Htsr2 & Hcbm2 & _).
    injection Hcall as <- <- <-.
    split; [assumption|]. split; congruence.
  - unfold spt_SplitSparseTensor in Hcall.
    replace (no_more status =? 0) with false in Hcall
      by (symmetry; apply Z.eqb_neq; assumption).
    injection Hcall as <- <- <-. auto.
Qed.

(** What a returned chunk tells: it starts where the status stood, it is
    not empty, and the status left behind is exhausted at [nnz] or stands
    where the chunk ended. *)
Lemma produce_done (dest : sptSparseTensor) (status status' : spt_SplitStatus)
    (h h' : heap) (c : chunk) :
  stack_inv status ->
  spt_SplitSparseTensor dest status h = (Done c, status', h') ->
  no_more status = 0
  /\ cut_low c = top_low status
  /\ 0 <= cut_low c /\ cut_low c < cut_high c /\ cut_high c <= nnz (tsr status)
  /\ materialize dest (tsr status) (cut_low c) (cut_high c) h = (Ok (chunk_tensor c), h')
  /\ ((no_more status' = 1 /\ cut_high c = nnz (tsr status))
      \/ (no_more status' = 0 /\ top_low status' = cut_high c)).
Proof.
  intros Hinv Hcall.
  destruct (Z.eq_dec (no_more status) 0) as [Hflag|Hflag].
  - destruct (produce_cases dest status h Hinv Hflag)
      as (status1 & Hinv1 & Htsr & Hcbm & Hflag1 & Htop & Hend).
    destruct Hend as [[Hrun _]|[Hfull [(h1 & Hrun & _)|(t & h1 & Hrun & Hcopy)]]];
      rewrite Hrun in Hcall; try discriminate.
    pose proof (inv_modes _ Hinv) as Hn.
    destruct (inv_levels _ Hinv1 (nmodes (tsr status)) ltac:(lia))
      as (Hlow0 & Hlt & Hhigh).
    rewrite Htsr in Hhigh.
    pose proof (backtrack_spec (S (Z.to_nat (nmodes (tsr status))))
                  (nmodes (tsr status)) status1 Hinv1 Hfull ltac:(lia)) as Hback.
    cbv zeta in Hback.
    set (status2 := backtrack _ _ status1) in *.
    destruct Hback as (_ & _ & _ & Hback).
    injection Hcall as <- <- <-.
    cbn [cut_low cut_high chunk_tensor].
    split; [assumption|]. split.
    { rewrite <- Htop. unfold top_low. rewrite Hfull. f_equal. lia. }
    do 4 (split; [assumption|]).
    destruct Hback as [(Hset & Hall & _)|(Hkeep & Hnext)].
    + left. split; [assumption | congruence].
    + right. split; [congruence | assumption].
  - unfold spt_SplitSparseTensor in Hcall.
    replace (no_more status =? 0) with false in Hcall
      by (symmetry; apply Z.eqb_neq; assumption).
    discriminate.
Qed.

(** With memory granted and a cut asked for in every mode, a call on a
    status that is not exhausted returns a chunk. *)
Lemma produce_grants (dest : sptSparseTensor) (status : spt_SplitStatus) (h : heap) :
  stack_inv status -> no_more status = 0 ->
  (forall m, 0 <= m < nmodes (tsr status) -> cuts_at status m <> 0) ->
  grants_all h ->
  exists c status' h',
    spt_SplitSparseTensor dest status h = (Done c, status', h') /\ grants_all h'.
Proof.
  intros Hinv Hflag Hcuts Hall.
  destruct (produce_cases dest status h Hinv Hflag)
    as (status1 & Hinv1 & Htsr & Hcbm & Hflag1 & Htop & Hend).
  destruct Hend as
    [[_ (m & Hm & Hz)]|[Hfull [(h1 & _ & Hcopy)|(t & h1 & Hrun & Hcopy)]]].
  - exfalso. apply (Hcuts m Hm Hz).
  - destruct (materialize_grants dest (tsr status)
                (low_at status1 (nmodes (tsr status)))
                (high_at status1 (nmodes (tsr status))) h Hall) as (t & h2 & Hok & _).
    congruence.
  - destruct (materialize_grants dest (tsr status)
                (low_at status1 (nmodes (tsr status)))
                (high_at status1 (nmodes (tsr status))) h Hall) as (t' & h2 & Hok & Hall2).
    rewrite Hok in Hcopy. injection Hcopy as <- <-.
    eauto.
Qed.

(** ** Exhaustion *)

Lemma produce_exhausted (dest : sptSparseTensor) (status : spt_SplitStatus) (h : heap) :
  no_more status <> 0 ->
  spt_SplitSparseTensor dest status h = (Failed SPTERR_NO_MORE, status, h).
Proof.
  intros Hflag. unfold spt_SplitSparseTensor.
  replace (no_more status =? 0) with false by (symmetry; apply Z.eqb_neq; assumption).
  reflexivity.
Qed.

Lemma sptAppendSizeVector_error (vec : sptSizeVector) (value : Z) (h h' : heap)
    (e : spt_error) :
  sptAppendSizeVector vec value h = (Err e, h') -> e = SPTERR_OS_ERROR.
Proof.
  unfold sptAppendSizeVector. destruct (cap vec <=? len vec); [|discriminate].
  destruct (realloc _ _ _ h) as [[cells|] h0]; congruence.
Qed.

Lemma descend_step_failed (mode : Z) (status status' : spt_SplitStatus) (h h' : heap)
    (e : spt_error) :
  descend_step mode status h = (Failed e, status', h') -> e = SPTERR_OS_ERROR.
Proof.
  unfold descend_step.
  destruct (negb (_ <? _)); [discriminate|].
  destruct (negb _ && _); [discriminate|].
  destruct (sptAppendSizeVector (index_step status) _ h) as [[steps|e1] h1] eqn:H1;
    [|intros [= <- _ _]; eapply sptAppendSizeVector_error, H1].
  destruct (sptAppendSizeVector (partial_low _) _ h1) as [[lows|e2] h2] eqn:H2;
    [|intros [= <- _ _]; eapply sptAppendSizeVector_error, H2].
  destruct (sptAppendSizeVector (partial_high _) _ h2) as [[highs|e3] h3] eqn:H3;
    [discriminate | intros [= <- _ _]; eapply sptAppendSizeVector_error, H3].
Qed.

Lemma descend_failed (fuel : nat) (mode : Z) (status status' : spt_SplitStatus)
    (h h' : heap) (e : spt_error) :
  descend fuel mode status h = (Failed e, status', h') -> e = SPTERR_OS_ERROR.
Proof.
  revert mode status h. induction fuel as [|fuel IH]; intros mode status h; simpl;
    [discriminate|].
  destruct (mode <? nmodes (tsr status)); [|discriminate].
  destruct (descend_step mode status h) as [[[[]|e1|why] status1] h1] eqn:Hstep.
  - apply IH.
  - intros [= <- _ _]. eapply descend_step_failed, Hstep.
  - discriminate.
Qed.

(** [SPTERR_NO_MORE] comes from the test of the flag and from nowhere
    else: the status and the allocator are as they were. *)
Lemma produce_no_more (dest : sptSparseTensor) (status status' : spt_SplitStatus)
    (h h' : heap) :
  spt_SplitSparseTensor dest status h = (Failed SPTERR_NO_MORE, status', h') ->
  no_more status <> 0 /\ status' = status /\ h' = h.
Proof.
  unfold spt_SplitSparseTensor.
  destruct (no_more status =? 0) eqn:Hflag; simpl.
  - destruct (descend _ _ status h) as [[[[]|e1|why] status1] h1] eqn:Hdesc.
    + destruct (materialize _ _ _ _ h1) as [[t|e2] h2] eqn:Hcopy; [discriminate|].
      apply materialize_error in Hcopy. congruence.
    + apply descend_failed in Hdesc. congruence.
    + discriminate.
  - apply Z.eqb_neq in Hflag. intros [= <- <-]. auto.
Qed.

Lemma produce_times_exhausted (n : nat) (dest : sptSparseTensor)
    (status : spt_SplitStatus) (h : heap) :
  no_more status <> 0 ->
  produce_times n dest status h = (repeat (Failed SPTERR_NO_MORE) n, status, h).
Proof.
  intros Hflag. induction n as [|n IH]; simpl; [reflexivity|].
  rewrite produce_exhausted by assumption. rewrite IH. reflexivity.
Qed.

(** C3. Once [produce] has returned [SPTERR_NO_MORE] on a status, every
    further call returns [SPTERR_NO_MORE] and leaves the whole status (range
    stack, step stack, flag, source) as it is, however many calls are made
    and whatever destination and allocator they are given. *)
Theorem C3_exhaustion_is_idempotent (dest0 : sptSparseTensor)
    (status0 status : spt_SplitStatus) (h0 h1 : heap) :
  spt_SplitSparseTensor dest0 status0 h0 = (Failed SPTERR_NO_MORE, status, h1) ->
  forall (n : nat) (dest : sptSparseTensor) (h : heap),
    produce_times n dest status h = (repeat (Failed SPTERR_NO_MORE) n, status, h).
Proof.
  intros Hcall n dest h.
  apply produce_no_more in Hcall as (Hflag & -> & _).
  apply produce_times_exhausted. assumption.
Qed.

(** ** Completeness *)

Lemma position_done (status : spt_SplitStatus) (c : chunk) :
  (no_more status = 1 /\ cut_high c = nnz (tsr status))
  \/ (no_more status = 0 /\ top_low status = cut_high c) ->
  position status = cut_high c.
Proof.
  unfold position. intros [[-> ->]|[-> ->]]; reflexivity.
Qed.

(** The chunks of a loop that reached exhaustion follow one another from
    the position of the status to [nnz]. *)
Lemma drive_consecutive (fuel : nat) (dest : sptSparseTensor) (status : spt_SplitStatus)
    (h : heap) (cs : list chunk) :
  stack_inv status -> drive fuel dest status h = Exhausted cs ->
  consecutive (position status) (nnz (tsr status)) (map chunk_range cs).
Proof.
  revert status h cs.
  induction fuel as [|fuel IH]; intros status h cs Hinv; simpl; [discriminate|].
  destruct (spt_SplitSparseTensor dest status h) as [[[c|e|why] status1] h1] eqn:Hcall.
  - destruct (produce_keeps_inv _ _ _ _ _ _ Hinv Hcall) as (Hinv1 & Htsr & _).
    destruct (produce_done _ _ _ _ _ _ Hinv Hcall)
      as (Hflag & Hlow & _ & Hlt & _ & _ & Hnext).
    rewrite <- Htsr in Hnext. apply position_done in Hnext.
    destruct (drive fuel dest status1 h1) as [cs1| |] eqn:Hrest; simpl; try discriminate.
    intros [= <-]. simpl.
    apply IH in Hrest; [|assumption].
    unfold position at 1. rewrite Hflag. simpl.
    split; [assumption|]. split; [assumption|].
    rewrite <- Htsr, <- Hnext.
    exact Hrest.
  - destruct e; try discriminate. intros [= <-]. simpl.
    apply produce_no_more in Hcall as (Hflag & _).
    unfold position. apply Z.eqb_neq in Hflag. rewrite Hflag. reflexivity.
  - discriminate.
Qed.

Lemma position_bounds (status : spt_SplitStatus) :
  stack_inv status -> 0 <= position status <= nnz (tsr status).
Proof.
  intros Hinv. unfold position, top_low.
  pose proof (inv_depth _ Hinv). pose proof (inv_nnz _ Hinv).
  destruct (no_more status =? 0); [|lia].
  destruct (inv_levels _ Hinv (len (partial_low status) - 1) ltac:(lia)). lia.
Qed.

(** With memory granted and a cut asked for in every mode, the loop reaches
    exhaustion within as many calls as there are nonzeros left, and one
    more for [SPTERR_NO_MORE]. *)
Lemma drive_terminates (fuel : nat) (dest : sptSparseTensor) (status : spt_SplitStatus)
    (h : heap) :
  stack_inv status ->
  (forall m, 0 <= m < nmodes (tsr status) -> cuts_at status m <> 0) ->
  grants_all h ->
  (Z.to_nat (nnz (tsr status) - position status) < fuel)%nat ->
  exists cs, drive fuel dest status h = Exhausted cs.
Proof.
  revert status h.
  induction fuel as [|fuel IH]; intros status h Hinv Hcuts Hall Hfuel; [lia|]. simpl.
  destruct (Z.eq_dec (no_more status) 0) as [Hflag|Hflag].
  - destruct (produce_grants dest status h Hinv Hflag Hcuts Hall)
      as (c & status1 & h1 & Hcall & Hall1).
    rewrite Hcall.
    destruct (produce_keeps_inv _ _ _ _ _ _ Hinv Hcall) as (Hinv1 & Htsr & Hcbm).
    destruct (produce_done _ _ _ _ _ _ Hinv Hcall)
      as (_ & Hlow & _ & Hlt & Hhigh & _ & Hnext).
    rewrite <- Htsr in Hnext. apply position_done in Hnext.
    destruct (IH status1 h1 Hinv1) as (cs & ->).
    + intros m Hm. unfold cuts_at. rewrite Hcbm. apply Hcuts. rewrite <- Htsr. assumption.
    + assumption.
    + rewrite Htsr, Hnext. unfold position in Hfuel.
      apply Z.eqb_eq in Hflag. rewrite Hflag in Hfuel. lia.
    + eexists. reflexivity.
  - rewrite produce_exhausted by assumption. eexists. reflexivity.
Qed.

Lemma split_all_consecutive (fuel : nat) (t dest : sptSparseTensor) (cuts : list Z)
    (h : heap) (cs : list chunk) :
  0 <= nmodes t < SIZE_MAX -> 0 <= nnz t <= SIZE_MAX ->
  split_all fuel dest t cuts h = Exhausted cs ->
  consecutive 0 (nnz t) (map chunk_range cs).
Proof.
  intros Hn Hnnz. unfold split_all.
  destruct (spt_StartSplitSparseTensor t cuts h) as [[status|e|why] h1] eqn:Hstart;
    try discriminate.
  apply start_done in Hstart
      as (_ & _ & Hinv & Htsr & Hflag & Hdepth & Hlow & _); try assumption.
  intros Hrun. apply drive_consecutive in Hrun; [|assumption].
  unfold position, top_low in Hrun.
  rewrite Hflag, Hdepth, Htsr in Hrun.
  change (1 - 1) with 0 in Hrun. change (0 =? 0) with true in Hrun.
  cbv iota in Hrun. rewrite Hlow in Hrun.
  exact Hrun.
Qed.

Lemma split_all_terminates (t dest : sptSparseTensor) (cuts : list Z) (h : heap) :
  0 <= nmodes t < SIZE_MAX -> 0 < nnz t <= SIZE_MAX ->
  sortkey t = size_sub (nmodes t) 1 ->
  length cuts = Z.to_nat (nmodes t) -> Forall (fun c => 0 < c <= SIZE_MAX) cuts ->
  grants_all h ->
  exists cs, split_all (S (Z.to_nat (nnz t))) dest t cuts h = Exhausted cs.
Proof.
  intros Hn Hnnz Hkey Hlen Hcuts Hall. unfold split_all.
  destruct (start_grants t cuts h Hall ltac:(lia) Hkey) as (status & h1 & Hstart & Hall1).
  rewrite Hstart.
  apply start_done in Hstart
      as (_ & _ & Hinv & Htsr & Hflag & Hdepth & Hlow & _ & Hcbm); try lia.
  apply drive_terminates; try assumption.
  - intros m Hm. rewrite Htsr in Hm. rewrite Hcbm by lia.
    rewrite Forall_forall in Hcuts.
    assert (Hin : In (size_cell cuts m) cuts) by (apply nth_In; lia).
    apply list_elem_of_In, Hcuts in Hin. lia.
  - pose proof (position_bounds status Hinv). rewrite Htsr in *. lia.
Qed.

(** C1. For a tensor with [nnz > 0] whose sort-key marker is [nmodes-1] and
    one positive cut count per mode: whenever [start] followed by [produce]
    until [SPTERR_NO_MORE] comes to its end, the ranges of the chunks follow
    one another, the first from 0, each next from the end of the one before,
    the last up to [nnz], none empty; and it does come to its end, within
    [nnz + 1] calls, when the allocator grants what is asked. *)
Theorem C1_chunks_cover_source_in_order (t dest : sptSparseTensor) (cuts : list Z)
    (h : heap) :
  tensor_wf t -> 0 < nnz t -> sortkey t = size_sub (nmodes t) 1 ->
  length cuts = Z.to_nat (nmodes t) -> Forall (fun c => 0 < c <= SIZE_MAX) cuts ->
  (forall fuel cs,
      split_all fuel dest t cuts h = Exhausted cs ->
      consecutive 0 (nnz t) (map chunk_range cs))
  /\ (grants_all h ->
      exists cs, split_all (S (Z.to_nat (nnz t))) dest t cuts h = Exhausted cs).
Proof.
  intros (Hn & Hnnz & _) Hpos Hkey Hlen Hcuts. split.
  - intros fuel cs. apply split_all_consecutive; assumption.
  - apply split_all_terminates; (assumption || lia).
Qed.

(** ** Ranges on the stack are never empty *)

Lemma reachable_inv (t : sptSparseTensor) (cuts : list Z) (status : spt_SplitStatus) :
  0 <= nmodes t < SIZE_MAX -> 0 <= nnz t <= SIZE_MAX ->
  reachable t cuts status -> stack_inv status /\ tsr status = t.
Proof.
  intros Hn Hnnz Hreach. induction Hreach as [h status h' Hstart|
    status dest h r status' h' _ [Hinv Htsr] Hcall].
  - apply start_done in Hstart as (_ & _ & Hinv & Htsr & _); auto.
  - destruct (produce_keeps_inv _ _ _ _ _ _ Hinv Hcall) as (Hinv' & Htsr' & _).
    split; [assumption | congruence].
Qed.

Lemma produce_abort (dest : sptSparseTensor) (status status' : spt_SplitStatus)
    (h h' : heap) (why : abort) :
  stack_inv status ->
  spt_SplitSparseTensor dest status h = (Aborted why, status', h') ->
  why = DivisionByZero.
Proof.
  intros Hinv Hcall.
  destruct (Z.eq_dec (no_more status) 0) as [Hflag|Hflag].
  - destruct (produce_cases dest status h Hinv Hflag) as (status1 & _ & _ & _ & _ & _ & Hend).
    destruct Hend as [[Hrun _]|[_ [(h1 & Hrun & _)|(t & h1 & Hrun & _)]]];
      rewrite Hrun in Hcall; congruence.
  - rewrite produce_exhausted in Hcall by assumption. discriminate.
Qed.

(** C10. In every status reachable from a successful [start] by calls of
    [produce], each level of the range stack has [low < high]; so the
    assertion at the top of the descent never fails, and every chunk
    returned holds at least one nonzero. *)
Theorem C10_ranges_on_stack_nonempty (t : sptSparseTensor) (cuts : list Z)
    (status : spt_SplitStatus) :
  tensor_wf t -> reachable t cuts status ->
  (forall k, 0 <= k < len (partial_low status) -> low_at status k < high_at status k)
  /\ (forall dest h, fst (fst (spt_SplitSparseTensor dest status h))
                     <> Aborted AssertionFailed)
  /\ (forall dest h c status' h',
        spt_SplitSparseTensor dest status h = (Done c, status', h') ->
        1 <= nnz (chunk_tensor c)
        /\ nnz (chunk_tensor c) = cut_high c - cut_low c).
Proof.
  intros (Hn & Hnnz & _) Hreach.
  destruct (reachable_inv t cuts status Hn Hnnz Hreach) as [Hinv Htsr].
  split; [|split].
  - intros k Hk. apply (inv_levels _ Hinv k Hk).
  - intros dest h.
    destruct (spt_SplitSparseTensor dest status h) as [[r status'] h'] eqn:Hcall. simpl.
    intros ->. apply produce_abort in Hcall; [discriminate | assumption].
  - intros dest h c status' h' Hcall.
    destruct (produce_done _ _ _ _ _ _ Hinv Hcall)
      as (_ & _ & Hlow0 & Hlt & Hhigh & Hcopy & _).
    apply materialize_nnz in Hcopy. rewrite Hcopy.
    pose proof (inv_nnz _ Hinv).
    rewrite size_sub_small by lia. lia.
Qed.

(** ** The outcomes of [start] *)

(** The stack of a status fresh from [start]: one level, [0, nnz). *)
Lemma start_stack (t : sptSparseTensor) (cuts : list Z) (h h' : heap)
    (status : spt_SplitStatus) :
  spt_StartSplitSparseTensor t cuts h = (Done status, h') ->
  range_stack status = [(0, nnz t)] /\ len (partial_high status) = 1
  /\ len (index_step status) = 0 /\ tsr status = t /\ no_more status = 0.
Proof.
  unfold spt_StartSplitSparseTensor.
  destruct (nnz t =? 0); [discriminate|].
  destruct (negb _); [discriminate|].
  destruct (request h) as [[fill|] h0]; [|discriminate].
  destruct (sptNewSizeVector (nmodes t) (nmodes t) h0) as [[cbm|e] h1]; [|discriminate].
  destruct (sptNewSizeVector 1 _ h1) as [[lows|e] h2] eqn:Hlows; [|discriminate].
  destruct (sptNewSizeVector 1 _ h2) as [[highs|e] h3] eqn:Hhighs; [|discriminate].
  destruct (sptNewSizeVector 0 (nmodes t) h3) as [[steps|e] h4] eqn:Hsteps; [|discriminate].
  intros [= <- _].
  apply sptNewSizeVector_ok in Hlows as ((Hl1 & Hl2 & Hl3) & Hl4 & _); [|lia].
  apply sptNewSizeVector_ok in Hhighs as ((Hh1 & Hh2 & Hh3) & Hh4 & _); [|lia].
  apply sptNewSizeVector_ok in Hsteps as (_ & Hs4 & _); [|lia].
  unfold range_stack, low_at, high_at.
  cbn [tsr cuts_by_mode partial_low partial_high index_step no_more len cap data].
  rewrite Hl4. change (Z.to_nat 1) with 1%nat.
  cbn [seq map Z.of_nat].
  unfold size_cell. rewrite !cell_store_same by lia. auto.
Qed.

(** C2, amended. [start] fails with [SPTERR_NO_MORE] exactly when the
    tensor has no nonzeros; otherwise it fails with [SPTERR_VALUE_ERROR]
    exactly when the sort-key marker differs from [nmodes-1]; otherwise it
    succeeds whenever the allocator grants its requests, a status it
    returns holds the single level [0, nnz) on its range stack, and the only
    error code it can still return is the allocation error. *)
Theorem C2_start_outcomes (t : sptSparseTensor) (cuts : list Z) (h : heap) :
  (fst (spt_StartSplitSparseTensor t cuts h) = Failed SPTERR_NO_MORE <-> nnz t = 0)
  /\ (nnz t <> 0 ->
      (fst (spt_StartSplitSparseTensor t cuts h) = Failed SPTERR_VALUE_ERROR
       <-> sortkey t <> size_sub (nmodes t) 1))
  /\ (nnz t <> 0 -> sortkey t = size_sub (nmodes t) 1 ->
      (grants_all h ->
       exists status h', spt_StartSplitSparseTensor t cuts h = (Done status, h'))
      /\ (forall status h',
            spt_StartSplitSparseTensor t cuts h = (Done status, h') ->
            range_stack status = [(0, nnz t)] /\ len (partial_high status) = 1
            /\ len (index_step status) = 0 /\ tsr status = t /\ no_more status = 0)
      /\ (forall e h',
            spt_StartSplitSparseTensor t cuts h = (Failed e, h') ->
            e = SPTERR_OS_ERROR)).
Proof.
  split; [|split].
  - split.
    + destruct (spt_StartSplitSparseTensor t cuts h) as [r h'] eqn:Hstart. simpl.
      intros ->. apply start_failed in Hstart as [[_ Hz]|[[? _]|[? _]]];
        [assumption | discriminate | discriminate].
    + intros Hz. rewrite start_no_more by assumption. reflexivity.
  - intros Hz. split.
    + destruct (spt_StartSplitSparseTensor t cuts h) as [r h'] eqn:Hstart. simpl.
      intros ->. apply start_failed in Hstart as [[? _]|[[_ [_ Hk]]|[? _]]];
        [discriminate | assumption | discriminate].
    + intros Hk. rewrite start_value_error by assumption. reflexivity.
  - intros Hz Hk. split; [|split].
    + intros Hall. destruct (start_grants t cuts h Hall Hz Hk) as (status & h' & Hs & _).
      eauto.
    + intros status h' Hstart. eapply start_stack, Hstart.
    + intros e h' Hstart.
      apply start_failed in Hstart as [[_ Hz']|[[_ [_ Hk']]|[He _]]];
        [contradiction | contradiction | assumption].
Qed.

(** ** The scenarios *)


(** C6. On the tensor of scenario A with cuts [3; 1], [start] and then
    [produce] to exhaustion yield exactly three chunks, of two nonzeros
    each, copied from [0,2), [2,4) and [4,6): the boundaries of the values
    of mode 0.  This holds for every allocator under which the loop comes to
    its end, and it does come to its end when memory is granted. *)
Theorem C6_scenario_A_three_chunks (dims : list Z) (vals : sptVector)
    (dest : sptSparseTensor) (h : heap) :
  (forall fuel cs,
      split_all fuel dest (scenario_A dims vals) [3; 1] h = Exhausted cs ->
      map chunk_range cs = [(0, 2); (2, 4); (4, 6)]
      /\ map (fun c => nnz (chunk_tensor c)) cs = [2; 2; 2])
  /\ (grants_all h ->
      exists cs, split_all 7 dest (scenario_A dims vals) [3; 1] h = Exhausted cs).
Proof.
  split.
  - intros fuel cs.
    destruct fuel as [|[|[|[|fuel]]]]; heap_cases h 20%nat;
      vm_compute; try discriminate; intros [= <-]; split; reflexivity.
  - intros Hall.
    apply (split_all_terminates (scenario_A dims vals) dest [3; 1] h);
      try assumption; try (simpl; rewrite SIZE_MAX_value; lia); try reflexivity.
    repeat constructor; rewrite SIZE_MAX_value; lia.
Qed.

(** ** What a chunk holds *)

Lemma new_index_vectors_ok (n : nat) (h h' : heap) (vs : list sptSizeVector) :
  new_index_vectors n h = (Ok vs, h') -> length vs = n /\ Forall vec_ok vs.
Proof.
  revert h vs. induction n as [|n IH]; intros h vs; simpl.
  - intros [= <- _]. split; [reflexivity | constructor].
  - destruct (sptNewSizeVector 0 0 h) as [[v|e] h1] eqn:Hv; [|discriminate].
    destruct (new_index_vectors n h1) as [[vs1|e] h2] eqn:Hvs; [|discriminate].
    intros [= <- <-]. apply IH in Hvs as [Hlen Hall].
    apply sptNewSizeVector_ok in Hv as [Hok _]; [|lia].
    split; [simpl; congruence | constructor; assumption].
Qed.

Lemma sptNewSparseTensor_ok (dest : sptSparseTensor) (n : Z) (dims : list Z)
    (h h' : heap) (t : sptSparseTensor) :
  sptNewSparseTensor dest n dims h = (Ok t, h') ->
  nmodes t = n /\ ndims t = firstn (Z.to_nat n) dims /\ nnz t = 0
  /\ sortkey t = sortkey dest
  /\ length (inds t) = Z.to_nat n /\ Forall vec_ok (inds t) /\ vec_ok (values t).
Proof.
  unfold sptNewSparseTensor. destruct (request h) as [[fill|] h0]; [|discriminate].
  destruct (new_index_vectors _ h0) as [[vs|e] h1] eqn:Hvs; [|discriminate].
  destruct (sptNewVector 0 0 h1) as [[vals|e] h2] eqn:Hvals; [|discriminate].
  intros [= <- _]. simpl.
  apply new_index_vectors_ok in Hvs as [Hlen Hall].
  apply sptNewVector_ok in Hvals as [Hok _]; [|lia]. auto 10.
Qed.

Lemma inds_at_insert_same (t : sptSparseTensor) (vs : list sptSizeVector) (mode : Z)
    (v : sptSizeVector) :
  0 <= mode < Z.of_nat (length vs) ->
  nth (Z.to_nat mode) (<[Z.to_nat mode := v]> vs) (Vec 0 0 []) = v.
Proof.
  intros Hm. rewrite nth_lookup, list_lookup_insert_eq by lia. reflexivity.
Qed.

Lemma inds_at_insert_other (vs : list sptSizeVector) (mode m : Z) (v : sptSizeVector) :
  0 <= mode -> 0 <= m -> m <> mode ->
  nth (Z.to_nat m) (<[Z.to_nat mode := v]> vs) (Vec 0 0 []) = nth (Z.to_nat m) vs (Vec 0 0 []).
Proof.
  intros Hmode Hm Hne. rewrite !nth_lookup, list_lookup_insert_ne by lia. reflexivity.
Qed.

Lemma copy_indices_spec (fuel : nat) (mode : Z) (dest src : sptSparseTensor)
    (lo hi : Z) (h h' : heap) (d : sptSparseTensor) :
  0 <= nmodes src <= SIZE_MAX -> 0 <= lo -> lo <= hi -> hi <= SIZE_MAX ->
  (forall m, 0 <= m < nmodes src -> hi <= Z.of_nat (length (data (inds_at src m)))) ->
  0 <= mode <= nmodes src -> fuel = Z.to_nat (nmodes src - mode) ->
  length (inds dest) = Z.to_nat (nmodes src) -> Forall vec_ok (inds dest) ->
  (forall m, 0 <= m < mode -> mode_copied dest src lo hi m) ->
  copy_indices fuel mode dest src lo hi h = (Ok d, h') ->
  nmodes d = nmodes dest /\ sortkey d = sortkey dest /\ ndims d = ndims dest
  /\ nnz d = nnz dest /\ values d = values dest
  /\ length (inds d) = Z.to_nat (nmodes src)
  /\ forall m, 0 <= m < nmodes src -> mode_copied d src lo hi m.
Proof.
  intros Hn Hlo Hhi Hmax Hsrc. revert mode dest h.
  induction fuel as [|fuel IH]; intros mode dest h Hmode Hfuel Hlen Hok Hdone; simpl.
  - intros [= <- _]. repeat split; try reflexivity; try assumption.
    all: apply Hdone; lia.
  - replace (mode <? nmodes src) with true by (symmetry; apply Z.ltb_lt; lia).
    rewrite size_sub_small by lia.
    destruct (sptResizeSizeVector (inds_at dest mode) (hi - lo) h) as [[v|e] h1] eqn:Hv;
      [|discriminate].
    assert (Hvok : vec_ok (inds_at dest mode)).
    { unfold inds_at. rewrite Forall_forall in Hok. apply Hok, list_elem_of_In.
      apply nth_In. lia. }
    apply sptResizeSizeVector_ok in Hv as ((Hl & Hc & Hd) & Hvlen); [|assumption|lia].
    rewrite size_add_small by lia.
    set (v' := Vec (len v) (cap v) (memcpy (data v) (data (inds_at src mode)) lo (hi - lo))).
    set (dest' := SpTns _ _ _ _ _ _).
    intros Hrun. apply IH in Hrun; try lia.
    + exact Hrun.
    + unfold dest'. simpl. rewrite length_insert. assumption.
    + unfold dest'. simpl. apply Forall_insert; [assumption|].
      unfold v', vec_ok. simpl. rewrite length_memcpy. auto.
    + intros m Hm. unfold mode_copied, index_at, inds_at, dest'. simpl.
      destruct (Z.eq_dec m mode) as [->|Hne].
      * rewrite inds_at_insert_same by (exact dest || lia).
        unfold v'. simpl. split; [assumption|].
        intros k Hk. unfold size_cell.
        pose proof (Hsrc mode ltac:(lia)) as Hroom. unfold inds_at in Hroom.
        apply cell_memcpy; lia.
      * rewrite inds_at_insert_other by lia. apply Hdone. lia.
Qed.

Lemma tensor_wf_mode_cells (t : sptSparseTensor) (m : Z) :
  tensor_wf t -> 0 <= m < nmodes t ->
  len (inds_at t m) = nnz t /\ nnz t <= Z.of_nat (length (data (inds_at t m))).
Proof.
  intros (_ & _ & _ & _ & Hlen & Hall & _) Hm.
  rewrite Forall_forall in Hall. apply Hall, list_elem_of_In.
  unfold inds_at. apply nth_In. lia.
Qed.

(** The tensor a successful copy leaves in [dest]. *)
Lemma materialize_spec (dest src : sptSparseTensor) (lo hi : Z) (h h' : heap)
    (d : sptSparseTensor) :
  tensor_wf src -> 0 <= lo -> lo <= hi -> hi <= nnz src ->
  materialize dest src lo hi h = (Ok d, h') ->
  nmodes d = nmodes src /\ ndims d = ndims src /\ nnz d = hi - lo
  /\ length (inds d) = length (inds src)
  /\ (forall m, 0 <= m < nmodes src -> mode_copied d src lo hi m)
  /\ len (values d) = hi - lo
  /\ (forall k, 0 <= k < hi - lo ->
        scalar_cell (data (values d)) k = scalar_cell (data (values src)) (lo + k)).
Proof.
  intros Hwf Hlo Hhi Hnnz. pose proof Hwf as (Hn & Hz & _ & Hdims & Hinds & _ & Hvlen & Hvcells).
  unfold materialize.
  destruct (sptNewSparseTensor _ _ _ h) as [[d1|e] h1] eqn:Hnew; [|discriminate].
  apply sptNewSparseTensor_ok in Hnew as (Hn1 & Hdims1 & _ & _ & Hlen1 & Hok1 & Hvals1).
  destruct (copy_indices _ _ _ _ _ _ h1) as [[d2|e] h2] eqn:Hcopy; [|discriminate].
  apply copy_indices_spec in Hcopy
      as (Hn2 & _ & Hdims2 & _ & Hvals2 & Hlen2 & Hmodes); try assumption; try lia.
  2: { intros m Hm. pose proof (tensor_wf_mode_cells src m Hwf Hm). lia. }
  rewrite size_sub_small by lia.
  destruct (sptResizeVector (values d2) (hi - lo) h2) as [[v|e] h3] eqn:Hv; [|discriminate].
  rewrite Hvals2 in Hv.
  apply sptResizeVector_ok in Hv as ((Hl & Hc & Hd) & Hvl); [|assumption|lia].
  intros [= <- _]. simpl.
  split; [congruence|]. split.
  { rewrite Hdims2, Hdims1. apply firstn_all2. lia. }
  split; [reflexivity|]. split; [congruence|]. split.
  { intros m Hm. destruct (Hmodes m Hm) as [Hmlen Hmcells]. split; assumption. }
  split; [assumption|].
  intros k Hk. unfold scalar_cell. apply cell_memcpy; lia.
Qed.

(** The index tuples of a copy are those of the source, shifted. *)
Lemma entry_copied (d src : sptSparseTensor) (lo hi k : Z) :
  0 <= nmodes src -> length (inds src) = Z.to_nat (nmodes src) ->
  length (inds d) = length (inds src) ->
  (forall m, 0 <= m < nmodes src -> mode_copied d src lo hi m) ->
  0 <= k < hi - lo -> entry d k = entry src (lo + k).
Proof.
  intros Hn Hlen Hlend Hmodes Hk. unfold entry.
  apply (nth_ext _ _ 0 0); rewrite !length_map; [assumption|].
  intros i Hi.
  assert (Hnth : forall (f : sptSizeVector -> Z) (l : list sptSizeVector),
            (i < length l)%nat -> nth i (map f l) 0 = f (nth i l (Vec 0 0 []))).
  { intros f l Hil. rewrite (nth_indep _ 0 (f (Vec 0 0 []))) by (rewrite length_map; lia).
    apply map_nth. }
  rewrite (Hnth _ (inds d)) by exact Hi.
  rewrite (Hnth _ (inds src)) by (rewrite <- Hlend; exact Hi).
  assert (Hi' : (i < Z.to_nat (nmodes src))%nat) by (rewrite <- Hlen, <- Hlend; exact Hi).
  destruct (Hmodes (Z.of_nat i) ltac:(lia)) as [_ Hcells].
  specialize (Hcells k Hk). unfold index_at, inds_at in Hcells.
  rewrite Nat2Z.id in Hcells. exact Hcells.
Qed.

Lemma lex_sorted_copied (d src : sptSparseTensor) (lo hi : Z) :
  0 <= nmodes src -> length (inds src) = Z.to_nat (nmodes src) ->
  length (inds d) = length (inds src) ->
  (forall m, 0 <= m < nmodes src -> mode_copied d src lo hi m) ->
  0 <= lo -> hi <= nnz src -> nnz d = hi - lo ->
  lex_sorted src -> lex_sorted d.
Proof.
  intros Hn Hlen Hlend Hmodes Hlo Hhi Hnnz Hsorted i j Hi Hij Hj.
  rewrite (entry_copied d src lo hi i), (entry_copied d src lo hi j);
    try assumption; try lia.
  apply Hsorted; lia.
Qed.

(** C7. A chunk returned by [produce] has the mode count and the dimension
    sizes of the source, [nnz = high - low] for its range, index arrays and
    value array equal entry for entry to the source at [low .. high-1] in
    the same order, and entries in lexicographic order when those of the
    source are. *)
Theorem C7_chunk_copies_its_range (t : sptSparseTensor) (cuts : list Z)
    (status status' : spt_SplitStatus) (dest : sptSparseTensor) (h h' : heap)
    (c : chunk) :
  tensor_wf t -> lex_sorted t -> reachable t cuts status ->
  spt_SplitSparseTensor dest status h = (Done c, status', h') ->
  let d := chunk_tensor c in
  let low := cut_low c in
  let high := cut_high c in
  0 <= low /\ low < high /\ high <= nnz t
  /\ nmodes d = nmodes t /\ ndims d = ndims t /\ nnz d = high - low
  /\ length (inds d) = length (inds t)
  /\ (forall m, 0 <= m < nmodes t ->
        len (inds_at d m) = high - low
        /\ forall k, 0 <= k < high - low -> index_at d m k = index_at t m (low + k))
  /\ len (values d) = high - low
  /\ (forall k, 0 <= k < high - low ->
        scalar_cell (data (values d)) k = scalar_cell (data (values t)) (low + k))
  /\ lex_sorted d.
Proof.
  intros Hwf Hsorted Hreach Hcall d low high.
  pose proof Hwf as (Hn & Hz & _ & _ & Hinds & _).
  destruct (reachable_inv t cuts status Hn Hz Hreach) as [Hinv Htsr].
  destruct (produce_done _ _ _ _ _ _ Hinv Hcall)
    as (_ & _ & Hlow0 & Hlt & Hhigh & Hcopy & _).
  rewrite Htsr in Hcopy, Hhigh. fold d low high in Hcopy, Hlow0, Hlt, Hhigh.
  apply materialize_spec in Hcopy
      as (Hnd & Hdims & Hnnz & Hlen & Hmodes & Hvlen & Hvcells); try assumption; try lia.
  do 6 (split; [assumption|]). split; [assumption|]. split; [exact Hmodes|].
  split; [assumption|]. split; [assumption|].
  apply (lex_sorted_copied d t low high); try assumption; lia.
Qed.

(** ** Where counting changes does count values *)

Lemma value_changes_bounds (last : Z) (l : list Z) :
  0 <= value_changes last l <= Z.of_nat (length l).
Proof.
  revert last. induction l as [|x l IH]; intros last; simpl; [lia|].
  specialize (IH x). destruct (x =? last); lia.
Qed.

Lemma slice_cons (d : list Z) (low high : Z) :
  0 <= low < high -> high <= Z.of_nat (length d) ->
  slice d low high = size_cell d low :: slice d (low + 1) high.
Proof.
  intros Hlow Hhigh. unfold slice, size_cell, cell.
  destruct (lookup_lt_is_Some_2 d (Z.to_nat low) ltac:(lia)) as [x Hx].
  rewrite (drop_S d x (Z.to_nat low) Hx).
  rewrite nth_lookup, Hx. simpl.
  replace (Z.to_nat (high - low)) with (S (Z.to_nat (high - (low + 1)))) by lia.
  replace (Z.to_nat (low + 1)) with (S (Z.to_nat low)) by lia.
  reflexivity.
Qed.

(** The counting loop adds to [index_counts] the changes of value over the
    cells it scans. *)
Lemma count_loop_changes (fuel : nat) (d : list Z) (i high last_index index_counts : Z) :
  0 <= i <= high -> high <= SIZE_MAX -> high <= Z.of_nat (length d) ->
  0 <= index_counts -> index_counts + (high - i) <= SIZE_MAX ->
  fuel = Z.to_nat (high - i) ->
  count_loop fuel d i high last_index index_counts
  = index_counts + value_changes last_index (slice d i high).
Proof.
  revert i last_index index_counts.
  induction fuel as [|fuel IH]; intros i last_index index_counts Hi Hmax Hlen Hc Hsum Hfuel.
  - simpl. unfold slice. replace (Z.to_nat (high - i)) with 0%nat by lia. simpl. lia.
  - simpl. replace (i <? high) with true by (symmetry; apply Z.ltb_lt; lia).
    rewrite slice_cons by lia. simpl.
    rewrite (size_add_small i 1) by lia.
    destruct (size_cell d i =? last_index) eqn:Hsame; simpl.
    + apply Z.eqb_eq in Hsame. rewrite IH by lia. rewrite Hsame. lia.
    + rewrite (size_add_small index_counts 1) by lia. rewrite IH by lia. lia.
Qed.

Lemma ascending_from_lower (x : Z) (l : list Z) :
  ascending_from x l -> forall y, In y l -> x <= y.
Proof.
  revert x. induction l as [|z l IH]; intros x Hasc y Hin; [destruct Hin|].
  destruct Hasc as [Hxz Hrest]. destruct Hin as [<-|Hin]; [assumption|].
  specialize (IH z Hrest y Hin). lia.
Qed.

(** On a list that never goes down, the distinct values are one more than
    the changes of value. *)
Lemma distinct_count_ascending (x : Z) (l : list Z) :
  ascending_from x l -> distinct_count (x :: l) = 1 + value_changes x l.
Proof.
  assert (Hnodup : forall a k,
            nodup Z.eq_dec (a :: k)
            = if in_dec Z.eq_dec a k then nodup Z.eq_dec k else a :: nodup Z.eq_dec k)
    by reflexivity.
  unfold distinct_count. revert x.
  induction l as [|y l IH]; intros x Hasc; [reflexivity|].
  destruct Hasc as [Hxy Hrest]. specialize (IH y Hrest).
  change (value_changes x (y :: l)) with ((if y =? x then 0 else 1) + value_changes y l).
  rewrite (Hnodup x (y :: l)).
  destruct (in_dec Z.eq_dec x (y :: l)) as [Hin|Hout].
  - assert (y = x) as Hsame.
    { destruct Hin as [Heq|Hin]; [assumption|].
      pose proof (ascending_from_lower y l Hrest x Hin). lia. }
    rewrite IH. subst y. rewrite Z.eqb_refl. lia.
  - assert (y <> x) as Hne by (intros ->; apply Hout; left; reflexivity).
    apply Z.eqb_neq in Hne. rewrite Hne.
    change (length (x :: nodup Z.eq_dec (y :: l)))
      with (S (length (nodup Z.eq_dec (y :: l)))).
    rewrite Nat2Z.inj_succ, IH. lia.
Qed.

(** On a range where the indices of the mode never go down, which is so for
    mode 0 of a sorted tensor, the count of the code is the number of
    distinct values. *)
Lemma count_index_values_ascending (d : list Z) (low high : Z) :
  0 <= low < high -> high <= SIZE_MAX -> high <= Z.of_nat (length d) ->
  ascending (slice d low high) ->
  count_index_values d low high = distinct_count (slice d low high).
Proof.
  intros Hlow Hmax Hlen Hasc. unfold count_index_values.
  rewrite slice_cons in Hasc |- * by lia. simpl in Hasc.
  rewrite distinct_count_ascending by assumption.
  destruct (Z.to_nat (high - low)) as [|fuel] eqn:Hfuel; [lia|]. simpl.
  replace (low <? high) with true by (symmetry; apply Z.ltb_lt; lia).
  rewrite Z.eqb_refl. simpl. rewrite size_add_small by lia.
  apply count_loop_changes; lia.
Qed.

(** The step the descent pushes on such a range is the one of the formula
    with the number of distinct values. *)
Lemma descend_step_on_ascending_range (mode : Z) (status status' : spt_SplitStatus)
    (h h' : heap) :
  stack_inv status -> len (partial_low status) = mode + 1 ->
  mode < nmodes (tsr status) -> 0 < cuts_at status mode ->
  high_at status mode <= Z.of_nat (length (data (inds_at (tsr status) mode))) ->
  ascending (mode_slice (tsr status) mode (low_at status mode) (high_at status mode)) ->
  descend_step mode status h = (Done tt, status', h') ->
  step_at status' mode
  = (distinct_count (mode_slice (tsr status) mode (low_at status mode)
                       (high_at status mode)) - 1) / cuts_at status mode + 1.
Proof.
  intros Hinv Hdepth Hmode Hcuts Hlen Hasc Hstep.
  destruct (descend_step_done mode status h Hinv Hdepth Hmode ltac:(lia))
    as (status1 & Hrun & _ & _ & _ & _ & _ & _ & Hvalue & _).
  rewrite Hrun in Hstep. injection Hstep as <- _.
  pose proof (inv_depth _ Hinv) as Hd. pose proof (inv_nnz _ Hinv) as Hnnz.
  destruct (inv_levels _ Hinv mode ltac:(lia)) as (Hlow0 & Hlt & Hhigh).
  rewrite Hvalue. unfold mode_slice in *.
  rewrite count_index_values_ascending by (assumption || lia).
  apply step_of_value; [|assumption].
  rewrite <- count_index_values_ascending by (assumption || lia).
  pose proof (count_index_values_bounds (data (inds_at (tsr status) mode))
                (low_at status mode) (high_at status mode) ltac:(lia) ltac:(lia)).
  lia.
Qed.

Lemma ascending_from_slice (d : list Z) (fuel : nat) (low high x : Z) :
  fuel = Z.to_nat (high - low) -> 0 <= low -> high <= Z.of_nat (length d) ->
  (forall i, low <= i < high -> x <= size_cell d i) ->
  (forall i j, low <= i -> i <= j -> j < high -> size_cell d i <= size_cell d j) ->
  ascending_from x (slice d low high).
Proof.
  revert low x. induction fuel as [|fuel IH]; intros low x Hfuel Hlow Hlen Hx Hmono.
  - unfold slice. rewrite <- Hfuel. exact I.
  - rewrite slice_cons by lia. split; [apply Hx; lia|].
    apply IH; try lia.
    + intros i Hi. apply Hmono; lia.
    + intros i j Hi Hij Hj. apply Hmono; lia.
Qed.

(** Mode 0 of a sorted tensor never goes down, over any range. *)
Lemma mode0_ascending (t : sptSparseTensor) (low high : Z) :
  tensor_wf t -> lex_sorted t -> 0 < nmodes t -> 0 <= low -> high <= nnz t ->
  ascending (mode_slice t 0 low high).
Proof.
  intros Hwf Hsorted Hmodes Hlow Hhigh.
  assert (Hmono : forall i j, 0 <= i -> i <= j -> j < nnz t ->
            index_at t 0 i <= index_at t 0 j).
  { intros i j Hi Hij Hj. specialize (Hsorted i j Hi Hij Hj).
    destruct Hwf as (_ & _ & _ & _ & Hlen & _).
    unfold entry, index_at, inds_at in *.
    destruct (inds t) as [|v vs]; [simpl in Hlen; lia|].
    simpl in Hsorted. change (Z.to_nat 0) with 0%nat. simpl. lia. }
  destruct (tensor_wf_mode_cells t 0 Hwf ltac:(lia)) as [_ Hcells].
  unfold mode_slice. unfold index_at in Hmono.
  destruct (Z_lt_le_dec low high) as [Hlt|Hge].
  - rewrite slice_cons by lia. simpl.
    apply (ascending_from_slice _ (Z.to_nat (high - (low + 1)))); try lia.
    + intros i Hi. apply Hmono; lia.
    + intros i j Hi Hij Hj. apply Hmono; lia.
  - unfold slice. replace (Z.to_nat (high - low)) with 0%nat by lia. exact I.
Qed.

(** ** Counting value changes is not counting values *)

Lemma tensor_B_valid :
  tensor_wf tensor_B /\ lex_sorted tensor_B
  /\ sortkey tensor_B = size_sub (nmodes tensor_B) 1.
Proof.
  split; [|split].
  - concrete_wf.
  - intros i j Hi Hij Hj. simpl in Hj.
    assert (Hcases : (i = 0 \/ i = 1 \/ i = 2 \/ i = 3)
                     /\ (j = 0 \/ j = 1 \/ j = 2 \/ j = 3)) by lia.
    destruct Hcases as [[-> | [-> | [-> | ->]]] [-> | [-> | [-> | ->]]]];
      try (exfalso; clear - Hij; lia); vm_compute; intuition congruence.
  - reflexivity.
Qed.

(** C4, at the input where it fails.  Tensor B is sorted and has four
    nonzeros; with cuts [1; 2] the descent reaches mode 1 with the range
    [0,4), where mode 1 holds the values 0,1,0,1: two distinct values, so
    the step of the spec's formula is (2-1)/2+1 = 1.  The code counts the
    three changes of value and computes the step (4-1)/2+1 = 2. *)
Theorem C4_step_counts_value_changes :
  tensor_wf tensor_B /\ lex_sorted tensor_B
  /\ sortkey tensor_B = size_sub (nmodes tensor_B) 1
  /\
  let status0 := started tensor_B [1; 2] in
  let '(r1, status1, _) := descend_step 0 status0 [] in
  let '(r2, status2, _) := descend_step 1 status1 [] in
  r1 = Done tt
  /\ low_at status1 1 = 0 /\ high_at status1 1 = 4 /\ cuts_at status1 1 = 2
  /\ mode_slice tensor_B 1 0 4 = [0; 1; 0; 1]
  /\ distinct_count (mode_slice tensor_B 1 0 4) = 2
  /\ (distinct_count (mode_slice tensor_B 1 0 4) - 1) / cuts_at status1 1 + 1 = 1
  /\ count_index_values (data (inds_at tensor_B 1)) 0 4 = 4
  /\ r2 = Done tt
  /\ step_at status2 1 = 2.
Proof.
  destruct tensor_B_valid as (Hwf & Hsorted & Hkey).
  do 3 (split; [assumption|]).
  vm_compute. repeat split; reflexivity.
Qed.

(** C5, at the input where it fails.  On tensor B with cuts [1; 100] the
    level of mode 0 keeps the range [0,4) throughout; under it the engine
    generates four sibling ranges at mode 1, one per call, although mode 1
    holds only two distinct values in [0,4). *)
Theorem C5_more_partitions_than_values :
  tensor_wf tensor_B /\ lex_sorted tensor_B
  /\ sortkey tensor_B = size_sub (nmodes tensor_B) 1
  /\ distinct_count (mode_slice tensor_B 1 0 4) = 2
  /\ cuts_at (started tensor_B [1; 100]) 1 = 100
  /\ range_stack (status_after 1 tensor_B [1; 100]) = [(0, 4); (0, 4); (1, 2)]
  /\ range_stack (status_after 2 tensor_B [1; 100]) = [(0, 4); (0, 4); (2, 3)]
  /\ range_stack (status_after 3 tensor_B [1; 100]) = [(0, 4); (0, 4); (3, 4)]
  /\ match split_all 5 blank tensor_B [1; 100] [] with
     | Exhausted cs => map chunk_range cs = [(0, 1); (1, 2); (2, 3); (3, 4)]
     | _ => False
     end.
Proof.
  destruct tensor_B_valid as (Hwf & Hsorted & Hkey).
  do 3 (split; [assumption|]).
  vm_compute. repeat split; reflexivity.
Qed.

(** ** The range append of value vectors *)

(** C9, at the input where it fails.  A value vector of length 1 and
    capacity 2 and an appended vector of length 2 both satisfy the
    invariant; [sptAppendVectorWithVector] compares the capacity with the
    old length, keeps the buffer of two cells, and leaves a vector of length
    3 and capacity 2.  Of the two elements only the first reached the
    buffer, since the second was written at index [len + i] after [len] had
    already grown. *)
Theorem C9_value_range_append_overruns (h : heap) :
  let vec := Vec 1 2 [scalar_bits 7; scalar_bits 0] in
  let append_vec := Vec 2 2 [scalar_bits 8; scalar_bits 9] in
  let out := Vec 3 2 [scalar_bits 7; scalar_bits 8] in
  vec_ok vec /\ vec_ok append_vec
  /\ sptAppendVectorWithVector vec append_vec h = (Ok out, h)
  /\ ~ len out <= cap out.
Proof.
  intros vec append_vec out.
  split; [apply vec_okb_spec; reflexivity|].
  split; [apply vec_okb_spec; reflexivity|].
  split; [reflexivity|]. intros Hle. apply Hle. reflexivity.
Qed.

(** The sibling on size vectors, at the same lengths, grows the buffer
    when the allocator grants it. *)
Example size_range_append_grows (fill : Z) (h : heap) :
  sptAppendSizeVectorWithVector (Vec 1 2 [7; 0]) (Vec 2 2 [8; 9]) (Some fill :: h)
  = (Ok (Vec 3 4 [7; 8; 9; fill]), h).
Proof. reflexivity. Qed.

(** ** [finish] *)

Lemma load_size_vector_block (m : memory) (r : vec_ref) (v : sptSizeVector) :
  load_size_vector m r = Some v -> m !! ref_data r = Some (SizeCells (data v)).
Proof.
  unfold load_size_vector.
  destruct (m !! ref_data r) as [[cells| | | |]|]; try discriminate.
  intros [= <-]. reflexivity.
Qed.

(** A tensor is read from its footprint alone. *)
Lemma load_tensor_frame (m m' : memory) (q : addr) :
  (forall a, a ∈ tensor_footprint m q -> m' !! a = m !! a) ->
  load_tensor m' q = load_tensor m q.
Proof.
  unfold tensor_footprint, load_tensor. intros Hsame.
  destruct (m !! q) as [bq|] eqn:Hq.
  2: { rewrite (Hsame q) by set_solver. rewrite Hq. reflexivity. }
  assert (Hq' : m' !! q = Some bq).
  { rewrite <- Hq. apply Hsame. destruct bq; set_solver. }
  rewrite Hq'. destruct bq as [| | |ts|]; try reflexivity.
  rewrite (Hsame (ts_ndims ts)) by set_solver.
  rewrite (Hsame (ts_inds ts)) by set_solver.
  destruct (m !! ts_ndims ts) as [[dims| | | |]|]; try reflexivity.
  destruct (m !! ts_inds ts) as [[| |refs| |]|]; try reflexivity.
  assert (Hrefs : mapM (load_size_vector m') refs = mapM (load_size_vector m) refs).
  { assert (Hin : forall r, r ∈ refs -> m' !! ref_data r = m !! ref_data r).
    { intros r Hr. apply Hsame. do 4 apply list_elem_of_further.
      apply list_elem_of_In, in_map, list_elem_of_In, Hr. }
    clear - Hin. induction refs as [|r refs IH]; [reflexivity|].
    simpl. rewrite IH by (intros r' Hr'; apply Hin; set_solver).
    assert (Hr : load_size_vector m' r = load_size_vector m r)
      by (unfold load_size_vector; rewrite (Hin r) by set_solver; reflexivity).
    rewrite Hr. reflexivity. }
  rewrite Hrefs. unfold load_value_vector.
  rewrite (Hsame (ref_data (ts_values ts))) by set_solver.
  reflexivity.
Qed.

(** [finish] on a status whose five blocks are allocated and distinct
    releases them, and touches no other address. *)
Lemma finish_frees_blocks (m : memory) (p : addr) (s : status_struct) :
  m !! p = Some (StatusBlock s) ->
  Forall (fun a => is_Some (m !! a)) (status_blocks s p) ->
  NoDup (status_blocks s p) ->
  exists m' : memory,
    spt_FinishSplitSparseTensor m p = Some m'
    /\ (forall a, a ∈ status_blocks s p -> m' !! a = None)
    /\ (forall a, a ∉ status_blocks s p -> m' !! a = m !! a).
Proof.
  intros Hp Hlive Hnodup. unfold status_blocks in *.
  set (b1 := ref_data (st_cuts_by_mode s)) in *.
  set (b2 := ref_data (st_partial_low s)) in *.
  set (b3 := ref_data (st_partial_high s)) in *.
  set (b4 := ref_data (st_index_step s)) in *.
  apply Forall_cons in Hlive as [_ Hlive].
  apply Forall_cons in Hlive as [[x1 H1] Hlive].
  apply Forall_cons in Hlive as [[x2 H2] Hlive].
  apply Forall_cons in Hlive as [[x3 H3] Hlive].
  apply Forall_cons in Hlive as [[x4 H4] _].
  apply NoDup_cons in Hnodup as [Np Hnodup].
  apply NoDup_cons in Hnodup as [N1 Hnodup].
  apply NoDup_cons in Hnodup as [N2 Hnodup].
  apply NoDup_cons in Hnodup as [N3 _].
  assert (p <> b1 /\ p <> b2 /\ p <> b3 /\ p <> b4 /\ b1 <> b2 /\ b1 <> b3 /\ b1 <> b4
          /\ b2 <> b3 /\ b2 <> b4 /\ b3 <> b4)
    as (? & ? & ? & ? & ? & ? & ? & ? & ? & ?)
    by (repeat match goal with
               | H : _ ∉ _ :: _ |- _ => apply not_elem_of_cons in H as [? ?]
               end; repeat split; assumption).
  unfold spt_FinishSplitSparseTensor, sptFreeSizeVector, free. rewrite Hp.
  fold b1 b2 b3 b4.
  rewrite lookup_insert_ne, H1 by done. cbn.
  rewrite lookup_delete_ne, lookup_insert_ne, H2 by done. cbn.
  rewrite !lookup_delete_ne, lookup_insert_ne, H3 by done. cbn.
  rewrite !lookup_delete_ne, lookup_insert_ne, H4 by done. cbn.
  rewrite !lookup_delete_ne, lookup_insert_eq by done.
  eexists. split; [reflexivity|]. split.
  - intros a Ha.
    assert (a = p \/ a = b1 \/ a = b2 \/ a = b3 \/ a = b4) as Hcases
      by (repeat rewrite elem_of_cons in Ha; rewrite elem_of_nil in Ha; tauto).
    destruct Hcases as [-> | [-> | [-> | [-> | ->]]]].
    + apply lookup_delete_eq.
    + rewrite !lookup_delete_ne by done. apply lookup_delete_eq.
    + rewrite !lookup_delete_ne by done. apply lookup_delete_eq.
    + rewrite !lookup_delete_ne by done. apply lookup_delete_eq.
    + rewrite !lookup_delete_ne by done. apply lookup_delete_eq.
  - intros a Ha.
    repeat match goal with
           | H : _ ∉ _ :: _ |- _ => apply not_elem_of_cons in H as [? ?]
           end.
    rewrite !lookup_delete_ne, lookup_insert_ne by congruence. reflexivity.
Qed.

Lemma load_status_blocks (m : memory) (p : addr) (s : status_struct)
    (status : spt_SplitStatus) :
  m !! p = Some (StatusBlock s) -> load_status m p = Some status ->
  Forall (fun a => is_Some (m !! a)) (status_blocks s p)
  /\ exists q, st_tsr s = Some q /\ load_tensor m q = Some (tsr status).
Proof.
  intros Hp Hload. unfold load_status in Hload. rewrite Hp in Hload.
  destruct (st_tsr s) as [q|]; [|discriminate]. cbn in Hload.
  destruct (load_tensor m q) as [t|] eqn:Ht; [|discriminate]. cbn in Hload.
  destruct (load_size_vector m (st_cuts_by_mode s)) as [cbm|] eqn:H1; [|discriminate].
  destruct (load_size_vector m (st_partial_low s)) as [lows|] eqn:H2; [|discriminate].
  destruct (load_size_vector m (st_partial_high s)) as [highs|] eqn:H3; [|discriminate].
  destruct (load_size_vector m (st_index_step s)) as [steps|] eqn:H4; [|discriminate].
  cbn in Hload. injection Hload as <-.
  apply load_size_vector_block in H1, H2, H3, H4.
  split; [|exists q; split; [reflexivity | exact Ht]].
  unfold status_blocks. repeat constructor; eauto.
Qed.

(** C8. [finish] releases the four stack buffers and the status struct and
    nothing else: every other address holds after the call what it held
    before, so the source tensor, read through the pointer the status held,
    has the same mode count, dimensions, sort-key marker, nnz, index arrays
    and value array before and after.  The status must own its five blocks:
    they are distinct and none of them is part of the tensor. *)
Theorem C8_finish_leaves_source_tensor (m : memory) (p q : addr) (s : status_struct)
    (status : spt_SplitStatus) :
  m !! p = Some (StatusBlock s) -> st_tsr s = Some q ->
  load_status m p = Some status ->
  NoDup (status_blocks s p) ->
  Forall (fun a => a ∉ tensor_footprint m q) (status_blocks s p) ->
  exists m' : memory,
    spt_FinishSplitSparseTensor m p = Some m'
    /\ load_tensor m q = Some (tsr status)
    /\ load_tensor m' q = Some (tsr status)
    /\ (forall a, a ∈ status_blocks s p -> m' !! a = None)
    /\ (forall a, a ∉ status_blocks s p -> m' !! a = m !! a).
Proof.
  intros Hp Htsr Hload Hnodup Hsep. rewrite Forall_forall in Hsep.
  destruct (load_status_blocks m p s status Hp Hload) as [Hlive (q' & Hq' & Ht)].
  assert (q' = q) as -> by congruence.
  destruct (finish_frees_blocks m p s Hp Hlive Hnodup) as (m' & Hfinish & Hgone & Hkept).
  exists m'. split; [assumption|]. split; [assumption|]. split; [|split; assumption].
  rewrite <- Ht. apply load_tensor_frame. intros a Ha. apply Hkept.
  intros Hin. apply (Hsep a Hin Ha).
Qed.

(** A tensor that can be read occupies allocated addresses only. *)
Lemma footprint_allocated (m : memory) (q : addr) (t : sptSparseTensor) :
  load_tensor m q = Some t ->
  Forall (fun a => is_Some (m !! a)) (tensor_footprint m q).
Proof.
  unfold load_tensor, tensor_footprint.
  destruct (m !! q) as [[| | |ts|]|] eqn:Hq; try discriminate.
  destruct (m !! ts_ndims ts) as [[dims| | | |]|] eqn:Hdims; try discriminate.
  destruct (m !! ts_inds ts) as [[| |refs| |]|] eqn:Hinds; try discriminate.
  destruct (mapM (load_size_vector m) refs) as [vs|] eqn:Hvs; [|discriminate].
  cbn. unfold load_value_vector.
  destruct (m !! ref_data (ts_values ts)) as [[|cells| | |]|] eqn:Hvals; try discriminate.
  intros _. repeat (constructor; [eauto|]).
  apply mapM_Some_1 in Hvs. clear - Hvs.
  induction Hvs as [|r v refs vs Hr _ IH]; [constructor|]. simpl.
  constructor; [|exact IH].
  apply load_size_vector_block in Hr. eauto.
Qed.

Lemma vec_eta {A : Type} (v : vec A) : Vec (len v) (cap v) (data v) = v.
Proof. destruct v. reflexivity. Qed.

(** The layout of [place_status] satisfies what [finish] needs: the status
    can be read back, its five blocks are distinct and apart from the
    tensor, and [finish] gives back the memory [start] found. *)
Lemma place_status_owned (m : memory) (q : addr) (status : spt_SplitStatus) :
  load_tensor m q = Some (tsr status) ->
  let m' := fst (place_status m q status) in
  let p := snd (place_status m q status) in
  exists s,
    m' !! p = Some (StatusBlock s) /\ st_tsr s = Some q
    /\ load_status m' p = Some status
    /\ NoDup (status_blocks s p)
    /\ Forall (fun a => a ∉ tensor_footprint m' q) (status_blocks s p)
    /\ spt_FinishSplitSparseTensor m' p = Some m.
Proof.
  intros Ht. unfold place_status, alloc_block. cbn zeta. cbn [fst snd].
  set (a0 := fresh (dom m)).
  set (m0 := <[a0 := _]> m).
  set (a1 := fresh (dom m0)).
  set (m1 := <[a1 := _]> m0).
  set (a2 := fresh (dom m1)).
  set (m2 := <[a2 := _]> m1).
  set (a3 := fresh (dom m2)).
  set (m3 := <[a3 := _]> m2).
  set (a4 := fresh (dom m3)).
  set (m4 := <[a4 := _]> m3).
  assert (F0 : m !! a0 = None) by (apply not_elem_of_dom, is_fresh).
  assert (F1 : m0 !! a1 = None) by (apply not_elem_of_dom, is_fresh).
  assert (F2 : m1 !! a2 = None) by (apply not_elem_of_dom, is_fresh).
  assert (F3 : m2 !! a3 = None) by (apply not_elem_of_dom, is_fresh).
  assert (F4 : m3 !! a4 = None) by (apply not_elem_of_dom, is_fresh).
  unfold m3 in F4. apply lookup_insert_None in F4 as [F4 N43].
  unfold m2 in F3, F4. apply lookup_insert_None in F3 as [F3 N32].
  apply lookup_insert_None in F4 as [F4 N42].
  unfold m1 in F2, F3, F4. apply lookup_insert_None in F2 as [F2 N21].
  apply lookup_insert_None in F3 as [F3 N31]. apply lookup_insert_None in F4 as [F4 N41].
  unfold m0 in F1, F2, F3, F4. apply lookup_insert_None in F1 as [F1 N10].
  apply lookup_insert_None in F2 as [F2 N20]. apply lookup_insert_None in F3 as [F3 N30].
  apply lookup_insert_None in F4 as [F4 N40].
  set (s := StatusStruct (Some q)
              (VecRef (len (cuts_by_mode status)) (cap (cuts_by_mode status)) a1)
              (VecRef (len (partial_low status)) (cap (partial_low status)) a2)
              (VecRef (len (partial_high status)) (cap (partial_high status)) a3)
              (VecRef (len (index_step status)) (cap (index_step status)) a4)
              (no_more status)).
  set (m5 := <[a0 := StatusBlock s]> m4).
  assert (Hold : forall a, is_Some (m !! a) -> m5 !! a = m !! a).
  { intros a [x Hx]. unfold m5, m4, m3, m2, m1, m0.
    rewrite !lookup_insert_ne by congruence. reflexivity. }
  assert (Hfoot : tensor_footprint m5 q = tensor_footprint m q).
  { pose proof (footprint_allocated m q _ Ht) as Hall. rewrite Forall_forall in Hall.
    unfold tensor_footprint in *.
    destruct (m !! q) as [bq|] eqn:Hq.
    - rewrite (Hold q) by (rewrite Hq; eauto). rewrite Hq.
      destruct bq as [| | |ts|]; try reflexivity.
      rewrite (Hold (ts_inds ts)); [reflexivity|].
      apply Hall. do 2 apply list_elem_of_further. apply list_elem_of_here.
    - unfold load_tensor in Ht. rewrite Hq in Ht. discriminate. }
  assert (Htensor : load_tensor m5 q = Some (tsr status)).
  { rewrite <- Ht. apply load_tensor_frame. intros a Ha. apply Hold.
    pose proof (footprint_allocated m q _ Ht) as Hall. rewrite Forall_forall in Hall.
    apply Hall, Ha. }
  assert (L1 : m5 !! a1 = Some (SizeCells (data (cuts_by_mode status)))).
  { unfold m5, m4, m3, m2, m1. rewrite !lookup_insert_ne by congruence.
    apply lookup_insert_eq. }
  assert (L2 : m5 !! a2 = Some (SizeCells (data (partial_low status)))).
  { unfold m5, m4, m3, m2. rewrite !lookup_insert_ne by congruence.
    apply lookup_insert_eq. }
  assert (L3 : m5 !! a3 = Some (SizeCells (data (partial_high status)))).
  { unfold m5, m4, m3. rewrite !lookup_insert_ne by congruence. apply lookup_insert_eq. }
  assert (L4 : m5 !! a4 = Some (SizeCells (data (index_step status)))).
  { unfold m5, m4. rewrite !lookup_insert_ne by congruence. apply lookup_insert_eq. }
  assert (L0 : m5 !! a0 = Some (StatusBlock s)) by apply lookup_insert_eq.
  assert (Hnodup : NoDup (status_blocks s a0)).
  { unfold status_blocks, s. cbn [st_cuts_by_mode st_partial_low st_partial_high
      st_index_step ref_data].
    repeat (apply NoDup_cons; split;
            [repeat rewrite not_elem_of_cons; rewrite ?elem_of_nil; intuition congruence|]).
    apply NoDup_nil. exact I. }
  assert (Hlive : Forall (fun a => is_Some (m5 !! a)) (status_blocks s a0)).
  { unfold status_blocks, s. cbn [st_cuts_by_mode st_partial_low st_partial_high
      st_index_step ref_data].
    repeat constructor; eauto. }
  exists s. split; [exact L0|]. split; [reflexivity|]. split; [|split; [exact Hnodup|split]].
  - unfold load_status. rewrite L0. cbn [st_tsr]. cbn. rewrite Htensor. cbn.
    unfold load_size_vector, s.
    cbn [st_cuts_by_mode st_partial_low st_partial_high st_index_step ref_data ref_len
         ref_cap st_no_more].
    rewrite L1, L2, L3, L4. cbn. rewrite !vec_eta. destruct status. reflexivity.
  - rewrite Hfoot.
    pose proof (footprint_allocated m q _ Ht) as Hall. rewrite Forall_forall in Hall.
    unfold status_blocks, s. cbn [st_cuts_by_mode st_partial_low st_partial_high
      st_index_step ref_data].
    repeat constructor; intros Hin; apply Hall in Hin as [x Hx]; congruence.
  - destruct (finish_frees_blocks m5 a0 s L0 Hlive Hnodup) as (m6 & -> & Hgone & Hkept).
    f_equal. apply map_eq. intros a.
    destruct (decide (a ∈ status_blocks s a0)) as [Hin|Hout].
    + rewrite (Hgone a Hin). symmetry.
      unfold status_blocks, s in Hin. cbn [st_cuts_by_mode st_partial_low st_partial_high
        st_index_step ref_data] in Hin.
      repeat rewrite elem_of_cons in Hin. rewrite elem_of_nil in Hin.
      destruct Hin as [-> | [-> | [-> | [-> | [-> | []]]]]]; assumption.
    + rewrite (Hkept a Hout).
      unfold status_blocks, s in Hout. cbn [st_cuts_by_mode st_partial_low st_partial_high
        st_index_step ref_data] in Hout.
      repeat match goal with
             | H : _ ∉ _ :: _ |- _ => apply not_elem_of_cons in H as [? ?]
             end.
      unfold m5, m4, m3, m2, m1, m0. rewrite !lookup_insert_ne by congruence.
      reflexivity.
Qed.

(** ** The theorems at concrete inputs *)

Lemma C1_witness :
  exists cs,
    split_all 7 blank tensor_A [3; 1] [] = Exhausted cs
    /\ consecutive 0 6 (map chunk_range cs).
Proof.
  assert (Hwf : tensor_wf tensor_A) by concrete_wf.
  assert (Hpos : 0 < nnz tensor_A) by reflexivity.
  assert (Hkey : sortkey tensor_A = size_sub (nmodes tensor_A) 1) by reflexivity.
  assert (Hlen : length [3; 1] = Z.to_nat (nmodes tensor_A)) by reflexivity.
  assert (Hcuts : Forall (fun c => 0 < c <= SIZE_MAX) [3; 1])
    by (repeat constructor; vm_compute; congruence).
  destruct (C1_chunks_cover_source_in_order tensor_A blank [3; 1] []
              Hwf Hpos Hkey Hlen Hcuts) as [Hcover Hend].
  destruct (Hend (List.Forall_nil _)) as [cs Hcs].
  exists cs. split; [exact Hcs | exact (Hcover _ _ Hcs)].
Defined.

(** C2, as stated, at an input where it fails: the tensor has nonzeros and
    its marker is [nmodes-1], the allocator grants the status struct and
    refuses the first vector, and [start] returns the allocation error. *)
Lemma C2_counterexample_refused_allocation :
  nnz tensor_A <> 0 /\ sortkey tensor_A = size_sub (nmodes tensor_A) 1
  /\ spt_StartSplitSparseTensor tensor_A [3; 1] [Some 0; None]
     = (Failed SPTERR_OS_ERROR, [])
  /\ ~ exists status h',
         spt_StartSplitSparseTensor tensor_A [3; 1] [Some 0; None] = (Done status, h').
Proof.
  split; [discriminate|]. split; [reflexivity|]. split; [reflexivity|].
  intros (status & h' & Hstart). vm_compute in Hstart. discriminate.
Qed.

Lemma C2_witness :
  exists status h',
    spt_StartSplitSparseTensor tensor_A [3; 1] [] = (Done status, h')
    /\ range_stack status = [(0, 6)].
Proof.
  assert (Hnnz : nnz tensor_A <> 0) by discriminate.
  assert (Hkey : sortkey tensor_A = size_sub (nmodes tensor_A) 1) by reflexivity.
  destruct (C2_start_outcomes tensor_A [3; 1] []) as (_ & _ & Hthird).
  destruct (Hthird Hnnz Hkey) as (Hgrants & Hstack & _).
  destruct (Hgrants (List.Forall_nil _)) as (status & h' & Hstart).
  exists status, h'. split; [exact Hstart|].
  exact (proj1 (Hstack status h' Hstart)).
Defined.

Lemma C3_witness :
  produce_times 2 blank (status_after 3 tensor_A [3; 1]) [Some 5]
  = ([Failed SPTERR_NO_MORE; Failed SPTERR_NO_MORE],
     status_after 3 tensor_A [3; 1], [Some 5]).
Proof.
  assert (Hfirst : spt_SplitSparseTensor blank (status_after 3 tensor_A [3; 1]) []
                   = (Failed SPTERR_NO_MORE, status_after 3 tensor_A [3; 1], []))
    by (vm_compute; reflexivity).
  exact (C3_exhaustion_is_idempotent blank _ _ [] [] Hfirst 2%nat blank [Some 5]).
Defined.

Lemma C6_witness :
  exists cs,
    split_all 7 blank tensor_A [3; 1] [] = Exhausted cs
    /\ map chunk_range cs = [(0, 2); (2, 4); (4, 6)]
    /\ map (fun c => nnz (chunk_tensor c)) cs = [2; 2; 2].
Proof.
  destruct (C6_scenario_A_three_chunks [3; 2]
              (value_vector_of [10; 11; 12; 13; 14; 15]) blank [])
    as [Hchunks Hend].
  destruct (Hend (List.Forall_nil _)) as [cs Hcs].
  exists cs. split; [exact Hcs | exact (Hchunks _ _ Hcs)].
Defined.

Lemma C7_witness :
  exists c status' h',
    spt_SplitSparseTensor blank (started tensor_B [1; 2]) [] = (Done c, status', h')
    /\ nnz (chunk_tensor c) = cut_high c - cut_low c
    /\ lex_sorted (chunk_tensor c).
Proof.
  assert (Hwf : tensor_wf tensor_B) by concrete_wf.
  assert (Hsorted : lex_sorted tensor_B) by concrete_sorted4.
  assert (Hstart : spt_StartSplitSparseTensor tensor_B [1; 2] []
                   = (Done (started tensor_B [1; 2]), []))
    by (vm_compute; reflexivity).
  pose proof (reach_start tensor_B [1; 2] [] _ [] Hstart) as Hreach.
  destruct (spt_SplitSparseTensor blank (started tensor_B [1; 2]) [])
    as [[[c|e|why] status'] h'] eqn:Hcall;
    [|vm_compute in Hcall; discriminate|vm_compute in Hcall; discriminate].
  exists c, status', h'. split; [reflexivity|].
  pose proof (C7_chunk_copies_its_range tensor_B [1; 2] _ status' blank [] h' c
                Hwf Hsorted Hreach Hcall) as Hchunk.
  cbv zeta in Hchunk.
  destruct Hchunk as (_ & _ & _ & _ & _ & Hnnz & _ & _ & _ & _ & Hchunk_sorted).
  split; [exact Hnnz | exact Hchunk_sorted].
Defined.

Lemma C8_witness :
  exists m' : memory,
    spt_FinishSplitSparseTensor (fst memory_A_started) (snd memory_A_started) = Some m'
    /\ load_tensor (fst memory_A_started) 1%positive = Some tensor_A
    /\ load_tensor m' 1%positive = Some tensor_A.
Proof.
  set (s := StatusStruct (Some 1%positive) (VecRef 2 2 8%positive)
              (VecRef 1 3 9%positive) (VecRef 1 3 10%positive)
              (VecRef 0 2 11%positive) 0).
  assert (Hp : fst memory_A_started !! snd memory_A_started = Some (StatusBlock s))
    by (vm_compute; reflexivity).
  assert (Htsr : st_tsr s = Some 1%positive) by reflexivity.
  assert (Hload : load_status (fst memory_A_started) (snd memory_A_started)
                  = Some (started tensor_A [3; 1]))
    by (vm_compute; reflexivity).
  assert (Hnodup : NoDup (status_blocks s (snd memory_A_started)))
    by (apply (bool_decide_unpack _); vm_compute; exact I).
  assert (Hsep : Forall (fun a => a ∉ tensor_footprint (fst memory_A_started) 1%positive)
                   (status_blocks s (snd memory_A_started)))
    by (apply (bool_decide_unpack _); vm_compute; exact I).
  destruct (C8_finish_leaves_source_tensor _ _ _ s _ Hp Htsr Hload Hnodup Hsep)
    as (m' & Hfinish & Hbefore & Hafter & _).
  exists m'. split; [exact Hfinish|]. split; [exact Hbefore | exact Hafter].
Defined.

Lemma C10_witness :
  low_at (status_after 1 tensor_A [3; 1]) 1 < high_at (status_after 1 tensor_A [3; 1]) 1.
Proof.
  assert (Hwf : tensor_wf tensor_A) by concrete_wf.
  assert (Hstart : spt_StartSplitSparseTensor tensor_A [3; 1] []
                   = (Done (started tensor_A [3; 1]), []))
    by (vm_compute; reflexivity).
  pose proof (reach_start tensor_A [3; 1] [] _ [] Hstart) as Hreach0.
  destruct (spt_SplitSparseTensor blank (started tensor_A [3; 1]) [])
    as [[r status1] h1] eqn:Hcall.
  pose proof (reach_produce tensor_A [3; 1] _ blank [] r status1 h1 Hreach0 Hcall)
    as Hreach1.
  assert (Hsame : status1 = status_after 1 tensor_A [3; 1]).
  { unfold status_after, produce_times. rewrite Hcall. reflexivity. }
  rewrite Hsame in Hreach1.
  destruct (C10_ranges_on_stack_nonempty tensor_A [3; 1] _ Hwf Hreach1) as [Hlevels _].
  apply Hlevels. vm_compute. split; congruence.
Defined.

(** * Further properties of the code *)

(** ** The maximum of an array *)

Lemma max_loop_spec (fuel : nat) (indices : list Z) (i size max : Z) :
  1 <= i <= size -> size <= SIZE_MAX -> fuel = Z.to_nat (size - i) ->
  (forall k, 0 <= k < i -> size_cell indices k <= max) ->
  (exists k, 0 <= k < i /\ max = size_cell indices k) ->
  (forall k, 0 <= k < size -> size_cell indices k <= max_loop fuel indices i size max)
  /\ exists k, 0 <= k < size /\ max_loop fuel indices i size max = size_cell indices k.
Proof.
  revert i max. induction fuel as [|fuel IH]; intros i max Hi Hmax Hfuel Hup Hat; simpl.
  - assert (i = size) by lia. subst i. split; [exact Hup | exact Hat].
  - replace (i <? size) with true by (symmetry; apply Z.ltb_lt; lia).
    rewrite (size_add_small i 1) by lia.
    apply IH; [lia | lia | lia | |].
    + intros k Hk. destruct (max <? size_cell indices i) eqn:Hlt;
        [apply Z.ltb_lt in Hlt | apply Z.ltb_ge in Hlt].
      * destruct (Z.eq_dec k i) as [->|Hne]; [lia|].
        specialize (Hup k). lia.
      * destruct (Z.eq_dec k i) as [->|Hne]; [lia|].
        apply Hup. lia.
    + destruct (max <? size_cell indices i).
      * exists i. split; [lia | reflexivity].
      * destruct Hat as (k & Hk & ->). exists k. split; [lia | reflexivity].
Qed.

(** X1.  [sptMaxSizeArray] returns the maximum of the first [size] cells of
    a non-empty array: none of them is larger, and one of them is equal. *)
Theorem X1_max_size_array_is_maximum (indices : list Z) (size : Z) :
  1 <= size -> size <= SIZE_MAX -> size <= Z.of_nat (length indices) ->
  (forall k, 0 <= k < size -> size_cell indices k <= sptMaxSizeArray indices size)
  /\ exists k, 0 <= k < size /\ sptMaxSizeArray indices size = size_cell indices k.
Proof.
  intros Hsize Hmax _. unfold sptMaxSizeArray.
  apply max_loop_spec; [lia | lia | reflexivity | |].
  - intros k Hk. replace k with 0 by lia. lia.
  - exists 0. split; [lia | reflexivity].
Qed.

Lemma max_loop_one_more (fuel : nat) (indices : list Z) (i size max : Z) :
  1 <= i <= size -> size < SIZE_MAX -> fuel = Z.to_nat (size - i) ->
  max_loop (S fuel) indices i (size + 1) max
  = Z.max (max_loop fuel indices i size max) (size_cell indices size).
Proof.
  revert i max. induction fuel as [|fuel IH]; intros i max Hi Hmax Hfuel.
  - assert (i = size) by lia. subst i. simpl.
    replace (size <? size + 1) with true by (symmetry; apply Z.ltb_lt; lia).
    destruct (max <? size_cell indices size) eqn:Hlt;
      [apply Z.ltb_lt in Hlt | apply Z.ltb_ge in Hlt]; lia.
  - change (max_loop (S (S fuel)) indices i (size + 1) max)
      with (if i <? size + 1
            then max_loop (S fuel) indices (size_add i 1) (size + 1)
                   (if max <? size_cell indices i then size_cell indices i else max)
            else max).
    change (max_loop (S fuel) indices i size max)
      with (if i <? size
            then max_loop fuel indices (size_add i 1) size
                   (if max <? size_cell indices i then size_cell indices i else max)
            else max).
    replace (i <? size + 1) with true by (symmetry; apply Z.ltb_lt; lia).
    replace (i <? size) with true by (symmetry; apply Z.ltb_lt; lia).
    rewrite (size_add_small i 1) by lia.
    apply IH; lia.
Qed.

(** One more cell: the maximum of [size + 1] cells is the larger of
    the maximum of the first [size] cells and cell [size]. *)
Lemma sptMaxSizeArray_one_more (indices : list Z) (size : Z) :
  1 <= size -> size < SIZE_MAX ->
  sptMaxSizeArray indices (size + 1)
  = Z.max (sptMaxSizeArray indices size) (size_cell indices size).
Proof.
  intros Hsize Hmax. unfold sptMaxSizeArray.
  replace (Z.to_nat (size + 1 - 1)) with (S (Z.to_nat (size - 1))) by lia.
  apply max_loop_one_more; lia.
Qed.

(** ** Filling a vector with a constant *)

Lemma constant_loop_spec {A : Type} (d : A) (fuel : nat) (i n : Z) (cells : list A)
    (val : A) :
  0 <= i <= n -> n <= Z.of_nat (length cells) -> n <= SIZE_MAX ->
  fuel = Z.to_nat (n - i) ->
  length (constant_loop fuel i n cells val) = length cells
  /\ forall k, 0 <= k ->
       cell d (constant_loop fuel i n cells val) k
       = if (i <=? k) && (k <? n) then val else cell d cells k.
Proof.
  revert i cells. induction fuel as [|fuel IH]; intros i cells Hi Hn Hmax Hfuel; simpl.
  - split; [reflexivity|]. intros k Hk.
    replace ((i <=? k) && (k <? n)) with false; [reflexivity|].
    symmetry. apply andb_false_iff.
    destruct (Z.leb_spec i k); [right; apply Z.ltb_ge; lia | left; reflexivity].
  - replace (i <? n) with true by (symmetry; apply Z.ltb_lt; lia).
    rewrite (size_add_small i 1) by lia.
    destruct (IH (i + 1) (store cells i val)) as [Hlen Hcells];
      [lia | rewrite length_store; lia | lia | lia |].
    rewrite length_store in Hlen. split; [exact Hlen|].
    intros k Hk. rewrite (Hcells k Hk).
    destruct (Z.eq_dec k i) as [->|Hne].
    + replace (i + 1 <=? i) with false by (symmetry; apply Z.leb_gt; lia).
      rewrite Z.leb_refl.
      replace (i <? n) with true by (symmetry; apply Z.ltb_lt; lia). simpl.
      apply cell_store_same. lia.
    + rewrite cell_store_other by lia.
      destruct (Z.leb_spec (i + 1) k), (Z.leb_spec i k); try lia; reflexivity.
Qed.

Lemma map_const_seq {A : Type} (x : A) (a n : nat) :
  map (fun _ => x) (seq a n) = repeat x n.
Proof.
  revert a. induction n as [|n IH]; intros a; simpl; [reflexivity|].
  rewrite IH. reflexivity.
Qed.

(** X2.  [sptConstantSizeVector] writes [num] into the cells [0 .. len-1]
    and nothing else: [len], [cap] and the cells from [len] on are what
    they were. *)
Theorem X2_constant_size_vector_fills_elements (vec : sptSizeVector) (num : Z) :
  0 <= len vec -> len vec <= Z.of_nat (length (data vec)) -> len vec <= SIZE_MAX ->
  let out := sptConstantSizeVector vec num in
  len out = len vec /\ cap out = cap vec
  /\ length (data out) = length (data vec)
  /\ (forall k, 0 <= k < len vec -> size_cell (data out) k = num)
  /\ (forall k, len vec <= k -> size_cell (data out) k = size_cell (data vec) k)
  /\ elements 0 out = repeat num (Z.to_nat (len vec)).
Proof.
  intros Hlen Hcells Hmax out.
  destruct (constant_loop_spec 0 (Z.to_nat (len vec)) 0 (len vec) (data vec) num)
    as [Hlength Hout]; [lia | lia | lia | lia |].
  assert (Hin : forall k, 0 <= k < len vec -> size_cell (data out) k = num).
  { intros k Hk. unfold out, sptConstantSizeVector, size_cell. simpl.
    rewrite Hout by lia.
    replace (0 <=? k) with true by (symmetry; apply Z.leb_le; lia).
    replace (k <? len vec) with true by (symmetry; apply Z.ltb_lt; lia).
    reflexivity. }
  split; [reflexivity|]. split; [reflexivity|]. split; [exact Hlength|].
  split; [exact Hin|]. split.
  - intros k Hk. unfold out, sptConstantSizeVector, size_cell. simpl.
    rewrite Hout by lia.
    replace (k <? len vec) with false by (symmetry; apply Z.ltb_ge; lia).
    rewrite andb_false_r. reflexivity.
  - unfold elements. change (len out) with (len vec).
    rewrite <- (map_const_seq num 0 (Z.to_nat (len vec))).
    apply map_ext_in. intros k Hk. apply in_seq in Hk. apply Hin. lia.
Qed.


(** ** The elements of a vector *)

Section ElementFacts.
Context {A : Type}.
Implicit Types (d : A) (v w : vec A).

Lemma length_elements d v : length (elements d v) = Z.to_nat (len v).
Proof. unfold elements. rewrite length_map, length_seq. reflexivity. Qed.

Lemma elements_ext d v w :
  len v = len w ->
  (forall k, 0 <= k < len w -> cell d (data v) k = cell d (data w) k) ->
  elements d v = elements d w.
Proof.
  intros Hlen Hcells. unfold elements. rewrite Hlen.
  apply map_ext_in. intros k Hk. apply in_seq in Hk. apply Hcells. lia.
Qed.

(** The elements of a vector that extends another one by the list [l]. *)
Lemma elements_extend d v w (l : list A) :
  0 <= len w -> len v = len w + Z.of_nat (length l) ->
  (forall k, 0 <= k < len w -> cell d (data v) k = cell d (data w) k) ->
  (forall j, 0 <= j < Z.of_nat (length l) -> cell d (data v) (len w + j) = cell d l j) ->
  elements d v = elements d w ++ l.
Proof.
  intros Hw Hlen Hold Hnew. unfold elements. rewrite Hlen.
  replace (Z.to_nat (len w + Z.of_nat (length l)))
    with (Z.to_nat (len w) + length l)%nat by lia.
  rewrite seq_app, map_app. f_equal.
  - apply map_ext_in. intros k Hk. apply in_seq in Hk. apply Hold. lia.
  - apply nth_ext with (d := d) (d' := d).
    + rewrite length_map, length_seq. reflexivity.
    + intros j Hj. rewrite length_map, length_seq in Hj.
      rewrite (nth_indep _ d (cell d (data v) (Z.of_nat 0))) by
        (rewrite length_map, length_seq; exact Hj).
      rewrite (map_nth (fun k => cell d (data v) (Z.of_nat k))).
      rewrite seq_nth by exact Hj.
      replace (Z.of_nat (0 + Z.to_nat (len w) + j)) with (len w + Z.of_nat j) by lia.
      rewrite Hnew by lia. unfold cell. rewrite Nat2Z.id. reflexivity.
Qed.

Lemma cell_elements d v k :
  0 <= k < len v -> cell d (elements d v) k = cell d (data v) k.
Proof.
  intros Hk. unfold elements, cell at 1.
  rewrite (nth_indep _ d (cell d (data v) (Z.of_nat 0)))
    by (rewrite length_map, length_seq; lia).
  rewrite (map_nth (fun k => cell d (data v) (Z.of_nat k))).
  rewrite seq_nth by lia. simpl. rewrite Z2Nat.id by lia. reflexivity.
Qed.

(** What [realloc] keeps: the cells below the new size that the old buffer
    had. *)
Lemma cell_realloc d (mk : Z -> A) (old : list A) n h cells h' k :
  realloc mk old n h = (Some cells, h') ->
  0 <= k < n -> k < Z.of_nat (length old) -> cell d cells k = cell d old k.
Proof.
  unfold realloc. destruct (request h) as [[fill|] h0]; intros [= <- _] Hk Hold.
  unfold cell. rewrite !nth_lookup.
  rewrite lookup_app_l by (rewrite length_take; lia).
  rewrite lookup_take_lt by lia. reflexivity.
Qed.

(** A [realloc] to the size the buffer has gives the buffer back. *)
Lemma realloc_same_size (mk : Z -> A) (old : list A) n h cells h' :
  realloc mk old n h = (Some cells, h') -> n = Z.of_nat (length old) -> cells = old.
Proof.
  unfold realloc. destruct (request h) as [[fill|] h0]; intros [= <- _] ->.
  rewrite Nat2Z.id, firstn_all, Nat.sub_diag. apply app_nil_r.
Qed.

Lemma store_outside (l : list A) i x : Z.of_nat (length l) <= i -> store l i x = l.
Proof.
  intros Hi. unfold store.
  replace (i <? Z.of_nat (length l)) with false by (symmetry; apply Z.ltb_ge; lia).
  rewrite andb_false_r. reflexivity.
Qed.
End ElementFacts.

(** ** Copies *)

(** X4.  [sptCopySizeVector] gives a vector with the elements of the source
    in a buffer of its own size: the capacity of the copy is the length of
    the source (2 at least), not its capacity. *)
Theorem X4_copy_size_vector_elements (src : sptSizeVector) (h h' : heap)
    (v : sptSizeVector) :
  0 <= len src -> len src <= Z.of_nat (length (data src)) ->
  sptCopySizeVector src h = (Ok v, h') ->
  vec_ok v /\ len v = len src /\ cap v = Z.max 2 (len src)
  /\ elements 0 v = elements 0 src.
Proof.
  intros Hlen Hcells Hcopy.
  pose proof (sptCopySizeVector_ok _ _ _ _ Hlen Hcopy) as [Hok Hlenv].
  revert Hcopy. unfold sptCopySizeVector, sptNewSizeVector.
  destruct (malloc _ _ h) as [[cells|] h0] eqn:Hm; intros [= <- _].
  apply length_malloc in Hm. simpl in *.
  split; [exact Hok|]. split; [reflexivity|]. split.
  - rewrite Z.ltb_irrefl. destruct (len src <? 2) eqn:H2;
      [apply Z.ltb_lt in H2 | apply Z.ltb_ge in H2]; lia.
  - apply elements_ext; [reflexivity|]. intros k Hk. simpl.
    rewrite <- (Z.add_0_l k) at 2. apply cell_memcpy; try lia.
    rewrite Hm. rewrite Z.ltb_irrefl.
    destruct (len src <? 2) eqn:H2;
      [apply Z.ltb_lt in H2 | apply Z.ltb_ge in H2]; lia.
Qed.

(** X5.  [sptCopyVector]: the same for value vectors. *)
Theorem X5_copy_vector_elements (src : sptVector) (h h' : heap) (v : sptVector) :
  0 <= len src -> len src <= Z.of_nat (length (data src)) ->
  sptCopyVector src h = (Ok v, h') ->
  vec_ok v /\ len v = len src /\ cap v = Z.max 2 (len src)
  /\ elements (scalar_bits 0) v = elements (scalar_bits 0) src.
Proof.
  intros Hlen Hcells Hcopy.
  pose proof (sptCopyVector_ok _ _ _ _ Hlen Hcopy) as [Hok Hlenv].
  revert Hcopy. unfold sptCopyVector, sptNewVector.
  destruct (malloc _ _ h) as [[cells|] h0] eqn:Hm; intros [= <- _].
  apply length_malloc in Hm. simpl in *.
  split; [exact Hok|]. split; [reflexivity|]. split.
  - rewrite Z.ltb_irrefl. destruct (len src <? 2) eqn:H2;
      [apply Z.ltb_lt in H2 | apply Z.ltb_ge in H2]; lia.
  - apply elements_ext; [reflexivity|]. intros k Hk. simpl.
    rewrite <- (Z.add_0_l k) at 2. apply cell_memcpy; try lia.
    rewrite Hm. rewrite Z.ltb_irrefl.
    destruct (len src <? 2) eqn:H2;
      [apply Z.ltb_lt in H2 | apply Z.ltb_ge in H2]; lia.
Qed.

(** ** Appending one element *)

(** X6.  [sptAppendSizeVector] puts the value behind the elements the
    vector had.  It asks the allocator only when the vector is full, and
    the capacity then grows by its half. *)
Theorem X6_append_size_vector_elements (vec : sptSizeVector) (value : Z) (h h' : heap)
    (v : sptSizeVector) :
  vec_ok vec -> cap vec + cap vec / 2 <= SIZE_MAX ->
  sptAppendSizeVector vec value h = (Ok v, h') ->
  elements 0 v = elements 0 vec ++ [value]
  /\ (len vec < cap vec -> cap v = cap vec /\ h' = h)
  /\ (len vec = cap vec -> cap v = cap vec + cap vec / 2 /\ cap vec < cap v).
Proof.
  intros Hok Hmax Happ.
  pose proof (sptAppendSizeVector_ok _ _ _ _ _ Hok Hmax Happ) as (Hokv & Hlen & Hval).
  destruct Hok as (Hl & Hc & Hd).
  assert (Hhalf : 1 <= cap vec / 2) by (apply Z.div_le_lower_bound; lia).
  revert Happ Hlen Hval. unfold sptAppendSizeVector.
  destruct (cap vec <=? len vec) eqn:Hfull;
    [apply Z.leb_le in Hfull | apply Z.leb_gt in Hfull].
  - destruct (realloc _ _ _ h) as [[newdata|] h0] eqn:Hr; intros [= <- _] Hlen Hval.
    rewrite (size_add_small (cap vec)) in Hr |- * by lia.
    split; [|split; [intros ?; exfalso; lia | simpl; lia]].
    apply elements_extend; [lia | cbn [len length] in Hlen |- *; lia | |].
    + intros k Hk. simpl. rewrite cell_store_other by lia.
      apply (cell_realloc _ _ _ _ _ _ _ _ Hr); lia.
    + intros j Hj. simpl in Hj. replace j with 0 by lia. rewrite Z.add_0_r.
      exact Hval.
  - intros [= <- <-] Hlen Hval.
    split; [|split; [intros _; split; reflexivity | intros ?; exfalso; lia]].
    apply elements_extend; [lia | cbn [len length] in Hlen |- *; lia | |].
    + intros k Hk. simpl. apply cell_store_other; lia.
    + intros j Hj. simpl in Hj. replace j with 0 by lia. rewrite Z.add_0_r.
      exact Hval.
Qed.

(** X7.  [sptAppendVector]: the same for value vectors. *)
Theorem X7_append_vector_elements (vec : sptVector) (value : sptScalar) (h h' : heap)
    (v : sptVector) :
  vec_ok vec -> cap vec + cap vec / 2 <= SIZE_MAX ->
  sptAppendVector vec value h = (Ok v, h') ->
  elements (scalar_bits 0) v = elements (scalar_bits 0) vec ++ [value]
  /\ (len vec < cap vec -> cap v = cap vec /\ h' = h)
  /\ (len vec = cap vec -> cap v = cap vec + cap vec / 2 /\ cap vec < cap v).
Proof.
  intros Hok Hmax Happ.
  pose proof (sptAppendVector_ok _ _ _ _ _ Hok Hmax Happ) as (Hokv & Hlen & Hval).
  destruct Hok as (Hl & Hc & Hd).
  assert (Hhalf : 1 <= cap vec / 2) by (apply Z.div_le_lower_bound; lia).
  revert Happ Hlen Hval. unfold sptAppendVector.
  destruct (cap vec <=? len vec) eqn:Hfull;
    [apply Z.leb_le in Hfull | apply Z.leb_gt in Hfull].
  - destruct (realloc _ _ _ h) as [[newdata|] h0] eqn:Hr; intros [= <- _] Hlen Hval.
    rewrite (size_add_small (cap vec)) in Hr |- * by lia.
    split; [|split; [intros ?; exfalso; lia | simpl; lia]].
    apply elements_extend; [lia | cbn [len length] in Hlen |- *; lia | |].
    + intros k Hk. simpl. rewrite cell_store_other by lia.
      apply (cell_realloc _ _ _ _ _ _ _ _ Hr); lia.
    + intros j Hj. simpl in Hj. replace j with 0 by lia. rewrite Z.add_0_r.
      exact Hval.
  - intros [= <- <-] Hlen Hval.
    split; [|split; [intros _; split; reflexivity | intros ?; exfalso; lia]].
    apply elements_extend; [lia | cbn [len length] in Hlen |- *; lia | |].
    + intros k Hk. simpl. apply cell_store_other; lia.
    + intros j Hj. simpl in Hj. replace j with 0 by lia. rewrite Z.add_0_r.
      exact Hval.
Qed.

(** X8.  Why [New] and [Resize] keep the capacity at 2 or more: a full
    vector of capacity 0 or 1 does not grow, since [cap + cap/2] is [cap];
    the value is written behind the buffer and [len] passes [cap]. *)
Theorem X8_append_below_capacity_two_does_not_grow (vec : sptSizeVector) (value : Z)
    (h h' : heap) (v : sptSizeVector) :
  0 <= cap vec < 2 -> cap vec <= len vec -> len vec < SIZE_MAX ->
  Z.of_nat (length (data vec)) = cap vec ->
  sptAppendSizeVector vec value h = (Ok v, h') ->
  cap v = cap vec /\ data v = data vec /\ len v = len vec + 1 /\ cap v < len v.
Proof.
  intros Hcap Hfull Hlen Hcells. unfold sptAppendSizeVector.
  replace (cap vec <=? len vec) with true by (symmetry; apply Z.leb_le; lia).
  assert (Hhalf : cap vec / 2 = 0) by (apply Z.div_small; lia).
  rewrite Hhalf, (size_add_small (cap vec) 0), Z.add_0_r by lia.
  destruct (realloc _ _ _ h) as [[newdata|] h0] eqn:Hr; intros [= <- _].
  apply realloc_same_size in Hr; [|lia]. subst newdata. simpl.
  rewrite store_outside by lia. rewrite size_add_small by lia.
  repeat split; lia.
Qed.

(** Appending list after list keeps the capacity within twice the final
    length, so the capacity never wraps within the bound. *)
Lemma append_sizes_spec (values : list Z) (vec : sptSizeVector) (h : heap) :
  vec_ok vec -> grants_all h ->
  2 * Z.max (cap vec) (2 * (len vec + Z.of_nat (length values))) <= SIZE_MAX ->
  exists v h',
    append_sizes vec values h = (Ok v, h') /\ vec_ok v /\ grants_all h'
    /\ elements 0 v = elements 0 vec ++ values.
Proof.
  revert vec h. induction values as [|value rest IH]; intros vec h Hok Hall Hmax.
  - exists vec, h. simpl. rewrite app_nil_r. auto.
  - assert (Hok' := Hok). destruct Hok' as (Hl & Hc & Hd).
    assert (Hhalf : cap vec / 2 <= cap vec) by (apply Z.div_le_upper_bound; lia).
    assert (Hhalf' : 1 <= cap vec / 2) by (apply Z.div_le_lower_bound; lia).
    assert (Hroom : cap vec + cap vec / 2 <= SIZE_MAX) by lia.
    simpl length in Hmax.
    assert (Hstep : exists v1 h1,
               sptAppendSizeVector vec value h = (Ok v1, h1) /\ grants_all h1).
    { unfold sptAppendSizeVector. destruct (cap vec <=? len vec).
      - destruct (realloc_grants id (data vec) (size_add (cap vec) (cap vec / 2)) h Hall)
          as (cells & h1 & -> & Hall1).
        eauto.
      - eauto. }
    destruct Hstep as (v1 & h1 & Happ & Hall1).
    pose proof (sptAppendSizeVector_ok _ _ _ _ _ Hok Hroom Happ) as (Hok1 & Hlen1 & _).
    assert (Hel : elements 0 v1 = elements 0 vec ++ [value] /\ cap v1 <= Z.max (cap vec) (2 * len vec)).
    { revert Happ. unfold sptAppendSizeVector.
      destruct (cap vec <=? len vec) eqn:Hfull;
        [apply Z.leb_le in Hfull | apply Z.leb_gt in Hfull].
      - destruct (realloc _ _ _ h) as [[newdata|] h0] eqn:Hr; intros [= <- _].
        rewrite (size_add_small (cap vec)) in Hr |- * by lia.
        split; [|cbn [cap]; lia].
        apply elements_extend; [lia | cbn [len length]; rewrite size_add_small by lia; lia | |].
        + intros k Hk. simpl. rewrite cell_store_other by lia.
          apply (cell_realloc _ _ _ _ _ _ _ _ Hr); lia.
        + intros j Hj. simpl in Hj. replace j with 0 by lia. rewrite Z.add_0_r.
          simpl. apply cell_store_same. apply length_realloc in Hr. lia.
      - intros [= <- _]. split; [|cbn [cap]; lia].
        apply elements_extend; [lia | cbn [len length]; rewrite size_add_small by lia; lia | |].
        + intros k Hk. simpl. apply cell_store_other; lia.
        + intros j Hj. simpl in Hj. replace j with 0 by lia. rewrite Z.add_0_r.
          simpl. apply cell_store_same. lia. }
    destruct Hel as [Hel Hcap1].
    destruct (IH v1 h1 Hok1 Hall1) as (v & h' & Hrest & Hokv & Hall' & Helv); [lia|].
    exists v, h'. simpl. rewrite Happ.
    split; [exact Hrest|]. split; [exact Hokv|]. split; [exact Hall'|].
    rewrite Helv, Hel, <- app_assoc. reflexivity.
Qed.

(** X9.  Appending the values of a list one by one to a size vector, with
    memory granted: every call succeeds, and the vector ends with its
    former elements followed by the list, whatever the number of times the
    buffer was moved. *)
Theorem X9_appended_values_read_back (vec : sptSizeVector) (values : list Z) (h : heap) :
  vec_ok vec -> grants_all h ->
  4 * (cap vec + Z.of_nat (length values)) <= SIZE_MAX ->
  exists v h',
    append_sizes vec values h = (Ok v, h') /\ vec_ok v
    /\ elements 0 v = elements 0 vec ++ values.
Proof.
  intros Hok Hall Hmax.
  destruct (append_sizes_spec values vec h Hok Hall) as (v & h' & Hrun & Hokv & _ & Hel).
  - destruct Hok as (Hl & Hc & Hd). lia.
  - exists v, h'. auto.
Qed.

(** ** Appending a range *)

Lemma cell_append_sizes_loop (fuel : nat) (i : Z) (cells : list Z) (at_len : Z)
    (append_vec : sptSizeVector) (k : Z) :
  0 <= i <= len append_vec -> 0 <= at_len ->
  at_len + len append_vec <= Z.of_nat (length cells) ->
  at_len + len append_vec <= SIZE_MAX ->
  fuel = Z.to_nat (len append_vec - i) -> 0 <= k ->
  size_cell (append_sizes_loop fuel i cells at_len append_vec) k
  = if (at_len + i <=? k) && (k <? at_len + len append_vec)
    then size_cell (data append_vec) (k - at_len)
    else size_cell cells k.
Proof.
  revert i cells.
  induction fuel as [|fuel IH]; intros i cells Hi Hat Hcells Hmax Hfuel Hk; simpl.
  - replace ((at_len + i <=? k) && (k <? at_len + len append_vec)) with false;
      [reflexivity|].
    symmetry. apply andb_false_iff.
    destruct (Z.leb_spec (at_len + i) k); [right; apply Z.ltb_ge; lia | left; reflexivity].
  - replace (i <? len append_vec) with true by (symmetry; apply Z.ltb_lt; lia).
    rewrite (size_add_small i 1), (size_add_small at_len i) by lia.
    rewrite IH; [|lia | lia | rewrite length_store; lia | lia | lia | lia].
    destruct (Z.eq_dec k (at_len + i)) as [->|Hne].
    + replace (at_len + (i + 1) <=? at_len + i) with false
        by (symmetry; apply Z.leb_gt; lia).
      rewrite Z.leb_refl.
      replace (at_len + i <? at_len + len append_vec) with true
        by (symmetry; apply Z.ltb_lt; lia).
      simpl. replace (at_len + i - at_len) with i by lia.
      apply cell_store_same. lia.
    + unfold size_cell at 2. rewrite cell_store_other by lia. fold (size_cell cells k).
      destruct (Z.leb_spec (at_len + (i + 1)) k), (Z.leb_spec (at_len + i) k);
        try lia; reflexivity.
Qed.

(** X10.  [sptAppendSizeVectorWithVector] puts the elements of the second
    vector behind those of the first, in their order. *)
Theorem X10_append_size_range_elements (vec append_vec : sptSizeVector) (h h' : heap)
    (v : sptSizeVector) :
  vec_ok vec -> vec_ok append_vec -> cap vec + cap append_vec <= SIZE_MAX ->
  sptAppendSizeVectorWithVector vec append_vec h = (Ok v, h') ->
  vec_ok v /\ elements 0 v = elements 0 vec ++ elements 0 append_vec.
Proof.
  intros Hok Hok' Hmax Happ.
  pose proof (sptAppendSizeVectorWithVector_ok _ _ _ _ _ Hok Hok' Hmax Happ)
    as [Hokv Hlen].
  split; [exact Hokv|].
  destruct Hok as (Hl & Hc & Hd). destruct Hok' as (Hl' & Hc' & Hd').
  apply elements_extend; [lia | rewrite length_elements; lia | |].
  - intros k Hk. revert Happ. unfold sptAppendSizeVectorWithVector.
    rewrite (size_add_small (len vec)) by lia.
    destruct (cap vec <=? len vec + len append_vec) eqn:Hfull;
      [apply Z.leb_le in Hfull | apply Z.leb_gt in Hfull].
    + destruct (realloc _ _ _ h) as [[newdata|] h0] eqn:Hr; intros [= <- _].
      rewrite (size_add_small (cap vec)) in Hr by lia.
      pose proof (length_realloc _ _ _ _ _ _ Hr) as Hnew.
      cbn [data]. fold (size_cell (append_sizes_loop (Z.to_nat (len append_vec)) 0
                                     newdata (len vec) append_vec) k).
      rewrite cell_append_sizes_loop by lia.
      replace (len vec + 0 <=? k) with false by (symmetry; apply Z.leb_gt; lia).
      simpl. apply (cell_realloc _ _ _ _ _ _ _ _ Hr); lia.
    + intros [= <- _]. cbn [data].
      fold (size_cell (append_sizes_loop (Z.to_nat (len append_vec)) 0
                         (data vec) (len vec) append_vec) k).
      rewrite cell_append_sizes_loop by lia.
      replace (len vec + 0 <=? k) with false by (symmetry; apply Z.leb_gt; lia).
      reflexivity.
  - intros j Hj. rewrite length_elements in Hj. rewrite cell_elements by lia.
    revert Happ. unfold sptAppendSizeVectorWithVector.
    rewrite (size_add_small (len vec)) by lia.
    destruct (cap vec <=? len vec + len append_vec) eqn:Hfull;
      [apply Z.leb_le in Hfull | apply Z.leb_gt in Hfull].
    + destruct (realloc _ _ _ h) as [[newdata|] h0] eqn:Hr; intros [= <- _].
      rewrite (size_add_small (cap vec)) in Hr by lia.
      pose proof (length_realloc _ _ _ _ _ _ Hr) as Hnew.
      cbn [data]. fold (size_cell (append_sizes_loop (Z.to_nat (len append_vec)) 0
                                     newdata (len vec) append_vec) (len vec + j)).
      rewrite cell_append_sizes_loop by lia.
      replace (len vec + 0 <=? len vec + j) with true by (symmetry; apply Z.leb_le; lia).
      replace (len vec + j <? len vec + len append_vec) with true
        by (symmetry; apply Z.ltb_lt; lia).
      simpl. replace (len vec + j - len vec) with j by lia. reflexivity.
    + intros [= <- _]. cbn [data].
      fold (size_cell (append_sizes_loop (Z.to_nat (len append_vec)) 0
                         (data vec) (len vec) append_vec) (len vec + j)).
      rewrite cell_append_sizes_loop by lia.
      replace (len vec + 0 <=? len vec + j) with true by (symmetry; apply Z.leb_le; lia).
      replace (len vec + j <? len vec + len append_vec) with true
        by (symmetry; apply Z.ltb_lt; lia).
      simpl. replace (len vec + j - len vec) with j by lia. reflexivity.
Qed.

Lemma length_append_values_loop (fuel : nat) (i : Z) (vec append_vec : sptVector) :
  length (data (append_values_loop fuel i vec append_vec)) = length (data vec).
Proof.
  revert i vec. induction fuel as [|fuel IH]; intros i vec; simpl; [reflexivity|].
  destruct (i <? len append_vec); [|reflexivity].
  rewrite IH. simpl. apply length_store.
Qed.

(** The loop of the value-vector range append writes at [len + i] while both
    [len] and [i] grow: turn [j] writes two cells behind turn [j-1]. *)
Lemma append_values_loop_kept (fuel : nat) (i : Z) (vec append_vec : sptVector) (k : Z) :
  0 <= i -> 0 <= len vec ->
  len vec + i + 2 * (len append_vec - i) <= SIZE_MAX -> 0 <= k ->
  k < len vec + i \/ (exists j, 0 <= j /\ k = len vec + i + 2 * j + 1) ->
  scalar_cell (data (append_values_loop fuel i vec append_vec)) k
  = scalar_cell (data vec) k.
Proof.
  revert i vec. induction fuel as [|fuel IH]; intros i vec Hi Hl Hmax Hk Hwhere; simpl;
    [reflexivity|].
  destruct (i <? len append_vec) eqn:Hlt; [apply Z.ltb_lt in Hlt | reflexivity].
  rewrite (size_add_small i 1), (size_add_small (len vec) i),
    (size_add_small (len vec) 1) by lia.
  rewrite IH; cbn [len data]; [|lia | lia | lia | lia |].
  - apply cell_store_other; [lia|]. destruct Hwhere as [Hlow | (j & Hj & ->)]; lia.
  - destruct Hwhere as [Hlow | (j & Hj & ->)]; [left; lia|].
    destruct (Z.eq_dec j 0) as [->|Hne]; [left; lia|].
    right. exists (j - 1). lia.
Qed.

Lemma append_values_loop_written (fuel : nat) (i : Z) (vec append_vec : sptVector)
    (j : Z) :
  0 <= i -> 0 <= len vec ->
  len vec + i + 2 * (len append_vec - i) <= SIZE_MAX ->
  fuel = Z.to_nat (len append_vec - i) -> i <= j < len append_vec ->
  len vec + i + 2 * (j - i) < Z.of_nat (length (data vec)) ->
  scalar_cell (data (append_values_loop fuel i vec append_vec)) (len vec + i + 2 * (j - i))
  = scalar_cell (data append_vec) j.
Proof.
  revert i vec. induction fuel as [|fuel IH]; intros i vec Hi Hl Hmax Hfuel Hj Hin; simpl;
    [lia|].
  replace (i <? len append_vec) with true by (symmetry; apply Z.ltb_lt; lia).
  rewrite (size_add_small i 1), (size_add_small (len vec) i),
    (size_add_small (len vec) 1) by lia.
  destruct (Z.eq_dec j i) as [->|Hne].
  - replace (len vec + i + 2 * (i - i)) with (len vec + i) by lia.
    rewrite append_values_loop_kept; cbn [len data]; [|lia | lia | lia | lia | left; lia].
    apply cell_store_same. lia.
  - replace (len vec + i + 2 * (j - i)) with (len vec + 1 + (i + 1) + 2 * (j - (i + 1)))
      by lia.
    apply (IH (i + 1) (Vec (len vec + 1) (cap vec) _)); cbn [len data];
      rewrite ?length_store; lia.
Qed.

(** X11.  Where [sptAppendVectorWithVector] puts the values, in a vector
    with room: the loop writes [data[len + i]] and increments [len] in the
    same turn, so value [j] lands at [len + 2j].  The cells in between, at
    [len + 2j + 1], keep what they held, and [len] grows by the number of
    values only. *)
Theorem X11_append_value_range_writes_every_other_cell (vec append_vec : sptVector)
    (h : heap) :
  0 <= len vec < cap vec -> 0 <= len append_vec ->
  len vec + 2 * len append_vec <= SIZE_MAX ->
  exists out,
    sptAppendVectorWithVector vec append_vec h = (Ok out, h)
    /\ len out = len vec + len append_vec /\ cap out = cap vec
    /\ (forall j, 0 <= j < len append_vec ->
          len vec + 2 * j < Z.of_nat (length (data vec)) ->
          scalar_cell (data out) (len vec + 2 * j) = scalar_cell (data append_vec) j)
    /\ (forall k, 0 <= k < len vec -> scalar_cell (data out) k = scalar_cell (data vec) k)
    /\ (forall j, 0 <= j ->
          scalar_cell (data out) (len vec + 2 * j + 1)
          = scalar_cell (data vec) (len vec + 2 * j + 1)).
Proof.
  intros Hlen Hlen' Hmax. unfold sptAppendVectorWithVector.
  replace (cap vec <=? len vec) with false by (symmetry; apply Z.leb_gt; lia).
  eexists. split; [reflexivity|].
  destruct (len_append_values_loop (Z.to_nat (len append_vec)) 0 vec append_vec)
    as [Hl Hc]; [lia | lia | lia | lia | lia |].
  split; [lia|]. split; [exact Hc|]. split; [|split].
  - intros j Hj Hin.
    pose proof (append_values_loop_written (Z.to_nat (len append_vec)) 0 vec append_vec j)
      as Hw.
    replace (len vec + 0 + 2 * (j - 0)) with (len vec + 2 * j) in Hw by lia.
    apply Hw; lia.
  - intros k Hk. apply append_values_loop_kept; [lia | lia | lia | lia | left; lia].
  - intros j Hj. apply append_values_loop_kept; [lia | lia | lia | lia |].
    right. exists j. lia.
Qed.

(** ** Resizing *)



(** ** The vectors added for HiCOO *)

Section HiCOOFacts.
Context {A : Type} (mk : Z -> A).



Lemma hicoo_append_elements (d : A) (v vec : vec A) (value : A) (h h' : heap) :
  vec_ok vec -> cap vec + cap vec / 2 <= SIZE_MAX ->
  hicoo_append mk vec value h = (Ok v, h') ->
  vec_ok v /\ elements d v = elements d vec ++ [value]
  /\ (len vec < cap vec -> cap v = cap vec /\ h' = h)
  /\ (len vec = cap vec -> cap v = cap vec + cap vec / 2 /\ cap vec < cap v).
Proof.
  intros (Hl & Hc & Hd) Hmax. unfold hicoo_append.
  assert (Hhalf : 1 <= cap vec / 2) by (apply Z.div_le_lower_bound; lia).
  destruct (cap vec <=? len vec) eqn:Hfull;
    [apply Z.leb_le in Hfull | apply Z.leb_gt in Hfull].
  - destruct (realloc _ _ _ h) as [[newdata|] h0] eqn:Hr; intros [= <- _].
    rewrite (size_add_small (cap vec)) in Hr |- * by lia.
    pose proof (length_realloc _ _ _ _ _ _ Hr) as Hnew.
    split; [|split; [|split; [intros ?; exfalso; lia | cbn [cap]; lia]]].
    + unfold vec_ok. cbn [len cap data]. rewrite length_store, size_add_small by lia. lia.
    + apply elements_extend;
        [lia | cbn [len length]; rewrite size_add_small by lia; lia | |].
      * intros k Hk. cbn [data]. rewrite cell_store_other by lia.
        apply (cell_realloc _ _ _ _ _ _ _ _ Hr); lia.
      * intros j Hj. cbn [length] in Hj. replace j with 0 by lia. rewrite Z.add_0_r.
        cbn [data]. apply cell_store_same. lia.
  - intros [= <- <-].
    split; [|split; [|split; [intros _; split; reflexivity | intros ?; exfalso; lia]]].
    + unfold vec_ok. cbn [len cap data]. rewrite length_store, size_add_small by lia. lia.
    + apply elements_extend;
        [lia | cbn [len length]; rewrite size_add_small by lia; lia | |].
      * intros k Hk. cbn [data]. apply cell_store_other; lia.
      * intros j Hj. cbn [length] in Hj. replace j with 0 by lia. rewrite Z.add_0_r.
        cbn [data]. apply cell_store_same. lia.
Qed.
End HiCOOFacts.



(** X16.  [Append] of the four index vectors of HiCOO: the value comes
    behind the elements the vector had; the allocator is asked only when
    the vector is full, and the capacity then grows by its half. *)
Theorem X16_append_index_vectors_elements
    (append : vec Z -> Z -> heap -> result (vec Z) * heap) (v vec : vec Z) (value : Z)
    (h h' : heap) :
  In append [sptAppendElementIndexVector; sptAppendBlockIndexVector;
             sptAppendIndexVector; sptAppendNnzIndexVector] ->
  vec_ok vec -> cap vec + cap vec / 2 <= SIZE_MAX ->
  append vec value h = (Ok v, h') ->
  vec_ok v /\ elements 0 v = elements 0 vec ++ [value]
  /\ (len vec < cap vec -> cap v = cap vec /\ h' = h)
  /\ (len vec = cap vec -> cap v = cap vec + cap vec / 2 /\ cap vec < cap v).
Proof.
  intros Happend Hok Hmax Hrun.
  assert (Hsame : append = hicoo_append id)
    by (simpl in Happend; intuition (subst; reflexivity)).
  subst append. exact (hicoo_append_elements id 0 _ _ _ _ _ Hok Hmax Hrun).
Qed.

(** X17.  [sptAppendValueVector]: the same for the values. *)
Theorem X17_append_value_vector_elements (vec : sptValueVector) (value : sptScalar)
    (h h' : heap) (v : sptValueVector) :
  vec_ok vec -> cap vec + cap vec / 2 <= SIZE_MAX ->
  sptAppendValueVector vec value h = (Ok v, h') ->
  vec_ok v /\ elements (scalar_bits 0) v = elements (scalar_bits 0) vec ++ [value]
  /\ (len vec < cap vec -> cap v = cap vec /\ h' = h)
  /\ (len vec = cap vec -> cap v = cap vec + cap vec / 2 /\ cap vec < cap v).
Proof.
  intros Hok Hmax Hrun.
  exact (hicoo_append_elements scalar_bits (scalar_bits 0) _ _ _ _ _ Hok Hmax Hrun).
Qed.

(** ** Releasing a vector *)

Lemma free_spec (m m' : memory) (a : addr) :
  free m a = Some m' -> is_Some (m !! a) /\ m' = delete a m.
Proof.
  unfold free. destruct (m !! a) as [b|] eqn:Hb; intros [= <-].
  split; [eauto | reflexivity].
Qed.

Lemma free_again (m m' : memory) (a : addr) : free m a = Some m' -> free m' a = None.
Proof.
  intros Hfree. apply free_spec in Hfree as [_ ->].
  unfold free. rewrite lookup_delete_eq. reflexivity.
Qed.

(** X18.  [sptFreeVector] and [sptFreeSizeVector] release the buffer and
    nothing else, and leave the struct as it is: the block of the buffer is
    gone, every other block is kept, and a second call on the same struct
    frees a block that is not there. *)
Theorem X18_free_vector_releases_buffer_only
    (release : memory -> vec_ref -> option memory) (m m' : memory) (vec : vec_ref) :
  In release [sptFreeVector; sptFreeSizeVector] ->
  release m vec = Some m' ->
  is_Some (m !! ref_data vec) /\ m' !! ref_data vec = None
  /\ (forall a, a <> ref_data vec -> m' !! a = m !! a)
  /\ release m' vec = None.
Proof.
  intros Hrelease Hrun.
  assert (Hsame : release = fun m vec => free m (ref_data vec))
    by (simpl in Hrelease; intuition (subst; reflexivity)).
  subst release. cbv beta in *.
  pose proof (free_again _ _ _ Hrun) as Hagain.
  apply free_spec in Hrun as [Hlive ->].
  split; [exact Hlive|]. split; [apply lookup_delete_eq|]. split; [|exact Hagain].
  intros a Ha. apply lookup_delete_ne. congruence.
Qed.

(** X19.  [Free] of the four index vectors of HiCOO: the buffer is released,
    [len] and [cap] are 0 afterwards, and [data] still holds the address of
    the released block, so a second call on the struct is a double free. *)
Theorem X19_free_index_vectors_keep_pointer
    (release : memory -> vec_ref -> option (memory * vec_ref)) (m m' : memory)
    (vec vec' : vec_ref) :
  In release [sptFreeElementIndexVector; sptFreeBlockIndexVector; sptFreeIndexVector;
              sptFreeNnzIndexVector] ->
  release m vec = Some (m', vec') ->
  ref_len vec' = 0 /\ ref_cap vec' = 0 /\ ref_data vec' = ref_data vec
  /\ m' !! ref_data vec = None
  /\ (forall a, a <> ref_data vec -> m' !! a = m !! a)
  /\ release m' vec' = None.
Proof.
  intros Hrelease.
  assert (Hsame : release = hicoo_free)
    by (simpl in Hrelease; intuition (subst; reflexivity)).
  subst release. unfold hicoo_free.
  destruct (free m (ref_data vec)) as [m1|] eqn:Hfree; simpl; intros [= <- <-].
  cbn [ref_len ref_cap ref_data].
  rewrite (free_again _ _ _ Hfree). apply free_spec in Hfree as [_ ->].
  do 3 (split; [reflexivity|]). split; [apply lookup_delete_eq|]. split; [|reflexivity].
  intros a Ha. apply lookup_delete_ne. congruence.
Qed.

(** X20.  [sptFreeValueVector] clears [len] and [cap] before it frees; it
    leaves what [sptFreeIndexVector] leaves, the kept address included. *)
Theorem X20_free_value_vector_as_index_vector (m : memory) (vec : vec_ref) :
  sptFreeValueVector m vec = sptFreeIndexVector m vec
  /\ (is_Some (sptFreeValueVector m vec) <-> is_Some (m !! ref_data vec))
  /\ forall m' vec',
       sptFreeValueVector m vec = Some (m', vec') ->
       vec' = VecRef 0 0 (ref_data vec) /\ m' = delete (ref_data vec) m
       /\ sptFreeValueVector m' vec' = None.
Proof.
  split; [reflexivity|]. unfold sptFreeValueVector. cbn [ref_data]. split.
  - unfold free. destruct (m !! ref_data vec) as [b|]; simpl; split; intros [x Hx];
      eauto; discriminate.
  - intros m' vec'.
    destruct (free m (ref_data vec)) as [m1|] eqn:Hfree; simpl; intros [= <- <-].
    cbn [ref_data]. rewrite (free_again _ _ _ Hfree).
    apply free_spec in Hfree as [_ ->]. auto.
Qed.

(** ** Where a cut falls *)

Lemma find_cut_first_turn (d : list Z) (low high step : Z) :
  0 <= low < high -> high <= SIZE_MAX ->
  find_cut d low high step
  = cut_loop (Z.to_nat (high - (low + 1))) d (low + 1) high (size_cell d low) 1 step.
Proof.
  intros Hlow Hmax. unfold find_cut.
  replace (Z.to_nat (high - low)) with (S (Z.to_nat (high - (low + 1)))) by lia. simpl.
  replace (low <? high) with true by (symmetry; apply Z.ltb_lt; lia).
  rewrite Z.eqb_refl. simpl. rewrite size_add_small by lia. reflexivity.
Qed.

Lemma count_index_values_first_turn (d : list Z) (low high : Z) :
  0 <= low < high -> high <= SIZE_MAX ->
  count_index_values d low high
  = count_loop (Z.to_nat (high - (low + 1))) d (low + 1) high (size_cell d low) 1.
Proof.
  intros Hlow Hmax. unfold count_index_values.
  replace (Z.to_nat (high - low)) with (S (Z.to_nat (high - (low + 1)))) by lia. simpl.
  replace (low <? high) with true by (symmetry; apply Z.ltb_lt; lia).
  rewrite Z.eqb_refl. simpl. rewrite size_add_small by lia. reflexivity.
Qed.

Lemma cut_loop_at_change (fuel : nat) (d : list Z) (i high last_index index_counts step : Z) :
  0 < i <= high -> high <= SIZE_MAX -> fuel = Z.to_nat (high - i) ->
  last_index = size_cell d (i - 1) ->
  cut_loop fuel d i high last_index index_counts step < high ->
  size_cell d (cut_loop fuel d i high last_index index_counts step)
  <> size_cell d (cut_loop fuel d i high last_index index_counts step - 1).
Proof.
  revert i last_index index_counts.
  induction fuel as [|fuel IH]; intros i last_index index_counts Hi Hmax Hfuel Hlast;
    simpl; [lia|].
  replace (i <? high) with true by (symmetry; apply Z.ltb_lt; lia).
  rewrite (size_add_small i 1) by lia.
  destruct (size_cell d i =? last_index) eqn:Hsame;
    [apply Z.eqb_eq in Hsame | apply Z.eqb_neq in Hsame]; simpl.
  - apply IH; [lia | lia | lia |]. replace (i + 1 - 1) with i by lia. congruence.
  - destruct (index_counts =? step).
    + intros _. congruence.
    + apply IH; [lia | lia | lia |]. replace (i + 1 - 1) with i by lia. reflexivity.
Qed.

Lemma find_cut_at_change (d : list Z) (low high step : Z) :
  0 <= low < high -> high <= SIZE_MAX ->
  find_cut d low high step < high ->
  size_cell d (find_cut d low high step) <> size_cell d (find_cut d low high step - 1).
Proof.
  intros Hlow Hmax. rewrite find_cut_first_turn by assumption.
  apply cut_loop_at_change; [lia | lia | lia |].
  replace (low + 1 - 1) with low by lia. reflexivity.
Qed.

(** X21.  A cut lies inside a range only where the index of the mode
    changes: [find_cut] returns the end of the range, or a position whose
    index differs from the index just before it.  Nonzeros with the same
    index in a mode are not separated by a cut of that mode. *)
Theorem X21_cut_falls_on_a_change_of_index (d : list Z) (low high step : Z) :
  0 <= low < high -> high <= SIZE_MAX ->
  low < find_cut d low high step <= high
  /\ (find_cut d low high step < high ->
      size_cell d (find_cut d low high step)
      <> size_cell d (find_cut d low high step - 1)).
Proof.
  intros Hlow Hmax. split.
  - apply find_cut_bounds; assumption.
  - apply find_cut_at_change; assumption.
Qed.

Lemma cut_loop_no_cut (fuel : nat) (d : list Z) (i high last_index index_counts step : Z) :
  0 <= i <= high -> high <= SIZE_MAX -> fuel = Z.to_nat (high - i) ->
  0 <= index_counts -> index_counts + (high - i) <= SIZE_MAX ->
  count_loop fuel d i high last_index index_counts <= step ->
  cut_loop fuel d i high last_index index_counts step = high.
Proof.
  revert i last_index index_counts.
  induction fuel as [|fuel IH]; intros i last_index index_counts Hi Hmax Hfuel Hc Hsum;
    simpl; [lia|].
  replace (i <? high) with true by (symmetry; apply Z.ltb_lt; lia).
  rewrite (size_add_small i 1), (size_add_small index_counts 1) by lia.
  destruct (negb (size_cell d i =? last_index)).
  - destruct (index_counts =? step) eqn:Hfull;
      [apply Z.eqb_eq in Hfull | apply Z.eqb_neq in Hfull].
    + intros Hcount. exfalso.
      pose proof (count_loop_bounds fuel d (i + 1) high (size_cell d i)
                    (index_counts + 1)). lia.
    + apply IH; lia.
  - apply IH; lia.
Qed.

(** X22.  A step as large as the count of the range cuts nothing off: the
    cut is the end of the range.  That is the case of one cut asked for in
    a mode, the step being the count itself. *)
Theorem X22_one_cut_keeps_the_range_whole (d : list Z) (low high step : Z) :
  0 <= low < high -> high <= SIZE_MAX ->
  (count_index_values d low high <= step -> find_cut d low high step = high)
  /\ step_of (count_index_values d low high) 1 = count_index_values d low high
  /\ find_cut d low high (step_of (count_index_values d low high) 1) = high.
Proof.
  intros Hlow Hmax.
  assert (Hwhole : forall s, count_index_values d low high <= s ->
                             find_cut d low high s = high).
  { intros s. rewrite find_cut_first_turn, count_index_values_first_turn by assumption.
    apply cut_loop_no_cut; lia. }
  pose proof (count_index_values_bounds d low high Hlow Hmax) as Hcount.
  assert (Hstep : step_of (count_index_values d low high) 1
                  = count_index_values d low high).
  { destruct (step_of_value (count_index_values d low high) 1) as [-> _]; [lia | lia|].
    rewrite Z.div_1_r. lia. }
  split; [apply Hwhole|]. split; [exact Hstep|].
  apply Hwhole. rewrite Hstep. lia.
Qed.

Lemma count_loop_to_cut (fuel : nat) (d : list Z) (i high last_index index_counts step : Z) :
  0 <= i <= high -> high <= SIZE_MAX -> fuel = Z.to_nat (high - i) ->
  0 <= index_counts <= step -> step <= SIZE_MAX ->
  let cut := cut_loop fuel d i high last_index index_counts step in
  count_loop (Z.to_nat (cut - i)) d i cut last_index index_counts <= step
  /\ (cut < high ->
      count_loop (Z.to_nat (cut - i)) d i cut last_index index_counts = step).
Proof.
  revert i last_index index_counts.
  induction fuel as [|fuel IH]; intros i last_index index_counts Hi Hmax Hfuel Hc Hstep.
  - simpl. replace (Z.to_nat (i - i)) with O by lia. simpl. split; lia.
  - cbv zeta.
    change (cut_loop (S fuel) d i high last_index index_counts step)
      with (if i <? high
            then if negb (size_cell d i =? last_index)
                 then if index_counts =? step then i
                      else cut_loop fuel d (size_add i 1) high (size_cell d i)
                             (size_add index_counts 1) step
                 else cut_loop fuel d (size_add i 1) high last_index index_counts step
            else i).
    replace (i <? high) with true by (symmetry; apply Z.ltb_lt; lia).
    rewrite (size_add_small i 1) by lia.
    destruct (negb (size_cell d i =? last_index)) eqn:Hchange.
    + destruct (index_counts =? step) eqn:Hfull;
        [apply Z.eqb_eq in Hfull | apply Z.eqb_neq in Hfull].
      * replace (Z.to_nat (i - i)) with O by lia. simpl. split; lia.
      * rewrite (size_add_small index_counts 1) by lia.
        pose proof (cut_loop_bounds fuel d (i + 1) high (size_cell d i)
                      (index_counts + 1) step ltac:(lia) Hmax) as Hcut.
        specialize (IH (i + 1) (size_cell d i) (index_counts + 1)
                      ltac:(lia) Hmax ltac:(lia) ltac:(lia) Hstep).
        cbv zeta in IH.
        set (cut := cut_loop fuel d (i + 1) high (size_cell d i) (index_counts + 1) step)
          in *.
        replace (Z.to_nat (cut - i)) with (S (Z.to_nat (cut - (i + 1)))) by lia.
        simpl. replace (i <? cut) with true by (symmetry; apply Z.ltb_lt; lia).
        rewrite Hchange, (size_add_small i 1), (size_add_small index_counts 1) by lia.
        exact IH.
    + pose proof (cut_loop_bounds fuel d (i + 1) high last_index index_counts step
                    ltac:(lia) Hmax) as Hcut.
      specialize (IH (i + 1) last_index index_counts
                    ltac:(lia) Hmax ltac:(lia) ltac:(lia) Hstep).
      cbv zeta in IH.
      set (cut := cut_loop fuel d (i + 1) high last_index index_counts step) in *.
      replace (Z.to_nat (cut - i)) with (S (Z.to_nat (cut - (i + 1)))) by lia.
      simpl. replace (i <? cut) with true by (symmetry; apply Z.ltb_lt; lia).
      rewrite Hchange, (size_add_small i 1) by lia.
      exact IH.
Qed.

(** X23.  What a cut groups: counted as the code counts, the range from
    [low] to the cut holds [step] index values when the cut lies inside the
    range, and no more than [step] when it is the end of the range. *)
Theorem X23_cut_groups_step_values (d : list Z) (low high step : Z) :
  0 <= low < high -> high <= SIZE_MAX -> 1 <= step <= SIZE_MAX ->
  count_index_values d low (find_cut d low high step) <= step
  /\ (find_cut d low high step < high ->
      count_index_values d low (find_cut d low high step) = step).
Proof.
  intros Hlow Hmax Hstep.
  pose proof (find_cut_bounds d low high step Hlow Hmax) as Hcut.
  rewrite count_index_values_first_turn by lia.
  rewrite find_cut_first_turn in * by assumption.
  apply count_loop_to_cut; lia.
Qed.

(** X24.  The step is the count divided by the number of cuts, rounded up:
    [cuts] groups of [step] values cover the count, and [cuts] groups of
    one value less would not. *)
Theorem X24_step_is_count_over_cuts_rounded_up (index_counts cuts : Z) :
  1 <= index_counts <= SIZE_MAX -> 0 < cuts ->
  (step_of index_counts cuts - 1) * cuts < index_counts
  /\ index_counts <= step_of index_counts cuts * cuts.
Proof.
  intros Hc Hcuts.
  destruct (step_of_value index_counts cuts Hc Hcuts) as [-> _].
  pose proof (Z.mul_div_le (index_counts - 1) cuts Hcuts).
  pose proof (Z.mul_succ_div_gt (index_counts - 1) cuts Hcuts).
  nia.
Qed.

(** ** A call that was refused memory *)

(** The descent does not depend on the allocator: [start] reserved the
    room its three appends need. *)
Lemma descend_step_heap (mode : Z) (status : spt_SplitStatus) (h : heap) :
  stack_inv status -> len (partial_low status) = mode + 1 ->
  mode < nmodes (tsr status) ->
  descend_step mode status h
  = (fst (fst (descend_step mode status [])), snd (fst (descend_step mode status [])), h).
Proof.
  intros Hinv Hdepth Hmode.
  destruct (Z.eq_dec (cuts_at status mode) 0) as [Hzero|Hcuts].
  - rewrite !descend_step_zero by assumption. reflexivity.
  - destruct (descend_step_done mode status h Hinv Hdepth Hmode Hcuts)
      as (status1 & Hrun & _).
    destruct (descend_step_done mode status [] Hinv Hdepth Hmode Hcuts)
      as (status2 & Hrun' & _).
    rewrite Hrun' . cbn [fst snd]. rewrite Hrun. f_equal. f_equal.
    revert Hrun Hrun'.
    destruct Hinv as [Hn Hnnz Hd Hhl Hsl Hlc Hhc Hsc Hlcells Hhcells Hscells Hlev Hnest
                        Hwhole].
    destruct (Hlev mode ltac:(lia)) as (Hlow0 & Hlt & Hhigh).
    unfold low_at, high_at, cuts_at in *. unfold descend_step.
    set (low := size_cell (data (partial_low status)) mode) in *.
    set (high := size_cell (data (partial_high status)) mode) in *.
    replace (low <? high) with true by (symmetry; apply Z.ltb_lt; lia).
    replace (size_cell (data (cuts_by_mode status)) mode =? 0) with false
      by (symmetry; apply Z.eqb_neq; lia).
    rewrite andb_false_r. simpl negb. cbv iota.
    rewrite !sptAppendSizeVector_room by lia.
    unfold with_index_step.
    cbn [tsr cuts_by_mode partial_low partial_high index_step no_more len cap data].
    rewrite !sptAppendSizeVector_room by lia.
    unfold with_partial_low.
    cbn [tsr cuts_by_mode partial_low partial_high index_step no_more len cap data].
    rewrite !sptAppendSizeVector_room by lia.
    intros [= <-] [= <-]. reflexivity.
Qed.

Lemma descend_heap (fuel : nat) (mode : Z) (status : spt_SplitStatus) (h : heap) :
  stack_inv status -> len (partial_low status) = mode + 1 ->
  mode <= nmodes (tsr status) -> fuel = Z.to_nat (nmodes (tsr status) - mode) ->
  descend fuel mode status h
  = (fst (fst (descend fuel mode status [])), snd (fst (descend fuel mode status [])), h).
Proof.
  revert mode status.
  induction fuel as [|fuel IH]; intros mode status Hinv Hdepth Hmode Hfuel;
    [reflexivity|].
  simpl.
  replace (mode <? nmodes (tsr status)) with true by (symmetry; apply Z.ltb_lt; lia).
  rewrite (descend_step_heap mode status h) by (assumption || lia).
  destruct (Z.eq_dec (cuts_at status mode) 0) as [Hzero|Hcuts].
  - rewrite !descend_step_zero by (assumption || lia). reflexivity.
  - destruct (descend_step_done mode status [] Hinv Hdepth ltac:(lia) Hcuts)
      as (status1 & -> & Hinv1 & Hdepth1 & Htsr & _).
    cbn [fst snd].
    pose proof (inv_modes _ Hinv) as Hn. pose proof (inv_depth _ Hinv) as Hd.
    rewrite size_add_small by lia.
    apply IH; [assumption | lia | rewrite Htsr; lia | rewrite Htsr; lia].
Qed.

(** X25.  A call of [produce] that fails for want of memory can be made
    again: the failed call has only carried the descent through, where the
    allocator is not asked, so the next call, on the status it left, does
    what the same call would have done on the status before. *)
Theorem X25_refused_call_can_be_repeated (t : sptSparseTensor) (cuts : list Z)
    (dest : sptSparseTensor) (status status1 : spt_SplitStatus) (h h1 : heap) :
  tensor_wf t -> reachable t cuts status ->
  spt_SplitSparseTensor dest status h = (Failed SPTERR_OS_ERROR, status1, h1) ->
  forall dest' h',
    spt_SplitSparseTensor dest' status1 h' = spt_SplitSparseTensor dest' status h'.
Proof.
  intros (Hn & Hnnz & _) Hreach Hcall dest' h'.
  destruct (reachable_inv t cuts status Hn Hnnz Hreach) as [Hinv _].
  pose proof (inv_depth _ Hinv) as Hd. pose proof (inv_modes _ Hinv) as Hmodes.
  revert Hcall. unfold spt_SplitSparseTensor.
  destruct (no_more status =? 0) eqn:Hflag; simpl negb; cbv iota; [|discriminate].
  rewrite (size_sub_small (len (partial_low status)) 1) by lia.
  set (n := nmodes (tsr status)) in *.
  set (mode := len (partial_low status) - 1) in *.
  destruct (descend_cases (Z.to_nat (n - mode)) mode status h Hinv ltac:(lia) ltac:(lia)
              eq_refl)
    as (status2 & Hinv2 & Htsr2 & _ & Hflag2 & _ & [[Hrun Hfull]|[Hrun _]]);
    rewrite Hrun; [|discriminate].
  destruct (materialize _ _ _ _ _) as [[d|e] h2]; [discriminate|].
  intros [= _ <- _].
  pose proof (descend_heap (Z.to_nat (n - mode)) mode status h Hinv ltac:(lia) ltac:(lia)
                eq_refl) as Hsame.
  rewrite Hrun in Hsame. injection Hsame as Hr Hs.
  rewrite (descend_heap (Z.to_nat (n - mode)) mode status h') by (reflexivity || lia || assumption).
  rewrite <- Hr, <- Hs.
  rewrite Hflag2, Hflag. simpl negb. cbv iota.
  rewrite Htsr2, Hfull. fold n.
  rewrite (size_sub_small (n + 1) 1) by lia.
  replace (n + 1 - 1) with n by lia. replace (Z.to_nat (n - n)) with O by lia.
  cbn [descend]. rewrite ?Htsr2. reflexivity.
Qed.

(** ** The chunks of a run, taken together *)

(** Every chunk of a run was copied from a non-empty range of the source. *)
Lemma drive_chunks (fuel : nat) (dest : sptSparseTensor) (status : spt_SplitStatus)
    (h : heap) (cs : list chunk) :
  stack_inv status -> drive fuel dest status h = Exhausted cs ->
  Forall (fun c => 0 <= cut_low c /\ cut_low c < cut_high c
                   /\ cut_high c <= nnz (tsr status)
                   /\ exists h1 h2,
                        materialize dest (tsr status) (cut_low c) (cut_high c) h1
                        = (Ok (chunk_tensor c), h2)) cs.
Proof.
  revert status h cs.
  induction fuel as [|fuel IH]; intros status h cs Hinv; simpl; [discriminate|].
  destruct (spt_SplitSparseTensor dest status h) as [[[c|e|why] status1] h1] eqn:Hcall.
  - destruct (produce_keeps_inv _ _ _ _ _ _ Hinv Hcall) as (Hinv1 & Htsr & _).
    destruct (produce_done _ _ _ _ _ _ Hinv Hcall)
      as (_ & _ & Hlow & Hlt & Hhigh & Hcopy & _).
    destruct (drive fuel dest status1 h1) as [cs1| |] eqn:Hrest; simpl; try discriminate.
    intros [= <-]. constructor.
    + do 3 (split; [assumption|]). eauto.
    + apply IH in Hrest; [|assumption]. rewrite Htsr in Hrest. exact Hrest.
  - destruct e; try discriminate. intros [= <-]. constructor.
  - discriminate.
Qed.

Lemma split_all_chunks (fuel : nat) (t dest : sptSparseTensor) (cuts : list Z)
    (h : heap) (cs : list chunk) :
  0 <= nmodes t < SIZE_MAX -> 0 <= nnz t <= SIZE_MAX ->
  split_all fuel dest t cuts h = Exhausted cs ->
  Forall (fun c => 0 <= cut_low c /\ cut_low c < cut_high c /\ cut_high c <= nnz t
                   /\ exists h1 h2,
                        materialize dest t (cut_low c) (cut_high c) h1
                        = (Ok (chunk_tensor c), h2)) cs.
Proof.
  intros Hn Hnnz. unfold split_all.
  destruct (spt_StartSplitSparseTensor t cuts h) as [[status|e|why] h1] eqn:Hstart;
    try discriminate.
  apply start_done in Hstart as (_ & _ & Hinv & Htsr & _); try assumption.
  intros Hrun. apply drive_chunks in Hrun; [|assumption].
  rewrite Htsr in Hrun. exact Hrun.
Qed.

Lemma consecutive_sizes (cs : list chunk) (a b : Z) :
  consecutive a b (map chunk_range cs) ->
  Forall (fun c => nnz (chunk_tensor c) = cut_high c - cut_low c) cs ->
  Forall (fun c => 1 <= nnz (chunk_tensor c)) cs
  /\ Z.of_nat (length cs) <= b - a
  /\ fold_right Z.add 0 (map (fun c => nnz (chunk_tensor c)) cs) = b - a.
Proof.
  revert a. induction cs as [|c cs IH]; intros a; simpl.
  - intros -> _. split; [constructor|]. lia.
  - unfold chunk_range at 1. intros (Hlow & Hlt & Hrest) Hsizes.
    apply Forall_cons in Hsizes as [Hsize Hsizes].
    destruct (IH _ Hrest Hsizes) as (Hone & Hcount & Hsum).
    split; [constructor; [lia | exact Hone]|]. lia.
Qed.

(** X26.  The chunks of a run that reached [SPTERR_NO_MORE]: each holds a
    nonzero at least, so there are at most [nnz] of them, and their sizes
    add up to the [nnz] of the source. *)
Theorem X26_chunk_sizes_add_up (t dest : sptSparseTensor) (cuts : list Z) (h : heap)
    (fuel : nat) (cs : list chunk) :
  tensor_wf t -> split_all fuel dest t cuts h = Exhausted cs ->
  Forall (fun c => 1 <= nnz (chunk_tensor c)) cs
  /\ Z.of_nat (length cs) <= nnz t
  /\ fold_right Z.add 0 (map (fun c => nnz (chunk_tensor c)) cs) = nnz t.
Proof.
  intros (Hn & Hnnz & _) Hrun.
  pose proof (split_all_consecutive _ _ _ _ _ _ Hn Hnnz Hrun) as Hranges.
  pose proof (split_all_chunks _ _ _ _ _ _ Hn Hnnz Hrun) as Hchunks.
  destruct (consecutive_sizes cs 0 (nnz t) Hranges) as (Hone & Hcount & Hsum).
  - eapply Forall_impl; [exact Hchunks|]. cbv beta.
    intros c (Hlow & Hlt & Hhigh & h1 & h2 & Hcopy).
    apply materialize_nnz in Hcopy. rewrite Hcopy. apply size_sub_small. lia.
  - split; [exact Hone|]. lia.
Qed.

Lemma consecutive_le (ranges : list (Z * Z)) (a b : Z) : consecutive a b ranges -> a <= b.
Proof.
  revert a. induction ranges as [|[low high] ranges IH]; intros a; simpl.
  - lia.
  - intros (-> & Hlt & Hrest). apply IH in Hrest. lia.
Qed.

Lemma map_seq_from {A : Type} (g : nat -> A) (s n : nat) :
  map g (seq s n) = map (fun k => g (s + k)%nat) (seq 0 n).
Proof.
  revert s. induction n as [|n IH]; intros s; simpl; [reflexivity|].
  rewrite Nat.add_0_r. f_equal.
  rewrite (IH (S s)), <- seq_shift, map_map. apply map_ext. intros k.
  f_equal. lia.
Qed.

(** Pieces cut from consecutive ranges of a buffer, put end to end. *)
Lemma concat_consecutive {A : Type} (d : A) (src : list A) (f : chunk -> list A)
    (cs : list chunk) (a b : Z) :
  0 <= a -> consecutive a b (map chunk_range cs) ->
  Forall (fun c => f c = map (fun k => cell d src (cut_low c + Z.of_nat k))
                           (seq 0 (Z.to_nat (cut_high c - cut_low c)))) cs ->
  concat (map f cs)
  = map (fun k => cell d src (a + Z.of_nat k)) (seq 0 (Z.to_nat (b - a))).
Proof.
  revert a. induction cs as [|c cs IH]; intros a Ha; simpl.
  - intros -> _. rewrite Z.sub_diag. reflexivity.
  - unfold chunk_range at 1. intros (Hlow & Hlt & Hrest) Hpieces.
    apply Forall_cons in Hpieces as [Hpiece Hpieces].
    pose proof (consecutive_le _ _ _ Hrest) as Hle.
    rewrite (IH (cut_high c)) by (assumption || lia).
    rewrite Hpiece, Hlow.
    replace (Z.to_nat (b - a))
      with (Z.to_nat (cut_high c - a) + Z.to_nat (b - cut_high c))%nat by lia.
    rewrite seq_app, map_app. f_equal. simpl.
    rewrite (map_seq_from _ (Z.to_nat (cut_high c - a))).
    apply map_ext. intros k. f_equal. lia.
Qed.

(** X27.  The chunks of a run that reached [SPTERR_NO_MORE], put end to
    end, are the source: in every mode the index vectors of the chunks
    concatenated hold the indices of the source, and their value vectors
    concatenated hold its values. *)
Theorem X27_chunks_concatenated_are_the_source (t dest : sptSparseTensor)
    (cuts : list Z) (h : heap) (fuel : nat) (cs : list chunk) :
  tensor_wf t -> split_all fuel dest t cuts h = Exhausted cs ->
  (forall m, 0 <= m < nmodes t ->
     concat (map (fun c => elements 0 (inds_at (chunk_tensor c) m)) cs)
     = elements 0 (inds_at t m))
  /\ concat (map (fun c => elements (scalar_bits 0) (values (chunk_tensor c))) cs)
     = elements (scalar_bits 0) (values t).
Proof.
  intros Hwf Hrun. assert (Hwf' := Hwf). destruct Hwf' as (Hn & Hnnz & _ & _ & _ & _ & Hvals & _).
  pose proof (split_all_consecutive _ _ _ _ _ _ Hn Hnnz Hrun) as Hranges.
  pose proof (split_all_chunks _ _ _ _ _ _ Hn Hnnz Hrun) as Hchunks.
  split.
  - intros m Hm.
    rewrite (concat_consecutive 0 (data (inds_at t m)) _ cs 0 (nnz t)); [|lia|exact Hranges|].
    + destruct (tensor_wf_mode_cells t m Hwf Hm) as [Hlen _].
      unfold elements. rewrite Hlen, Z.sub_0_r. apply map_ext. intros k.
      rewrite Z.add_0_l. reflexivity.
    + eapply Forall_impl; [exact Hchunks|]. cbv beta.
      intros c (Hlow & Hlt & Hhigh & h1 & h2 & Hcopy).
      apply materialize_spec in Hcopy as (_ & _ & _ & _ & Hmodes & _); [|assumption|lia..].
      destruct (Hmodes m Hm) as [Hlen Hcells].
      unfold elements. rewrite Hlen. apply map_ext_in. intros k Hk. apply in_seq in Hk.
      apply Hcells. lia.
  - rewrite (concat_consecutive (scalar_bits 0) (data (values t)) _ cs 0 (nnz t));
      [|lia|exact Hranges|].
    + unfold elements. rewrite Hvals, Z.sub_0_r. apply map_ext. intros k.
      rewrite Z.add_0_l. reflexivity.
    + eapply Forall_impl; [exact Hchunks|]. cbv beta.
      intros c (Hlow & Hlt & Hhigh & h1 & h2 & Hcopy).
      apply materialize_spec in Hcopy as (_ & _ & _ & _ & _ & Hlen & Hcells);
        [|assumption|lia..].
      unfold elements. rewrite Hlen. apply map_ext_in. intros k Hk. apply in_seq in Hk.
      apply Hcells. lia.
Qed.

(** ** When [finish] is defined *)

(** X28.  [spt_FinishSplitSparseTensor] has a defined outcome exactly when
    the address holds a status whose four buffers are allocated, in blocks
    that differ from one another and from the status itself; and once it
    has run, a second call on the same address has none. *)
Theorem X28_finish_defined_on_distinct_live_blocks (m : memory) (p : addr) :
  (is_Some (spt_FinishSplitSparseTensor m p)
   <-> exists s, m !! p = Some (StatusBlock s)
                 /\ Forall (fun a => is_Some (m !! a)) (status_blocks s p)
                 /\ NoDup (status_blocks s p))
  /\ forall m' : memory,
       spt_FinishSplitSparseTensor m p = Some m' ->
       spt_FinishSplitSparseTensor m' p = None.
Proof.
  split; [split|].
  - intros [m' Hrun]. revert Hrun. unfold spt_FinishSplitSparseTensor, sptFreeSizeVector.
    destruct (m !! p) as [[| | | |s]|] eqn:Hp; try discriminate.
    set (b1 := ref_data (st_cuts_by_mode s)).
    set (b2 := ref_data (st_partial_low s)).
    set (b3 := ref_data (st_partial_high s)).
    set (b4 := ref_data (st_index_step s)).
    destruct (free _ b1) as [m1|] eqn:F1; simpl; [|discriminate].
    destruct (free m1 b2) as [m2|] eqn:F2; simpl; [|discriminate].
    destruct (free m2 b3) as [m3|] eqn:F3; simpl; [|discriminate].
    destruct (free m3 b4) as [m4|] eqn:F4; simpl; [|discriminate].
    intros F5.
    apply free_spec in F1 as [[x1 L1] ->]. apply free_spec in F2 as [[x2 L2] ->].
    apply free_spec in F3 as [[x3 L3] ->]. apply free_spec in F4 as [[x4 L4] ->].
    apply free_spec in F5 as [[x5 L5] _].
    repeat match goal with
           | H : delete _ _ !! _ = Some _ |- _ => apply lookup_delete_Some in H as [? H]
           end.
    exists s. split; [reflexivity|].
    assert (p <> b1 /\ p <> b2 /\ p <> b3 /\ p <> b4) as (? & ? & ? & ?)
      by (repeat split; congruence).
    rewrite lookup_insert_ne in L1, L2, L3, L4 by congruence.
    unfold status_blocks. fold b1 b2 b3 b4. split.
    + repeat constructor; eauto.
    + repeat (apply NoDup_cons; split;
              [repeat rewrite not_elem_of_cons; rewrite ?elem_of_nil;
               intuition congruence|]).
      apply NoDup_nil. exact I.
  - intros (s & Hp & Hlive & Hnodup).
    destruct (finish_frees_blocks m p s Hp Hlive Hnodup) as (m' & -> & _). eauto.
  - intros m' Hrun.
    assert (Hgone : m' !! p = None).
    { revert Hrun. unfold spt_FinishSplitSparseTensor.
      destruct (m !! p) as [[| | | |s]|]; try discriminate.
      destruct (sptFreeSizeVector _ _) as [m1|]; simpl; [|discriminate].
      destruct (sptFreeSizeVector m1 _) as [m2|]; simpl; [|discriminate].
      destruct (sptFreeSizeVector m2 _) as [m3|]; simpl; [|discriminate].
      destruct (sptFreeSizeVector m3 _) as [m4|]; simpl; [|discriminate].
      intros F5. apply free_spec in F5 as [_ ->]. apply lookup_delete_eq. }
    unfold spt_FinishSplitSparseTensor. rewrite Hgone. reflexivity.
Qed.

(** ** The call that sets the exhaustion flag *)

(** X29.  The exhaustion flag is set by the call that returns the chunk
    ending at [nnz], and by no other: after a returned chunk the flag is 0
    or 1, it is 1 exactly when the chunk ends the source, and exactly then
    the next call returns [SPTERR_NO_MORE]. *)
Theorem X29_flag_set_with_the_last_chunk (t : sptSparseTensor) (cuts : list Z)
    (dest : sptSparseTensor) (status status' : spt_SplitStatus) (h h' : heap) (c : chunk) :
  tensor_wf t -> reachable t cuts status ->
  spt_SplitSparseTensor dest status h = (Done c, status', h') ->
  (no_more status' = 0 \/ no_more status' = 1)
  /\ (no_more status' = 1 <-> cut_high c = nnz t)
  /\ forall dest2 h2,
       fst (fst (spt_SplitSparseTensor dest2 status' h2)) = Failed SPTERR_NO_MORE
       <-> cut_high c = nnz t.
Proof.
  intros (Hn & Hnnz & _) Hreach Hcall.
  destruct (reachable_inv t cuts status Hn Hnnz Hreach) as [Hinv Htsr].
  destruct (produce_keeps_inv _ _ _ _ _ _ Hinv Hcall) as (Hinv' & Htsr' & _).
  destruct (produce_done _ _ _ _ _ _ Hinv Hcall) as (_ & _ & _ & _ & _ & _ & Hnext).
  rewrite Htsr in *.
  assert (Hflag : no_more status' = 1 <-> cut_high c = nnz t).
  { destruct Hnext as [[Hset Hend]|[Hkeep Htop]].
    - tauto.
    - pose proof (inv_depth _ Hinv') as Hd.
      destruct (inv_levels _ Hinv' (len (partial_low status') - 1) ltac:(lia))
        as (_ & Hlt & Hhigh).
      unfold top_low in Htop. rewrite Htsr' in Hhigh. split; intros; lia. }
  split; [destruct Hnext as [[-> _]|[-> _]]; auto|]. split; [exact Hflag|].
  intros dest2 h2. rewrite <- Hflag. split.
  - intros Hno.
    destruct (spt_SplitSparseTensor dest2 status' h2) as [[r s2] h3] eqn:Hcall2.
    simpl in Hno. subst r. apply produce_no_more in Hcall2 as (Hne & _).
    destruct Hnext as [[-> _]|[Hzero _]]; [reflexivity | contradiction].
  - intros Hset. rewrite produce_exhausted by lia. reflexivity.
Qed.

(** ** Where a chunk ends *)

Lemma descend_step_boundaries (mode : Z) (status status' : spt_SplitStatus)
    (h h' : heap) (r : outcome unit) :
  stack_inv status -> len (partial_low status) = mode + 1 ->
  mode < nmodes (tsr status) -> ends_on_boundaries status ->
  descend_step mode status h = (r, status', h') -> ends_on_boundaries status'.
Proof.
  intros Hinv Hdepth Hmode Hends.
  destruct (Z.eq_dec (cuts_at status mode) 0) as [Hzero|Hcuts].
  - rewrite descend_step_zero by assumption. intros [= _ <- _]. exact Hends.
  - destruct (descend_step_done mode status h Hinv Hdepth Hmode Hcuts)
      as (status1 & -> & _ & Hdepth1 & Htsr & _ & _ & _ & Hstep & Hhigh & Hold & _).
    intros [= _ <- _]. intros k Hk. rewrite Hdepth1 in Hk. rewrite Htsr.
    pose proof (inv_depth _ Hinv) as Hd. pose proof (inv_nnz _ Hinv) as Hnnz.
    destruct (inv_levels _ Hinv mode ltac:(lia)) as (Hlow0 & Hlt & Hle).
    destruct (Z.eq_dec k (mode + 1)) as [->|Hne].
    + rewrite Hhigh.
      pose proof (find_cut_bounds (data (inds_at (tsr status) mode)) (low_at status mode)
                    (high_at status mode) (step_at status1 mode) ltac:(lia) ltac:(lia))
        as Hcut.
      pose proof (find_cut_at_change (data (inds_at (tsr status) mode))
                    (low_at status mode) (high_at status mode) (step_at status1 mode)
                    ltac:(lia) ltac:(lia)) as Hchange.
      set (cut := find_cut _ _ _ _) in *.
      destruct (Z.eq_dec cut (high_at status mode)) as [->|Hin].
      * apply Hends. lia.
      * right. exists mode. split; [lia|]. apply Hchange. lia.
    + destruct (Hold k ltac:(lia)) as [_ ->]. apply Hends. lia.
Qed.

Lemma descend_boundaries (fuel : nat) (mode : Z) (status status' : spt_SplitStatus)
    (h h' : heap) (r : outcome unit) :
  stack_inv status -> len (partial_low status) = mode + 1 ->
  mode <= nmodes (tsr status) -> fuel = Z.to_nat (nmodes (tsr status) - mode) ->
  ends_on_boundaries status ->
  descend fuel mode status h = (r, status', h') -> ends_on_boundaries status'.
Proof.
  revert mode status h.
  induction fuel as [|fuel IH]; intros mode status h Hinv Hdepth Hmode Hfuel Hends; simpl.
  - intros [= _ <- _]. exact Hends.
  - replace (mode <? nmodes (tsr status)) with true by (symmetry; apply Z.ltb_lt; lia).
    destruct (Z.eq_dec (cuts_at status mode) 0) as [Hzero|Hcuts].
    + rewrite descend_step_zero by (assumption || lia). intros [= _ <- _]. exact Hends.
    + destruct (descend_step_done mode status h Hinv Hdepth ltac:(lia) Hcuts)
        as (status1 & Hrun & Hinv1 & Hdepth1 & Htsr & _).
      pose proof (descend_step_boundaries _ _ _ _ _ _ Hinv Hdepth ltac:(lia) Hends Hrun)
        as Hends1.
      rewrite Hrun.
      pose proof (inv_modes _ Hinv) as Hn. pose proof (inv_depth _ Hinv) as Hd.
      rewrite size_add_small by lia.
      apply IH; [assumption | lia | rewrite Htsr; lia | rewrite Htsr; lia | assumption].
Qed.

Lemma backtrack_boundaries (fuel : nat) (m : Z) (status : spt_SplitStatus) :
  stack_inv status -> len (partial_low status) = m + 1 -> (Z.to_nat m < fuel)%nat ->
  ends_on_boundaries status -> ends_on_boundaries (backtrack fuel m status).
Proof.
  revert m status.
  induction fuel as [|fuel IH]; intros m status Hinv Hdepth Hfuel Hends; [lia|].
  pose proof Hinv as
    [Hn Hnnz Hd Hhl Hsl Hlc Hhc Hsc Hlcells Hhcells Hscells Hlev Hnest Hwhole].
  simpl.
  destruct (0 <? m) eqn:Hpos; [apply Z.ltb_lt in Hpos | apply Z.ltb_ge in Hpos].
  - rewrite (size_sub_small m 1) by lia.
    rewrite (size_add_small (m - 1) 1) by lia.
    replace (m - 1 + 1) with m by lia.
    fold (high_at status m) (high_at status (m - 1)).
    pose proof (Hnest (m - 1) ltac:(lia) ltac:(lia)) as Hle.
    replace (m - 1 + 1) with m in Hle by lia.
    destruct (high_at status (m - 1) <=? high_at status m) eqn:Hused;
      [apply Z.leb_le in Hused | apply Z.leb_gt in Hused].
    + set (status1 := SplitStatus _ _ _ _ _ _).
      assert (Hinv1 : stack_inv status1).
      { constructor; unfold status1, drop_last, low_at, high_at in *;
          cbn [tsr cuts_by_mode partial_low partial_high index_step no_more len cap data];
          rewrite ?size_sub_small by lia; try lia.
        - intros k Hk. apply Hlev. lia.
        - intros k Hk0 Hk. apply Hnest; lia. }
      apply IH; [assumption | | lia |].
      * unfold status1, drop_last.
        cbn [tsr cuts_by_mode partial_low partial_high index_step no_more len cap data].
        rewrite size_sub_small by lia. lia.
      * intros k Hk. unfold status1, drop_last in Hk.
        cbn [tsr cuts_by_mode partial_low partial_high index_step no_more len cap data]
          in Hk.
        rewrite size_sub_small in Hk by lia.
        change (boundary (tsr status) (high_at status k)). apply Hends. lia.
    + destruct (Hlev m ltac:(lia)) as (Hlow0 & Hlowhigh & Htop).
      destruct (Hlev (m - 1) ltac:(lia)) as (_ & _ & Hparent).
      pose proof (find_cut_bounds (data (inds_at (tsr status) (m - 1)))
                    (high_at status m) (high_at status (m - 1))
                    (size_cell (data (index_step status)) (m - 1))
                    ltac:(lia) ltac:(lia)) as Hcut.
      pose proof (find_cut_at_change (data (inds_at (tsr status) (m - 1)))
                    (high_at status m) (high_at status (m - 1))
                    (size_cell (data (index_step status)) (m - 1))
                    ltac:(lia) ltac:(lia)) as Hchange.
      set (i := find_cut _ _ _ _) in *.
      intros k Hk. unfold with_partial_high, with_partial_low, high_at in *.
      cbn [tsr cuts_by_mode partial_low partial_high index_step no_more len cap data]
        in Hk |- *.
      destruct (Z.eq_dec k m) as [->|Hne].
      * unfold size_cell at 1. rewrite cell_store_same by lia.
        destruct (Z.eq_dec i (size_cell (data (partial_high status)) (m - 1)))
          as [->|Hin].
        -- apply Hends. lia.
        -- right. exists (m - 1). split; [lia|]. apply Hchange. lia.
      * unfold size_cell at 1. rewrite cell_store_other by lia. apply Hends. lia.
  - intros k Hk. apply Hends. exact Hk.
Qed.

Lemma produce_boundaries (dest : sptSparseTensor) (status status' : spt_SplitStatus)
    (h h' : heap) (r : outcome chunk) :
  stack_inv status -> ends_on_boundaries status ->
  spt_SplitSparseTensor dest status h = (r, status', h') ->
  ends_on_boundaries status'
  /\ forall c, r = Done c -> boundary (tsr status) (cut_high c).
Proof.
  intros Hinv Hends.
  pose proof (inv_depth _ Hinv) as Hd. pose proof (inv_modes _ Hinv) as Hn.
  unfold spt_SplitSparseTensor.
  destruct (no_more status =? 0); simpl negb; cbv iota.
  - rewrite size_sub_small by lia.
    set (n := nmodes (tsr status)) in *.
    set (mode := len (partial_low status) - 1) in *.
    destruct (descend (Z.to_nat (n - mode)) mode status h) as [[r1 status1] h1] eqn:Hrun.
    pose proof (descend_boundaries (Z.to_nat (n - mode)) mode status status1 h h1 r1 Hinv
                  ltac:(lia) ltac:(lia) eq_refl Hends Hrun) as Hends1.
    destruct (descend_cases (Z.to_nat (n - mode)) mode status h Hinv ltac:(lia) ltac:(lia)
                eq_refl)
      as (status2 & Hinv2 & Htsr2 & _ & _ & _ & [[Hrun2 Hfull]|[Hrun2 _]]);
      rewrite Hrun2 in Hrun; injection Hrun as <- <- <-.
    + pose proof (backtrack_boundaries (S (Z.to_nat n)) n status2 Hinv2 Hfull ltac:(lia)
                    Hends1) as Hback.
      set (status3 := backtrack (S (Z.to_nat n)) n status2) in *.
      destruct (materialize _ _ _ _ _) as [[d|e] h2].
      * intros [= <- <- _]. split.
        -- exact Hback.
        -- intros c [= <-]. cbn [cut_high]. rewrite <- Htsr2.
           apply (Hends1 n). fold n in Hfull. lia.
      * intros [= <- <- _]. split; [assumption | discriminate].
    + intros [= <- <- _]. split; [assumption | discriminate].
  - intros [= <- <- _]. split; [assumption | discriminate].
Qed.

Lemma reachable_boundaries (t : sptSparseTensor) (cuts : list Z) (status : spt_SplitStatus) :
  0 <= nmodes t < SIZE_MAX -> 0 <= nnz t <= SIZE_MAX ->
  reachable t cuts status -> stack_inv status /\ tsr status = t /\ ends_on_boundaries status.
Proof.
  intros Hn Hnnz Hreach. induction Hreach as [h status h' Hstart|
    status dest h r status' h' _ (Hinv & Htsr & Hends) Hcall].
  - apply start_done in Hstart as (_ & _ & Hinv & Htsr & _ & Hdepth & _ & Hhigh & _);
      try assumption.
    split; [assumption|]. split; [assumption|].
    intros k Hk. rewrite Hdepth in Hk. replace k with 0 by lia.
    left. rewrite Hhigh, Htsr. reflexivity.
  - destruct (produce_keeps_inv _ _ _ _ _ _ Hinv Hcall) as (Hinv' & Htsr' & _).
    destruct (produce_boundaries _ _ _ _ _ _ Hinv Hends Hcall) as [Hends' _].
    split; [assumption|]. split; [congruence | assumption].
Qed.

(** X30.  No chunk ends between two nonzeros that carry the same index in
    every mode: a chunk ends at the end of the source, or at a nonzero
    whose index differs from that of the nonzero before it in some mode.
    Every level of the range stack ends at such a position, since a cut is
    the end of its parent range or a change of index in its mode. *)
Theorem X30_chunk_ends_where_an_index_changes (t : sptSparseTensor) (cuts : list Z)
    (dest : sptSparseTensor) (status status' : spt_SplitStatus) (h h' : heap) (c : chunk) :
  tensor_wf t -> reachable t cuts status ->
  spt_SplitSparseTensor dest status h = (Done c, status', h') ->
  (cut_high c = nnz t
   \/ exists m, 0 <= m < nmodes t
                /\ index_at t m (cut_high c) <> index_at t m (cut_high c - 1))
  /\ ends_on_boundaries status'.
Proof.
  intros (Hn & Hnnz & _) Hreach Hcall.
  destruct (reachable_boundaries t cuts status Hn Hnnz Hreach) as (Hinv & Htsr & Hends).
  destruct (produce_boundaries _ _ _ _ _ _ Hinv Hends Hcall) as [Hends' Hchunk].
  split; [|exact Hends'].
  specialize (Hchunk c eq_refl). rewrite Htsr in Hchunk. exact Hchunk.
Qed.

(** ** The further theorems at concrete inputs *)

Lemma X1_witness :
  (forall k, 0 <= k < 3 -> size_cell [4; 9; 2] k <= sptMaxSizeArray [4; 9; 2] 3)
  /\ exists k, 0 <= k < 3 /\ sptMaxSizeArray [4; 9; 2] 3 = size_cell [4; 9; 2] k.
Proof.
  apply (X1_max_size_array_is_maximum [4; 9; 2] 3); vm_compute; congruence.
Defined.

Lemma X2_witness :
  elements 0 (sptConstantSizeVector (Vec 2 3 [5; 6; 7]) 1) = [1; 1]
  /\ size_cell (data (sptConstantSizeVector (Vec 2 3 [5; 6; 7]) 1)) 2 = 7.
Proof.
  pose proof (X2_constant_size_vector_fills_elements (Vec 2 3 [5; 6; 7]) 1
                ltac:(vm_compute; congruence) ltac:(vm_compute; congruence)
                ltac:(vm_compute; congruence)) as Hfill.
  cbv zeta in Hfill. destruct Hfill as (_ & _ & _ & _ & Hrest & Hel).
  split; [exact Hel | apply Hrest; vm_compute; congruence].
Defined.


Lemma X4_witness :
  sptCopySizeVector (Vec 2 5 [7; 8; 0; 0; 0]) [Some 9] = (Ok (Vec 2 2 [7; 8]), [])
  /\ cap (Vec 2 2 [7; 8]) = Z.max 2 2
  /\ elements 0 (Vec 2 2 [7; 8]) = elements 0 (Vec 2 5 [7; 8; 0; 0; 0]).
Proof.
  split; [reflexivity|].
  exact (proj2 (proj2 (X4_copy_size_vector_elements (Vec 2 5 [7; 8; 0; 0; 0]) [Some 9] []
                         (Vec 2 2 [7; 8]) ltac:(vm_compute; congruence)
                         ltac:(vm_compute; congruence) eq_refl))).
Defined.

Lemma X5_witness :
  sptCopyVector (Vec 2 5 (map scalar_bits [7; 8; 0; 0; 0])) [Some 9]
  = (Ok (Vec 2 2 (map scalar_bits [7; 8])), [])
  /\ elements (scalar_bits 0) (Vec 2 2 (map scalar_bits [7; 8]))
     = elements (scalar_bits 0) (Vec 2 5 (map scalar_bits [7; 8; 0; 0; 0])).
Proof.
  split; [reflexivity|].
  exact (proj2 (proj2 (proj2 (X5_copy_vector_elements
                                (Vec 2 5 (map scalar_bits [7; 8; 0; 0; 0])) [Some 9] []
                                (Vec 2 2 (map scalar_bits [7; 8]))
                                ltac:(vm_compute; congruence)
                                ltac:(vm_compute; congruence) eq_refl)))).
Defined.

Lemma X6_witness :
  sptAppendSizeVector (Vec 2 2 [7; 8]) 9 [Some 0] = (Ok (Vec 3 3 [7; 8; 9]), [])
  /\ elements 0 (Vec 3 3 [7; 8; 9]) = elements 0 (Vec 2 2 [7; 8]) ++ [9].
Proof.
  split; [reflexivity|].
  exact (proj1 (X6_append_size_vector_elements (Vec 2 2 [7; 8]) 9 [Some 0] []
                  (Vec 3 3 [7; 8; 9]) ltac:(repeat split; vm_compute; congruence)
                  ltac:(vm_compute; congruence) eq_refl)).
Defined.

Lemma X7_witness :
  sptAppendVector (Vec 1 3 (map scalar_bits [7; 0; 0])) (scalar_bits 9) []
  = (Ok (Vec 2 3 (map scalar_bits [7; 9; 0])), [])
  /\ elements (scalar_bits 0) (Vec 2 3 (map scalar_bits [7; 9; 0]))
     = elements (scalar_bits 0) (Vec 1 3 (map scalar_bits [7; 0; 0])) ++ [scalar_bits 9].
Proof.
  split; [reflexivity|].
  exact (proj1 (X7_append_vector_elements (Vec 1 3 (map scalar_bits [7; 0; 0]))
                  (scalar_bits 9) [] [] (Vec 2 3 (map scalar_bits [7; 9; 0]))
                  ltac:(repeat split; vm_compute; congruence)
                  ltac:(vm_compute; congruence) eq_refl)).
Defined.

Lemma X8_witness :
  sptAppendSizeVector (Vec 1 1 [7]) 9 [Some 0] = (Ok (Vec 2 1 [7]), [])
  /\ cap (Vec 2 1 [7]) < len (Vec 2 1 [7]).
Proof.
  split; [reflexivity|].
  exact (proj2 (proj2 (proj2 (X8_append_below_capacity_two_does_not_grow (Vec 1 1 [7]) 9
                                [Some 0] [] (Vec 2 1 [7])
                                ltac:(split; vm_compute; congruence)
                                ltac:(vm_compute; congruence)
                                ltac:(vm_compute; congruence) eq_refl eq_refl)))).
Defined.

Lemma X9_witness :
  exists v h',
    append_sizes (Vec 0 2 [0; 0]) [1; 2; 3] [] = (Ok v, h') /\ vec_ok v
    /\ elements 0 v = [1; 2; 3].
Proof.
  exact (X9_appended_values_read_back (Vec 0 2 [0; 0]) [1; 2; 3] []
           ltac:(repeat split; vm_compute; congruence) (List.Forall_nil _)
           ltac:(vm_compute; congruence)).
Defined.

Lemma X10_witness :
  sptAppendSizeVectorWithVector (Vec 1 2 [7; 0]) (Vec 2 2 [8; 9]) [Some 0]
  = (Ok (Vec 3 4 [7; 8; 9; 0]), [])
  /\ elements 0 (Vec 3 4 [7; 8; 9; 0])
     = elements 0 (Vec 1 2 [7; 0]) ++ elements 0 (Vec 2 2 [8; 9]).
Proof.
  split; [reflexivity|].
  exact (proj2 (X10_append_size_range_elements (Vec 1 2 [7; 0]) (Vec 2 2 [8; 9])
                  [Some 0] [] (Vec 3 4 [7; 8; 9; 0])
                  ltac:(repeat split; vm_compute; congruence)
                  ltac:(repeat split; vm_compute; congruence)
                  ltac:(vm_compute; congruence) eq_refl)).
Defined.

Lemma X11_witness :
  exists out,
    sptAppendVectorWithVector
      (Vec 1 5 (map scalar_bits [7; 1; 2; 3; 4])) (Vec 2 2 (map scalar_bits [8; 9])) []
    = (Ok out, [])
    /\ len out = 3
    /\ data out = map scalar_bits [7; 8; 2; 9; 4].
Proof.
  destruct (X11_append_value_range_writes_every_other_cell
              (Vec 1 5 (map scalar_bits [7; 1; 2; 3; 4]))
              (Vec 2 2 (map scalar_bits [8; 9])) []
              ltac:(split; vm_compute; congruence) ltac:(vm_compute; congruence)
              ltac:(vm_compute; congruence))
    as (out & Hrun & Hlen & _).
  exists out. split; [exact Hrun|]. split; [exact Hlen|].
  vm_compute in Hrun. injection Hrun as <-. reflexivity.
Defined.





Lemma X16_witness :
  sptAppendNnzIndexVector (Vec 2 2 [7; 8]) 9 [Some 0] = (Ok (Vec 3 3 [7; 8; 9]), [])
  /\ elements 0 (Vec 3 3 [7; 8; 9]) = elements 0 (Vec 2 2 [7; 8]) ++ [9].
Proof.
  split; [reflexivity|].
  destruct (X16_append_index_vectors_elements sptAppendNnzIndexVector
              (Vec 3 3 [7; 8; 9]) (Vec 2 2 [7; 8]) 9 [Some 0] []
              ltac:(simpl; tauto) ltac:(repeat split; vm_compute; congruence)
              ltac:(vm_compute; congruence) eq_refl)
    as (_ & Hel & _).
  exact Hel.
Defined.

Lemma X17_witness :
  sptAppendValueVector (Vec 1 3 (map scalar_bits [7; 0; 0])) (scalar_bits 9) []
  = (Ok (Vec 2 3 (map scalar_bits [7; 9; 0])), [])
  /\ elements (scalar_bits 0) (Vec 2 3 (map scalar_bits [7; 9; 0]))
     = elements (scalar_bits 0) (Vec 1 3 (map scalar_bits [7; 0; 0])) ++ [scalar_bits 9].
Proof.
  split; [reflexivity|].
  destruct (X17_append_value_vector_elements (Vec 1 3 (map scalar_bits [7; 0; 0]))
              (scalar_bits 9) [] [] (Vec 2 3 (map scalar_bits [7; 9; 0]))
              ltac:(repeat split; vm_compute; congruence)
              ltac:(vm_compute; congruence) eq_refl)
    as (_ & Hel & _).
  exact Hel.
Defined.

Lemma X18_witness :
  exists m' : memory,
    sptFreeVector memory_A (VecRef 6 6 6%positive) = Some m'
    /\ m' !! 6%positive = None
    /\ sptFreeVector m' (VecRef 6 6 6%positive) = None.
Proof.
  destruct (sptFreeVector memory_A (VecRef 6 6 6%positive)) as [m'|] eqn:Hrun;
    [|vm_compute in Hrun; discriminate].
  exists m'. split; [reflexivity|].
  destruct (X18_free_vector_releases_buffer_only sptFreeVector memory_A m'
              (VecRef 6 6 6%positive) ltac:(simpl; tauto) Hrun)
    as (_ & Hgone & _ & Hagain).
  split; [exact Hgone | exact Hagain].
Defined.

Lemma X19_witness :
  exists (m' : memory) vec',
    sptFreeIndexVector memory_A (VecRef 6 6 4%positive) = Some (m', vec')
    /\ ref_len vec' = 0 /\ ref_cap vec' = 0 /\ ref_data vec' = 4%positive
    /\ sptFreeIndexVector m' vec' = None.
Proof.
  destruct (sptFreeIndexVector memory_A (VecRef 6 6 4%positive)) as [[m' vec']|] eqn:Hrun;
    [|vm_compute in Hrun; discriminate].
  exists m', vec'. split; [reflexivity|].
  destruct (X19_free_index_vectors_keep_pointer sptFreeIndexVector memory_A m'
              (VecRef 6 6 4%positive) vec' ltac:(simpl; tauto) Hrun)
    as (Hlen & Hcap & Hdata & _ & _ & Hagain).
  do 3 (split; [assumption|]). exact Hagain.
Defined.

Lemma X21_witness :
  0 < find_cut [0; 0; 1; 1; 2; 2] 0 6 1 <= 6
  /\ (find_cut [0; 0; 1; 1; 2; 2] 0 6 1 < 6 ->
      size_cell [0; 0; 1; 1; 2; 2] (find_cut [0; 0; 1; 1; 2; 2] 0 6 1)
      <> size_cell [0; 0; 1; 1; 2; 2] (find_cut [0; 0; 1; 1; 2; 2] 0 6 1 - 1)).
Proof.
  exact (X21_cut_falls_on_a_change_of_index [0; 0; 1; 1; 2; 2] 0 6 1
           ltac:(split; vm_compute; congruence) ltac:(vm_compute; congruence)).
Defined.

Lemma X22_witness :
  find_cut [0; 1; 0; 1] 0 4 (step_of (count_index_values [0; 1; 0; 1] 0 4) 1) = 4.
Proof.
  destruct (X22_one_cut_keeps_the_range_whole [0; 1; 0; 1] 0 4 0
              ltac:(split; vm_compute; congruence) ltac:(vm_compute; congruence))
    as (_ & _ & Hwhole).
  exact Hwhole.
Defined.

Lemma X23_witness :
  count_index_values [0; 0; 1; 1; 2; 2] 0 (find_cut [0; 0; 1; 1; 2; 2] 0 6 2) <= 2
  /\ (find_cut [0; 0; 1; 1; 2; 2] 0 6 2 < 6 ->
      count_index_values [0; 0; 1; 1; 2; 2] 0 (find_cut [0; 0; 1; 1; 2; 2] 0 6 2) = 2).
Proof.
  exact (X23_cut_groups_step_values [0; 0; 1; 1; 2; 2] 0 6 2
           ltac:(split; vm_compute; congruence) ltac:(vm_compute; congruence)
           ltac:(split; vm_compute; congruence)).
Defined.

Lemma X24_witness : (step_of 7 3 - 1) * 3 < 7 /\ 7 <= step_of 7 3 * 3.
Proof.
  exact (X24_step_is_count_over_cuts_rounded_up 7 3
           ltac:(split; vm_compute; congruence) ltac:(vm_compute; congruence)).
Defined.

Lemma X25_witness :
  exists status1 h1,
    spt_SplitSparseTensor blank (started tensor_A [3; 1]) [None]
    = (Failed SPTERR_OS_ERROR, status1, h1)
    /\ spt_SplitSparseTensor blank status1 []
       = spt_SplitSparseTensor blank (started tensor_A [3; 1]) [].
Proof.
  assert (Hwf : tensor_wf tensor_A) by concrete_wf.
  assert (Hstart : spt_StartSplitSparseTensor tensor_A [3; 1] []
                   = (Done (started tensor_A [3; 1]), []))
    by (vm_compute; reflexivity).
  pose proof (reach_start tensor_A [3; 1] [] _ [] Hstart) as Hreach.
  destruct (spt_SplitSparseTensor blank (started tensor_A [3; 1]) [None])
    as [[[c|[| |]|why] status1] h1] eqn:Hcall;
    try (vm_compute in Hcall; discriminate).
  exists status1, h1. split; [reflexivity|].
  exact (X25_refused_call_can_be_repeated tensor_A [3; 1] blank _ status1 [None] h1
           Hwf Hreach Hcall blank []).
Defined.

Lemma X26_witness :
  exists cs,
    split_all 7 blank tensor_A [3; 1] [] = Exhausted cs
    /\ Z.of_nat (length cs) <= 6
    /\ fold_right Z.add 0 (map (fun c => nnz (chunk_tensor c)) cs) = 6.
Proof.
  assert (Hwf : tensor_wf tensor_A) by concrete_wf.
  destruct (split_all 7 blank tensor_A [3; 1] []) as [cs| |] eqn:Hrun;
    try (vm_compute in Hrun; discriminate).
  exists cs. split; [reflexivity|].
  exact (proj2 (X26_chunk_sizes_add_up tensor_A blank [3; 1] [] 7 cs Hwf Hrun)).
Defined.

Lemma X27_witness :
  exists cs,
    split_all 7 blank tensor_A [3; 1] [] = Exhausted cs
    /\ concat (map (fun c => elements 0 (inds_at (chunk_tensor c) 1)) cs)
       = [0; 1; 0; 1; 0; 1]
    /\ concat (map (fun c => elements (scalar_bits 0) (values (chunk_tensor c))) cs)
       = map scalar_bits [10; 11; 12; 13; 14; 15].
Proof.
  assert (Hwf : tensor_wf tensor_A) by concrete_wf.
  destruct (split_all 7 blank tensor_A [3; 1] []) as [cs| |] eqn:Hrun;
    try (vm_compute in Hrun; discriminate).
  exists cs. split; [reflexivity|].
  destruct (X27_chunks_concatenated_are_the_source tensor_A blank [3; 1] [] 7 cs Hwf Hrun)
    as [Hinds Hvals].
  split; [exact (Hinds 1 ltac:(split; vm_compute; congruence)) | exact Hvals].
Defined.

Lemma X29_witness :
  exists c status' h',
    spt_SplitSparseTensor blank (status_after 2 tensor_A [3; 1]) [] = (Done c, status', h')
    /\ no_more status' = 1 /\ cut_high c = 6.
Proof.
  assert (Hwf : tensor_wf tensor_A) by concrete_wf.
  assert (Hstart : spt_StartSplitSparseTensor tensor_A [3; 1] []
                   = (Done (started tensor_A [3; 1]), []))
    by (vm_compute; reflexivity).
  pose proof (reach_start tensor_A [3; 1] [] _ [] Hstart) as Hreach0.
  destruct (spt_SplitSparseTensor blank (started tensor_A [3; 1]) [])
    as [[r1 status1] h1] eqn:Hcall1.
  pose proof (reach_produce tensor_A [3; 1] _ blank [] r1 status1 h1 Hreach0 Hcall1)
    as Hreach1.
  destruct (spt_SplitSparseTensor blank status1 h1) as [[r2 status2] h2] eqn:Hcall2.
  pose proof (reach_produce tensor_A [3; 1] _ blank h1 r2 status2 h2 Hreach1 Hcall2)
    as Hreach2.
  assert (Hsame : status2 = status_after 2 tensor_A [3; 1]).
  { unfold status_after, produce_times. rewrite Hcall1, Hcall2. reflexivity. }
  rewrite Hsame in Hreach2.
  destruct (spt_SplitSparseTensor blank (status_after 2 tensor_A [3; 1]) [])
    as [[[c|e|why] status'] h'] eqn:Hcall;
    [|vm_compute in Hcall; discriminate|vm_compute in Hcall; discriminate].
  exists c, status', h'. split; [reflexivity|].
  destruct (X29_flag_set_with_the_last_chunk tensor_A [3; 1] blank _ status' [] h' c
              Hwf Hreach2 Hcall) as (_ & Hflag & _).
  assert (Hend : cut_high c = 6) by (vm_compute in Hcall; injection Hcall as <- _ _; reflexivity).
  split; [apply Hflag; exact Hend | exact Hend].
Defined.

Lemma X30_witness :
  exists c status' h',
    spt_SplitSparseTensor blank (started tensor_A [3; 1]) [] = (Done c, status', h')
    /\ (cut_high c = 6
        \/ exists m, 0 <= m < 2
                     /\ index_at tensor_A m (cut_high c)
                        <> index_at tensor_A m (cut_high c - 1)).
Proof.
  assert (Hwf : tensor_wf tensor_A) by concrete_wf.
  assert (Hstart : spt_StartSplitSparseTensor tensor_A [3; 1] []
                   = (Done (started tensor_A [3; 1]), []))
    by (vm_compute; reflexivity).
  pose proof (reach_start tensor_A [3; 1] [] _ [] Hstart) as Hreach.
  destruct (spt_SplitSparseTensor blank (started tensor_A [3; 1]) [])
    as [[[c|e|why] status'] h'] eqn:Hcall;
    [|vm_compute in Hcall; discriminate|vm_compute in Hcall; discriminate].
  exists c, status', h'. split; [reflexivity|].
  exact (proj1 (X30_chunk_ends_where_an_index_changes tensor_A [3; 1] blank _ status' [] h'
                  c Hwf Hreach Hcall)).
Defined.
